(** * bionic/linker/linker_phdr.cpp: ELF segment loading and the
      instruction-pointer syscall filter

    A shallow embedding of the loader core (ElfReader and the phdr_table_*
    helpers) and of the seccomp filter program built by [init_seccomp],
    followed by the properties established about them. *)

From Stdlib Require Import ZArith List Bool Lia String Ascii.
Import ListNotations.
Local Open Scope Z_scope.

(* ================================================================== *)
(** * Part I: the embedding *)
(* ================================================================== *)

(** ** Machine integers

    The file is compiled twice: without [__LP64__] (32-bit pointers,
    [Elf32_*] structures) and with it.  [ElfW(Addr)], [size_t] and
    [uintptr_t] all have the pointer width of the build. *)

Inductive abi : Type := ILP32 | LP64.

Definition bits (b : abi) : Z :=
  match b with ILP32 => 32 | LP64 => 64 end.

Definition modulus (b : abi) : Z := 2 ^ bits b.

(** Unsigned wrap-around of a pointer-sized value. *)
Definition wrap (b : abi) (x : Z) : Z := x mod modulus b.

(** The same bits read as [ssize_t] (what [%zd] prints). *)
Definition to_signed (b : abi) (x : Z) : Z :=
  if wrap b x <? modulus b / 2 then wrap b x else wrap b x - modulus b.

Definition u32 (x : Z) : Z := x mod 2 ^ 32.

Definition UINTPTR_MAX (b : abi) : Z := modulus b - 1.

Definition in_word (b : abi) (x : Z) : Prop := 0 <= x < modulus b.

(** ** Page arithmetic *)

Definition PAGE_SIZE : Z := 4096.

(** Modelled from the spec: the page macros of linker.h, which is not part
    of the sources at hand ("rounded to page boundaries"): [PAGE_MASK]
    clears the offset bits, [PAGE_START] is the address of the page holding
    [x], [PAGE_OFFSET] the offset of [x] in its page and [PAGE_END] the
    first page boundary at or after [x]. *)
Definition PAGE_MASK (b : abi) : Z := wrap b (Z.lnot (PAGE_SIZE - 1)).

Definition PAGE_START (b : abi) (x : Z) : Z := Z.land x (PAGE_MASK b).

Definition PAGE_OFFSET (b : abi) (x : Z) : Z :=
  Z.land x (wrap b (Z.lnot (PAGE_MASK b))).

Definition PAGE_END (b : abi) (x : Z) : Z :=
  PAGE_START b (wrap b (x + (PAGE_SIZE - 1))).

(** ** ELF structures and constants (elf.h, sys/mman.h) *)

Definition PT_LOAD : Z := 1.
Definition PT_DYNAMIC : Z := 2.
Definition PT_PHDR : Z := 6.
Definition PT_GNU_RELRO : Z := 0x6474e552.

Definition PF_X : Z := 1.
Definition PF_W : Z := 2.
Definition PF_R : Z := 4.

Definition PROT_NONE : Z := 0.
Definition PROT_READ : Z := 1.
Definition PROT_WRITE : Z := 2.
Definition PROT_EXEC : Z := 4.

Definition MAP_PRIVATE : Z := 2.
Definition MAP_FIXED : Z := 16.
Definition MAP_ANONYMOUS : Z := 32.

Definition SHT_STRTAB : Z := 3.
Definition SHT_DYNAMIC : Z := 6.

Definition ELFCLASS32 : Z := 1.
Definition ELFCLASS64 : Z := 2.
Definition ELFDATA2LSB : Z := 1.
Definition ET_DYN : Z := 3.
Definition EV_CURRENT : Z := 1.
Definition EM_ARM : Z := 40.
Definition EM_AARCH64 : Z := 183.

(** [ELF_TARG_MACH] comes from machine/exec.h; the filter in this file is
    written for ARM and AArch64. *)
Definition ELF_TARG_MACH (b : abi) : Z :=
  match b with ILP32 => EM_ARM | LP64 => EM_AARCH64 end.

Definition ELFMAG : list Z := [127; 69; 76; 70].

Record Ehdr : Type := mkEhdr {
  e_ident_mag : list Z;
  e_ident_class : Z;
  e_ident_data : Z;
  e_type : Z;
  e_machine : Z;
  e_version : Z;
  e_phoff : Z;
  e_shoff : Z;
  e_phnum : Z;
  e_shnum : Z
}.

Record Phdr : Type := mkPhdr {
  p_type : Z;
  p_flags : Z;
  p_offset : Z;
  p_vaddr : Z;
  p_filesz : Z;
  p_memsz : Z
}.

Record Shdr : Type := mkShdr {
  sh_type : Z;
  sh_offset : Z;
  sh_size : Z;
  sh_link : Z
}.

Definition sizeof_Phdr (b : abi) : Z :=
  match b with ILP32 => 32 | LP64 => 56 end.

Definition sizeof_Ehdr (b : abi) : Z :=
  match b with ILP32 => 52 | LP64 => 64 end.


(** Every field of a table entry fits the build's word. *)
Definition phdr_in_word (b : abi) (p : Phdr) : Prop :=
  in_word b (p_offset p) /\ in_word b (p_vaddr p) /\
  in_word b (p_filesz p) /\ in_word b (p_memsz p) /\
  0 <= p_type p < 2 ^ 32 /\ 0 <= p_flags p < 2 ^ 32.

Definition MAYBE_MAP_FLAG (x from to : Z) : Z :=
  if Z.land x from =? 0 then 0 else to.

Definition PFLAGS_TO_PROT (x : Z) : Z :=
  Z.lor (Z.lor (MAYBE_MAP_FLAG x PF_X PROT_EXEC)
               (MAYBE_MAP_FLAG x PF_R PROT_READ))
        (MAYBE_MAP_FLAG x PF_W PROT_WRITE).

Definition is_load (p : Phdr) : bool := p_type p =? PT_LOAD.

(** ** phdr_table_get_load_size *)

(** One iteration of the scan; the state is
    [(min_vaddr, max_vaddr, found_pt_load)]. *)
Definition load_size_step (b : abi) (st : Z * Z * bool) (phdr : Phdr)
  : Z * Z * bool :=
  let '(min_vaddr, max_vaddr, found_pt_load) := st in
  if negb (p_type phdr =? PT_LOAD) then st
  else
    let min_vaddr' :=
      if p_vaddr phdr <? min_vaddr then p_vaddr phdr else min_vaddr in
    let seg_end := wrap b (p_vaddr phdr + p_memsz phdr) in
    let max_vaddr' := if seg_end >? max_vaddr then seg_end else max_vaddr in
    (min_vaddr', max_vaddr', true).

(** Returns [(size, *out_min_vaddr, *out_max_vaddr)]. *)
Definition phdr_table_get_load_size (b : abi) (phdr_table : list Phdr)
  : Z * Z * Z :=
  let '(min_vaddr, max_vaddr, found_pt_load) :=
    fold_left (load_size_step b) phdr_table (UINTPTR_MAX b, 0, false) in
  let min_vaddr := if negb found_pt_load then 0 else min_vaddr in
  let min_vaddr := PAGE_START b min_vaddr in
  let max_vaddr := PAGE_END b max_vaddr in
  (wrap b (max_vaddr - min_vaddr), min_vaddr, max_vaddr).

Definition load_size_of (b : abi) (t : list Phdr) : Z :=
  fst (fst (phdr_table_get_load_size b t)).

Definition min_vaddr_of (b : abi) (t : list Phdr) : Z :=
  snd (fst (phdr_table_get_load_size b t)).

(** The layout as section 4.2 of the specification words it, over
    unbounded integers: the least [p_vaddr] and the greatest
    [p_vaddr + p_memsz] of the LOAD entries. *)
Definition load_entries (t : list Phdr) : list Phdr := filter is_load t.

Definition spec_min_vaddr (t : list Phdr) : Z :=
  match load_entries t with
  | [] => 0
  | p :: ps => fold_left Z.min (map p_vaddr ps) (p_vaddr p)
  end.

Definition spec_max_vaddr (t : list Phdr) : Z :=
  fold_left Z.max (map (fun p => p_vaddr p + p_memsz p) (load_entries t)) 0.

Definition seg_end_Z (p : Phdr) : Z := p_vaddr p + p_memsz p.

(** No LOAD entry ends (after rounding up to a page) beyond the word. *)
Definition no_overflow (b : abi) (t : list Phdr) : Prop :=
  forall p, In p t -> is_load p = true ->
            p_vaddr p + p_memsz p + (PAGE_SIZE - 1) < modulus b.

Definition page_floor (x : Z) : Z := PAGE_SIZE * (x / PAGE_SIZE).
Definition page_ceil (x : Z) : Z :=
  PAGE_SIZE * ((x + PAGE_SIZE - 1) / PAGE_SIZE).

(** ** The shared layout record ([linker_maps_addr_t])

    The record lives at the fixed address [LINKER_MAPS_ADDR]; the macros
    [PRELINKER_ADDR] ... [LINKER_MAPS_LAST_ADDR] read and write its fields.
    [linker_maps_last_addr] has no initialiser. *)

Record linker_maps_addr_t : Type := mk_linker_maps {
  prelinker_addr : Z;
  prelinker_size : Z;
  host_linker_addr : Z;
  host_linker_size : Z;
  guest_linker_addr : Z;
  guest_linker_size : Z;
  guest_libc_addr : Z;
  guest_libc_size : Z;
  host_libs_addr : Z;
  host_libs_size : Z;
  linker_maps_last_addr : Z
}.

(** The member initialisers of the structure. *)
Definition linker_maps_defaults (last : Z) : linker_maps_addr_t :=
  {| prelinker_addr := 0xbc9e0000;
     prelinker_size := 0x30000;
     host_linker_addr := 0xbca20000;
     host_linker_size := 0x100000;
     guest_linker_addr := 0xbcb20000;
     guest_linker_size := 0x140000;
     guest_libc_addr := 0xbcc60000;
     guest_libc_size := 0x130000;
     host_libs_addr := 0xbcd90000;
     host_libs_size := 0;
     linker_maps_last_addr := last |}.

Definition LINKER_MAPS_ADDR (b : abi) : Z :=
  match b with
  | ILP32 => 0xbc9dc000
  | LP64 => 0x77FEEF0000 + 0x30000000 - 0x4000
  end.

Definition ORI_PRELINKER_ADDR (b : abi) : Z :=
  match b with
  | ILP32 => 0xbc9e0000
  | LP64 => 0x77FEEF0000 + 0x30000000
  end.

Definition PRELINKER_ADDR (m : linker_maps_addr_t) : Z := prelinker_addr m.
Definition GUEST_LIBC_ADDR (m : linker_maps_addr_t) : Z := guest_libc_addr m.
Definition GUEST_LIBC_SIZE (m : linker_maps_addr_t) : Z := guest_libc_size m.
Definition LINKER_MAPS_LAST_ADDR (m : linker_maps_addr_t) : Z :=
  linker_maps_last_addr m.

Definition set_GUEST_LIBC_ADDR (v : Z) (m : linker_maps_addr_t)
  : linker_maps_addr_t :=
  {| prelinker_addr := prelinker_addr m;
     prelinker_size := prelinker_size m;
     host_linker_addr := host_linker_addr m;
     host_linker_size := host_linker_size m;
     guest_linker_addr := guest_linker_addr m;
     guest_linker_size := guest_linker_size m;
     guest_libc_addr := v;
     guest_libc_size := guest_libc_size m;
     host_libs_addr := host_libs_addr m;
     host_libs_size := host_libs_size m;
     linker_maps_last_addr := linker_maps_last_addr m |}.

Definition set_GUEST_LIBC_SIZE (v : Z) (m : linker_maps_addr_t)
  : linker_maps_addr_t :=
  {| prelinker_addr := prelinker_addr m;
     prelinker_size := prelinker_size m;
     host_linker_addr := host_linker_addr m;
     host_linker_size := host_linker_size m;
     guest_linker_addr := guest_linker_addr m;
     guest_linker_size := guest_linker_size m;
     guest_libc_addr := guest_libc_addr m;
     guest_libc_size := v;
     host_libs_addr := host_libs_addr m;
     host_libs_size := host_libs_size m;
     linker_maps_last_addr := linker_maps_last_addr m |}.

(** ** The seccomp filter program *)

Module Bpf.

(** [struct sock_filter]; [k] is a [__u32], [jt] and [jf] are [__u8]. *)
Record sock_filter : Type := mk_sock_filter {
  code : Z;
  jt : Z;
  jf : Z;
  k : Z
}.

(** linux/bpf_common.h, linux/seccomp.h. *)
Definition BPF_LD : Z := 0x00.
Definition BPF_RET : Z := 0x06.
Definition BPF_JMP : Z := 0x05.
Definition BPF_W : Z := 0x00.
Definition BPF_ABS : Z := 0x20.
Definition BPF_K : Z := 0x00.
Definition BPF_JEQ : Z := 0x10.
Definition BPF_JGT : Z := 0x20.
Definition BPF_JGE : Z := 0x30.

Definition SECCOMP_RET_TRAP : Z := 0x00030000.
Definition SECCOMP_RET_ALLOW : Z := 0x7fff0000.

Definition __AUDIT_ARCH_64BIT : Z := 0x80000000.
Definition __AUDIT_ARCH_LE : Z := 0x40000000.
Definition AUDIT_ARCH_AARCH64 : Z :=
  Z.lor (Z.lor EM_AARCH64 __AUDIT_ARCH_64BIT) __AUDIT_ARCH_LE.
Definition AUDIT_ARCH_ARM : Z := Z.lor EM_ARM __AUDIT_ARCH_LE.

Notation "a ||| c" := (Z.lor a c) (at level 50, left associativity).

Definition BPF_STMT (code k : Z) : sock_filter :=
  {| code := code mod 2 ^ 16; jt := 0; jf := 0; k := u32 k |}.

Definition BPF_JUMP (code k jt jf : Z) : sock_filter :=
  {| code := code mod 2 ^ 16; jt := jt mod 2 ^ 8; jf := jf mod 2 ^ 8;
     k := u32 k |}.

(** [struct seccomp_data]: [nr] at offset 0, [arch] at 4, the 64-bit
    [instruction_pointer] at 8 and the six 64-bit [args] from 16 on. *)
Record seccomp_data : Type := mk_seccomp_data {
  nr : Z;
  arch : Z;
  instruction_pointer : Z;
  args : list Z
}.

Definition offsetof_nr : Z := 0.
Definition offsetof_arch : Z := 4.
Definition offsetof_instruction_pointer : Z := 8.
Definition offsetof_args : Z := 16.

(** A 32-bit little-endian load at byte offset [off] of the data. *)
Definition load_word (d : seccomp_data) (off : Z) : option Z :=
  if off =? 0 then Some (u32 (nr d))
  else if off =? 4 then Some (u32 (arch d))
  else if off =? 8 then Some (u32 (instruction_pointer d))
  else if off =? 12 then Some (u32 (Z.shiftr (instruction_pointer d) 32))
  else if (16 <=? off) && (off <? 64) && (off mod 4 =? 0) then
    let a := nth (Z.to_nat ((off - 16) / 8)) (args d) 0 in
    Some (if (off - 16) mod 8 =? 0 then u32 a else u32 (Z.shiftr a 32))
  else None.

(** The classic BPF machine on the instructions the filter uses: one
    accumulator, forward jumps only.  [skip] counts the instructions still
    to be jumped over, so a jump by [n] from instruction [i] continues at
    [i + 1 + n].  Running off the end or meeting another opcode yields
    [None]. *)
Fixpoint run (prog : list sock_filter) (skip : nat) (A : Z)
             (d : seccomp_data) : option Z :=
  match prog with
  | [] => None
  | i :: rest =>
    match skip with
    | S n => run rest n A d
    | O =>
      if code i =? (BPF_LD ||| BPF_W ||| BPF_ABS) then
        match load_word d (k i) with
        | Some v => run rest 0%nat v d
        | None => None
        end
      else if code i =? (BPF_JMP ||| BPF_JEQ ||| BPF_K) then
        run rest (Z.to_nat (if A =? k i then jt i else jf i)) A d
      else if code i =? (BPF_JMP ||| BPF_JGT ||| BPF_K) then
        run rest (Z.to_nat (if A >? k i then jt i else jf i)) A d
      else if code i =? (BPF_JMP ||| BPF_JGE ||| BPF_K) then
        run rest (Z.to_nat (if A >=? k i then jt i else jf i)) A d
      else if code i =? (BPF_RET ||| BPF_K) then Some (k i)
      else None
    end
  end.

Definition evaluate (prog : list sock_filter) (d : seccomp_data)
  : option Z := run prog 0%nat 0 d.

(** The syscalls named by the filter.  Their numbers come from
    asm/unistd.h of the target, so the program is built over a table
    [NR : syscall -> Z]. *)
Inductive syscall : Type :=
| __NR_openat | __NR_readlinkat | __NR_faccessat | __NR_unlinkat
| __NR_connect | __NR_execve | __NR_inotify_add_watch | __NR_mkdirat
| __NR_getdents64 | __NR_ptrace | __NR_clock_settime | __NR_clock_gettime
| __NR_gettimeofday | __NR_settimeofday
| __NR_open | __NR_readlink | __NR_access | __NR_getuid32 | __NR_getgid32
| __NR_fstat | __NR_fstat64 | __NR_statfs64 | __NR_uname | __NR_ioprio_set
| __NR_sysinfo | __NR_socket | __NR_ioctl | __NR_prctl | __NR_geteuid32
| __NR_getegid32 | __NR_getresuid32 | __NR_getresgid32 | __NR_fstatat64
| __NR_newfstatat | __NR_getuid | __NR_getgid | __NR_geteuid
| __NR_getegid | __NR_getresuid | __NR_getresgid.

End Bpf.

Export Bpf.

Section Filter.

Variable NR : syscall -> Z.
Variable m : linker_maps_addr_t.

(** The array literal of [init_seccomp], one definition per conditional
    block.  Without [__LP64__]: *)
Definition filter_window_32 : list sock_filter :=
  [ BPF_STMT (BPF_LD ||| BPF_W ||| BPF_ABS) offsetof_arch;
    BPF_JUMP (BPF_JMP ||| BPF_JEQ ||| BPF_K) AUDIT_ARCH_ARM 1 0;
    BPF_STMT (BPF_RET ||| BPF_K) SECCOMP_RET_ALLOW;

    BPF_STMT (BPF_LD ||| BPF_W ||| BPF_ABS) offsetof_instruction_pointer;

    BPF_JUMP (BPF_JMP ||| BPF_JGE ||| BPF_K) 0x400000 1 0;
    BPF_STMT (BPF_RET ||| BPF_K) SECCOMP_RET_ALLOW;

    (* pass allowed address *)
    BPF_STMT (BPF_LD ||| BPF_W ||| BPF_ABS) offsetof_instruction_pointer;

    BPF_JUMP (BPF_JMP ||| BPF_JGE ||| BPF_K) (PRELINKER_ADDR m) 0 2;

    BPF_JUMP (BPF_JMP ||| BPF_JGE ||| BPF_K) (LINKER_MAPS_LAST_ADDR m) 1 0;
    BPF_STMT (BPF_RET ||| BPF_K) SECCOMP_RET_ALLOW ].

(** With [__LP64__]: *)
Definition filter_window_64 : list sock_filter :=
  [ BPF_STMT (BPF_LD ||| BPF_W ||| BPF_ABS) offsetof_arch;
    BPF_JUMP (BPF_JMP ||| BPF_JEQ ||| BPF_K) AUDIT_ARCH_AARCH64 1 0;
    BPF_STMT (BPF_RET ||| BPF_K) SECCOMP_RET_ALLOW;

    BPF_STMT (BPF_LD ||| BPF_W ||| BPF_ABS)
             (offsetof_instruction_pointer + 4);
    BPF_JUMP (BPF_JMP ||| BPF_JEQ ||| BPF_K) 0 0 3;

    BPF_STMT (BPF_LD ||| BPF_W ||| BPF_ABS) offsetof_instruction_pointer;

    BPF_JUMP (BPF_JMP ||| BPF_JGE ||| BPF_K) 0x500000 1 0;
    BPF_STMT (BPF_RET ||| BPF_K) SECCOMP_RET_ALLOW;

    (* compare linker_begin *)
    BPF_STMT (BPF_LD ||| BPF_W ||| BPF_ABS)
             (offsetof_instruction_pointer + 4);
    BPF_JUMP (BPF_JMP ||| BPF_JGT ||| BPF_K)
             (u32 (Z.shiftr (PRELINKER_ADDR m) 32)) 3 0;
    (* compare equ linker_begin *)
    BPF_JUMP (BPF_JMP ||| BPF_JGE ||| BPF_K)
             (u32 (Z.shiftr (PRELINKER_ADDR m) 32)) 0 8;
    (* compare linker_begin low 32bit *)
    BPF_STMT (BPF_LD ||| BPF_W ||| BPF_ABS) offsetof_instruction_pointer;
    BPF_JUMP (BPF_JMP ||| BPF_JGE ||| BPF_K)
             (u32 (Z.land (PRELINKER_ADDR m) 0xFFFFFFFF)) 0 6;
    (* compare linker_end *)
    BPF_STMT (BPF_LD ||| BPF_W ||| BPF_ABS)
             (offsetof_instruction_pointer + 4);
    BPF_JUMP (BPF_JMP ||| BPF_JGT ||| BPF_K)
             (u32 (Z.shiftr (LINKER_MAPS_LAST_ADDR m) 32)) 4 0;
    (* compare equ linker_end *)
    BPF_JUMP (BPF_JMP ||| BPF_JGE ||| BPF_K)
             (u32 (Z.shiftr (LINKER_MAPS_LAST_ADDR m) 32)) 0 3;
    (* compare linker_end low 32bit *)
    BPF_STMT (BPF_LD ||| BPF_W ||| BPF_ABS) offsetof_instruction_pointer;
    BPF_JUMP (BPF_JMP ||| BPF_JGE ||| BPF_K)
             (u32 (Z.land (LINKER_MAPS_LAST_ADDR m) 0xFFFFFFFF)) 1 0;

    BPF_STMT (BPF_RET ||| BPF_K) SECCOMP_RET_ALLOW ].

(** "block non-allowed syscall", the part shared by both builds. *)
Definition filter_syscalls : list sock_filter :=
  [ BPF_STMT (BPF_LD ||| BPF_W ||| BPF_ABS) offsetof_nr;

    BPF_JUMP (BPF_JMP ||| BPF_JEQ ||| BPF_K) (NR __NR_openat) 0 1;
    BPF_STMT (BPF_RET ||| BPF_K) SECCOMP_RET_TRAP;

    BPF_JUMP (BPF_JMP ||| BPF_JEQ ||| BPF_K) (NR __NR_readlinkat) 0 1;
    BPF_STMT (BPF_RET ||| BPF_K) SECCOMP_RET_TRAP;

    BPF_JUMP (BPF_JMP ||| BPF_JEQ ||| BPF_K) (NR __NR_faccessat) 0 1;
    BPF_STMT (BPF_RET ||| BPF_K) SECCOMP_RET_TRAP;

    BPF_JUMP (BPF_JMP ||| BPF_JEQ ||| BPF_K) (NR __NR_unlinkat) 0 1;
    BPF_STMT (BPF_RET ||| BPF_K) SECCOMP_RET_TRAP;

    BPF_JUMP (BPF_JMP ||| BPF_JEQ ||| BPF_K) (NR __NR_connect) 0 1;
    BPF_STMT (BPF_RET ||| BPF_K) SECCOMP_RET_TRAP;

    BPF_JUMP (BPF_JMP ||| BPF_JEQ ||| BPF_K) (NR __NR_execve) 0 1;
    BPF_STMT (BPF_RET ||| BPF_K) SECCOMP_RET_TRAP;

    BPF_JUMP (BPF_JMP ||| BPF_JEQ ||| BPF_K) (NR __NR_inotify_add_watch) 0 1;
    BPF_STMT (BPF_RET ||| BPF_K) SECCOMP_RET_TRAP;

    BPF_JUMP (BPF_JMP ||| BPF_JEQ ||| BPF_K) (NR __NR_mkdirat) 0 1;
    BPF_STMT (BPF_RET ||| BPF_K) SECCOMP_RET_TRAP;

    BPF_JUMP (BPF_JMP ||| BPF_JEQ ||| BPF_K) (NR __NR_getdents64) 0 1;
    BPF_STMT (BPF_RET ||| BPF_K) SECCOMP_RET_TRAP;

    BPF_JUMP (BPF_JMP ||| BPF_JEQ ||| BPF_K) (NR __NR_ptrace) 0 1;
    BPF_STMT (BPF_RET ||| BPF_K) SECCOMP_RET_TRAP;

    BPF_JUMP (BPF_JMP ||| BPF_JEQ ||| BPF_K) (NR __NR_clock_settime) 0 1;
    BPF_STMT (BPF_RET ||| BPF_K) SECCOMP_RET_TRAP;

    BPF_JUMP (BPF_JMP ||| BPF_JEQ ||| BPF_K) (NR __NR_clock_gettime) 0 1;
    BPF_STMT (BPF_RET ||| BPF_K) SECCOMP_RET_TRAP;

    BPF_JUMP (BPF_JMP ||| BPF_JEQ ||| BPF_K) (NR __NR_gettimeofday) 0 1;
    BPF_STMT (BPF_RET ||| BPF_K) SECCOMP_RET_TRAP;

    BPF_JUMP (BPF_JMP ||| BPF_JEQ ||| BPF_K) (NR __NR_settimeofday) 0 1;
    BPF_STMT (BPF_RET ||| BPF_K) SECCOMP_RET_TRAP ].

(** The 32-bit syscalls. *)
Definition filter_syscalls_32 : list sock_filter :=
  [ BPF_JUMP (BPF_JMP ||| BPF_JEQ ||| BPF_K) (NR __NR_open) 0 1;
    BPF_STMT (BPF_RET ||| BPF_K) SECCOMP_RET_TRAP;

    BPF_JUMP (BPF_JMP ||| BPF_JEQ ||| BPF_K) (NR __NR_readlink) 0 1;
    BPF_STMT (BPF_RET ||| BPF_K) SECCOMP_RET_TRAP;

    BPF_JUMP (BPF_JMP ||| BPF_JEQ ||| BPF_K) (NR __NR_access) 0 1;
    BPF_STMT (BPF_RET ||| BPF_K) SECCOMP_RET_TRAP;

    BPF_JUMP (BPF_JMP ||| BPF_JEQ ||| BPF_K) (NR __NR_getuid32) 0 1;
    BPF_STMT (BPF_RET ||| BPF_K) SECCOMP_RET_TRAP;

    BPF_JUMP (BPF_JMP ||| BPF_JEQ ||| BPF_K) (NR __NR_getgid32) 0 1;
    BPF_STMT (BPF_RET ||| BPF_K) SECCOMP_RET_TRAP;

    BPF_JUMP (BPF_JMP ||| BPF_JEQ ||| BPF_K) (NR __NR_fstat) 0 1;
    BPF_STMT (BPF_RET ||| BPF_K) SECCOMP_RET_TRAP;

    BPF_JUMP (BPF_JMP ||| BPF_JEQ ||| BPF_K) (NR __NR_fstat64) 0 1;
    BPF_STMT (BPF_RET ||| BPF_K) SECCOMP_RET_TRAP;

    BPF_JUMP (BPF_JMP ||| BPF_JEQ ||| BPF_K) (NR __NR_statfs64) 0 1;
    BPF_STMT (BPF_RET ||| BPF_K) SECCOMP_RET_TRAP;

    BPF_JUMP (BPF_JMP ||| BPF_JEQ ||| BPF_K) (NR __NR_uname) 0 1;
    BPF_STMT (BPF_RET ||| BPF_K) SECCOMP_RET_TRAP;

    BPF_JUMP (BPF_JMP ||| BPF_JEQ ||| BPF_K) (NR __NR_ioprio_set) 0 1;
    BPF_STMT (BPF_RET ||| BPF_K) SECCOMP_RET_TRAP;

    BPF_JUMP (BPF_JMP ||| BPF_JEQ ||| BPF_K) (NR __NR_sysinfo) 0 1;
    BPF_STMT (BPF_RET ||| BPF_K) SECCOMP_RET_TRAP;

    BPF_JUMP (BPF_JMP ||| BPF_JEQ ||| BPF_K) (NR __NR_socket) 0 1;
    BPF_STMT (BPF_RET ||| BPF_K) SECCOMP_RET_TRAP;

    BPF_JUMP (BPF_JMP ||| BPF_JEQ ||| BPF_K) (NR __NR_ioctl) 0 1;
    BPF_STMT (BPF_RET ||| BPF_K) SECCOMP_RET_TRAP;

    BPF_JUMP (BPF_JMP ||| BPF_JEQ ||| BPF_K) (NR __NR_prctl) 0 1;
    BPF_STMT (BPF_RET ||| BPF_K) SECCOMP_RET_TRAP;

    BPF_JUMP (BPF_JMP ||| BPF_JEQ ||| BPF_K) (NR __NR_getuid32) 0 1;
    BPF_STMT (BPF_RET ||| BPF_K) SECCOMP_RET_TRAP;

    BPF_JUMP (BPF_JMP ||| BPF_JEQ ||| BPF_K) (NR __NR_getgid32) 0 1;
    BPF_STMT (BPF_RET ||| BPF_K) SECCOMP_RET_TRAP;

    BPF_JUMP (BPF_JMP ||| BPF_JEQ ||| BPF_K) (NR __NR_geteuid32) 0 1;
    BPF_STMT (BPF_RET ||| BPF_K) SECCOMP_RET_TRAP;

    BPF_JUMP (BPF_JMP ||| BPF_JEQ ||| BPF_K) (NR __NR_getegid32) 0 1;
    BPF_STMT (BPF_RET ||| BPF_K) SECCOMP_RET_TRAP;

    BPF_JUMP (BPF_JMP ||| BPF_JEQ ||| BPF_K) (NR __NR_getresuid32) 0 1;
    BPF_STMT (BPF_RET ||| BPF_K) SECCOMP_RET_TRAP;

    BPF_JUMP (BPF_JMP ||| BPF_JEQ ||| BPF_K) (NR __NR_getresgid32) 0 1;
    BPF_STMT (BPF_RET ||| BPF_K) SECCOMP_RET_TRAP;

    BPF_JUMP (BPF_JMP ||| BPF_JEQ ||| BPF_K) (NR __NR_inotify_add_watch) 0 1;
    BPF_STMT (BPF_RET ||| BPF_K) SECCOMP_RET_TRAP;

    BPF_JUMP (BPF_JMP ||| BPF_JEQ ||| BPF_K) (NR __NR_fstatat64) 0 1;
    BPF_STMT (BPF_RET ||| BPF_K) SECCOMP_RET_TRAP ].

(** The 64-bit syscalls. *)
Definition filter_syscalls_64 : list sock_filter :=
  [ BPF_JUMP (BPF_JMP ||| BPF_JEQ ||| BPF_K) (NR __NR_newfstatat) 0 1;
    BPF_STMT (BPF_RET ||| BPF_K) SECCOMP_RET_TRAP;

    BPF_JUMP (BPF_JMP ||| BPF_JEQ ||| BPF_K) (NR __NR_getuid) 0 1;
    BPF_STMT (BPF_RET ||| BPF_K) SECCOMP_RET_TRAP;

    BPF_JUMP (BPF_JMP ||| BPF_JEQ ||| BPF_K) (NR __NR_getgid) 0 1;
    BPF_STMT (BPF_RET ||| BPF_K) SECCOMP_RET_TRAP;

    BPF_JUMP (BPF_JMP ||| BPF_JEQ ||| BPF_K) (NR __NR_geteuid) 0 1;
    BPF_STMT (BPF_RET ||| BPF_K) SECCOMP_RET_TRAP;

    BPF_JUMP (BPF_JMP ||| BPF_JEQ ||| BPF_K) (NR __NR_getegid) 0 1;
    BPF_STMT (BPF_RET ||| BPF_K) SECCOMP_RET_TRAP;

    BPF_JUMP (BPF_JMP ||| BPF_JEQ ||| BPF_K) (NR __NR_getresuid) 0 1;
    BPF_STMT (BPF_RET ||| BPF_K) SECCOMP_RET_TRAP;

    BPF_JUMP (BPF_JMP ||| BPF_JEQ ||| BPF_K) (NR __NR_getresgid) 0 1;
    BPF_STMT (BPF_RET ||| BPF_K) SECCOMP_RET_TRAP ].

Definition filter (b : abi) : list sock_filter :=
  (match b with ILP32 => filter_window_32 | LP64 => filter_window_64 end)
  ++ filter_syscalls
  ++ (match b with ILP32 => filter_syscalls_32 | LP64 => filter_syscalls_64 end)
  ++ [ BPF_STMT (BPF_RET ||| BPF_K) SECCOMP_RET_ALLOW ].

End Filter.

(** The vocabulary of the decision policy (section 4.5). *)
Definition AUDIT_ARCH (b : abi) : Z :=
  match b with ILP32 => AUDIT_ARCH_ARM | LP64 => AUDIT_ARCH_AARCH64 end.

Definition low_address_threshold (b : abi) : Z :=
  match b with ILP32 => 0x400000 | LP64 => 0x500000 end.

Definition denylist_common : list syscall :=
  [ __NR_openat; __NR_readlinkat; __NR_faccessat; __NR_unlinkat;
    __NR_connect; __NR_execve; __NR_inotify_add_watch; __NR_mkdirat;
    __NR_getdents64; __NR_ptrace; __NR_clock_settime; __NR_clock_gettime;
    __NR_gettimeofday; __NR_settimeofday ].

Definition denylist_arch (b : abi) : list syscall :=
  match b with
  | ILP32 =>
    [ __NR_open; __NR_readlink; __NR_access; __NR_getuid32; __NR_getgid32;
      __NR_fstat; __NR_fstat64; __NR_statfs64; __NR_uname; __NR_ioprio_set;
      __NR_sysinfo; __NR_socket; __NR_ioctl; __NR_prctl; __NR_getuid32;
      __NR_getgid32; __NR_geteuid32; __NR_getegid32; __NR_getresuid32;
      __NR_getresgid32; __NR_inotify_add_watch; __NR_fstatat64 ]
  | LP64 =>
    [ __NR_newfstatat; __NR_getuid; __NR_getgid; __NR_geteuid; __NR_getegid;
      __NR_getresuid; __NR_getresgid ]
  end.

Definition denylist (b : abi) : list syscall :=
  denylist_common ++ denylist_arch b.

(** The syscall number the kernel reports is on the denylist. *)
Definition denylisted (NR : syscall -> Z) (b : abi) (n : Z) : Prop :=
  exists s, In s (denylist b) /\ u32 n = u32 (NR s).

(** The protected window, compared directly on the full pointer. *)
Definition in_window (m : linker_maps_addr_t) (ip : Z) : Prop :=
  PRELINKER_ADDR m <= ip < LINKER_MAPS_LAST_ADDR m.

Definition in_window_dec (m : linker_maps_addr_t) (ip : Z) : bool :=
  (PRELINKER_ADDR m <=? ip) && (ip <? LINKER_MAPS_LAST_ADDR m).

(** The range test of the filter in isolation: the instructions from
    "compare linker_begin" (resp. "pass allowed address") to the
    [SECCOMP_RET_ALLOW] that ends the block, followed by a marker return
    that stands for "next filter".  [true] when the block allows. *)
Definition window_block (b : abi) (m : linker_maps_addr_t)
  : list sock_filter :=
  match b with
  | ILP32 => skipn 6 (filter_window_32 m)
  | LP64 => skipn 8 (filter_window_64 m)
  end.

Definition filter_classifies_inside (b : abi) (m : linker_maps_addr_t)
                                    (ip : Z) : bool :=
  match evaluate (window_block b m
                  ++ [BPF_STMT (BPF_RET ||| BPF_K) SECCOMP_RET_TRAP])
                 {| nr := 0; arch := AUDIT_ARCH b;
                    instruction_pointer := ip; args := [] |} with
  | Some r => r =? SECCOMP_RET_ALLOW
  | None => false
  end.

(** Syscall numbers of the two targets (asm/unistd.h of ARM EABI and of
    AArch64); entries a target does not have are given [-1]. *)
Definition NR_arm (s : syscall) : Z :=
  match s with
  | __NR_openat => 322 | __NR_readlinkat => 332 | __NR_faccessat => 334
  | __NR_unlinkat => 328 | __NR_connect => 283 | __NR_execve => 11
  | __NR_inotify_add_watch => 317 | __NR_mkdirat => 323
  | __NR_getdents64 => 217 | __NR_ptrace => 26 | __NR_clock_settime => 262
  | __NR_clock_gettime => 263 | __NR_gettimeofday => 78
  | __NR_settimeofday => 79 | __NR_open => 5 | __NR_readlink => 85
  | __NR_access => 33 | __NR_getuid32 => 199 | __NR_getgid32 => 200
  | __NR_fstat => 108 | __NR_fstat64 => 197 | __NR_statfs64 => 266
  | __NR_uname => 122 | __NR_ioprio_set => 314 | __NR_sysinfo => 116
  | __NR_socket => 281 | __NR_ioctl => 54 | __NR_prctl => 172
  | __NR_geteuid32 => 201 | __NR_getegid32 => 202 | __NR_getresuid32 => 209
  | __NR_getresgid32 => 211 | __NR_fstatat64 => 327
  | _ => -1
  end.

Definition NR_arm64 (s : syscall) : Z :=
  match s with
  | __NR_openat => 56 | __NR_readlinkat => 78 | __NR_faccessat => 48
  | __NR_unlinkat => 35 | __NR_connect => 203 | __NR_execve => 221
  | __NR_inotify_add_watch => 27 | __NR_mkdirat => 34
  | __NR_getdents64 => 61 | __NR_ptrace => 117 | __NR_clock_settime => 112
  | __NR_clock_gettime => 113 | __NR_gettimeofday => 169
  | __NR_settimeofday => 170 | __NR_newfstatat => 79 | __NR_getuid => 174
  | __NR_getgid => 176 | __NR_geteuid => 175 | __NR_getegid => 177
  | __NR_getresuid => 148 | __NR_getresgid => 150
  | _ => -1
  end.

(** [__NR_mmap2] on ARM EABI, a syscall the filter does not name. *)
Definition NR_arm_mmap2 : Z := 192.

(** ** The environment of the loader *)

(** What the loader asks of the kernel, in call order. *)
Inductive event : Type :=
| call_pread64 (fd count offset rc : Z)
| call_mmap (addr length prot flags fd offset : Z) (result : option Z)
| call_munmap (addr length : Z)
| call_mprotect (addr length prot ret : Z)
| call_memset (addr length : Z)
| call_write (fd addr size written : Z)
| call_fstat (fd : Z) (st_size : option Z)
| call_prctl_seccomp (prog : list sock_filter) (ret : Z)
| call_libc_fatal_no_abort (errno : Z)
| call_fragment_Map (fd base_offset elf_offset size : Z) (data : option Z).

(** The answers of the kernel, the contents of the files behind the
    descriptors and [MappedFileFragment::Map] (linker_mapped_file_fragment,
    not in this file) are parameters of the model. *)
Record kernel : Type := mk_kernel {
  sys_pread64_header : Z -> Z -> Z * Ehdr;
  sys_mmap : Z -> Z -> Z -> Z -> Z -> Z -> option Z;
  sys_mprotect : Z -> Z -> Z -> Z;
  sys_write : Z -> Z -> Z -> Z;
  sys_fstat : Z -> option Z;
  sys_prctl_seccomp : list sock_filter -> Z;
  sys_errno : Z;
  file_byte : Z -> Z -> Z;
  file_phdrs : Z -> Z -> Z -> list Phdr;
  file_shdrs : Z -> Z -> Z -> list Shdr;
  fragment_Map : Z -> Z -> Z -> Z -> option Z
}.

(** Byte-addressed process memory. *)
Definition memory : Type := Z -> Z.

Definition in_range (addr len a : Z) : bool :=
  (addr <=? a) && (a <? addr + len).

Definition pages_len (len : Z) : Z :=
  PAGE_SIZE * ((len + PAGE_SIZE - 1) / PAGE_SIZE).

(** A successful file mapping shows the bytes of the file, whole pages at
    a time; an anonymous one shows zeroes. *)
Definition mem_map_file (K : kernel) (fd off addr len : Z) (mem : memory)
  : memory :=
  fun a => if in_range addr (pages_len len) a
           then file_byte K fd (off + (a - addr)) else mem a.

Definition mem_map_anon (addr len : Z) (mem : memory) : memory :=
  fun a => if in_range addr (pages_len len) a then 0 else mem a.

Definition mem_set_zero (addr len : Z) (mem : memory) : memory :=
  fun a => if in_range addr len a then 0 else mem a.

(** Little-endian read of [n] bytes. *)
Fixpoint read_le (mem : memory) (addr : Z) (n : nat) : Z :=
  match n with
  | O => 0
  | S n' => mem addr + 256 * read_le mem (addr + 1) n'
  end.

(** *** The layout record in memory

    The macros [PRELINKER_ADDR] ... [LINKER_MAPS_LAST_ADDR] dereference
    [reinterpret_cast<linker_maps_addr_t*>(LINKER_MAPS_ADDR)]: the record is
    eleven [uintptr_t] words of process memory, so whatever writes that
    memory writes the record, and an assignment to a macro writes memory. *)

Definition sizeof_uintptr (b : abi) : Z := bits b / 8.

(** Little-endian load and store of a [uintptr_t]. *)
Definition load_uintptr (b : abi) (mem : memory) (addr : Z) : Z :=
  read_le (fun a => mem a mod 256) addr (Z.to_nat (sizeof_uintptr b)).

Definition store_uintptr (b : abi) (addr v : Z) (mem : memory) : memory :=
  fun a => if in_range addr (sizeof_uintptr b) a
           then (v / 256 ^ (a - addr)) mod 256 else mem a.

(** The address of the [i]-th member of the record. *)
Definition member_addr (b : abi) (i : Z) : Z :=
  LINKER_MAPS_ADDR b + i * sizeof_uintptr b.

Definition sizeof_linker_maps (b : abi) : Z := 11 * sizeof_uintptr b.

(** [*reinterpret_cast<linker_maps_addr_t*>(LINKER_MAPS_ADDR)]. *)
Definition linker_maps (b : abi) (mem : memory) : linker_maps_addr_t :=
  let member i := load_uintptr b mem (member_addr b i) in
  {| prelinker_addr := member 0;
     prelinker_size := member 1;
     host_linker_addr := member 2;
     host_linker_size := member 3;
     guest_linker_addr := member 4;
     guest_linker_size := member 5;
     guest_libc_addr := member 6;
     guest_libc_size := member 7;
     host_libs_addr := member 8;
     host_libs_size := member 9;
     linker_maps_last_addr := member 10 |}.

(** [GUEST_LIBC_ADDR = v] and [GUEST_LIBC_SIZE = v]. *)
Definition write_GUEST_LIBC_ADDR (b : abi) (v : Z) (mem : memory) : memory :=
  store_uintptr b (member_addr b 6) v mem.

Definition write_GUEST_LIBC_SIZE (b : abi) (v : Z) (mem : memory) : memory :=
  store_uintptr b (member_addr b 7) v mem.

(** Memory in which the record holds [m]. *)
Definition store_linker_maps (b : abi) (m : linker_maps_addr_t)
                             (mem : memory) : memory :=
  let put i v mm := store_uintptr b (member_addr b i) v mm in
  put 0 (prelinker_addr m)
  (put 1 (prelinker_size m)
  (put 2 (host_linker_addr m)
  (put 3 (host_linker_size m)
  (put 4 (guest_linker_addr m)
  (put 5 (guest_linker_size m)
  (put 6 (guest_libc_addr m)
  (put 7 (guest_libc_size m)
  (put 8 (host_libs_addr m)
  (put 9 (host_libs_size m)
  (put 10 (linker_maps_last_addr m) mem)))))))))).

(** [ehdr->e_phoff] of an ELF header lying in memory at [addr]. *)
Definition mem_e_phoff (b : abi) (mem : memory) (addr : Z) : Z :=
  match b with
  | ILP32 => read_le mem (addr + 28) 4
  | LP64 => read_le mem (addr + 32) 8
  end.

(** [memcmp(a, file + off, PAGE_SIZE) == 0] against the mapped file. *)
Definition page_matches (K : kernel) (fd : Z) (mem : memory)
                        (a off : Z) : bool :=
  forallb (fun i => mem (a + Z.of_nat i) =? file_byte K fd (off + Z.of_nat i))
          (seq 0 (Z.to_nat PAGE_SIZE)).

(** The diagnostics: one constructor per failure site, carrying what the
    [DL_ERR] message prints (sites whose message is commented out
    included). *)
Inductive dl_error : Type :=
| err_cant_read_file
| err_too_small (rc : Z)
| err_bad_magic
| err_32_instead_of_64
| err_64_instead_of_32
| err_unknown_class (elf_class : Z)
| err_not_little_endian (data : Z)
| err_unexpected_e_type (ty : Z)
| err_unexpected_e_version (v : Z)
| err_unexpected_e_machine (mach : Z)
| err_invalid_e_phnum (n : Z)
| err_phdr_mmap_failed
| err_no_section_headers
| err_shdr_mmap_failed
| err_no_dynamic_section
| err_invalid_sh_link (link : Z)
| err_link_not_strtab (link ty : Z)
| err_dynamic_mmap_failed
| err_strtab_mmap_failed
| err_no_loadable_segments
| err_reserved_too_small (reported needed : Z)
| err_couldnt_reserve (bytes : Z)
| err_couldnt_map_segment (i : Z)
| err_couldnt_zero_fill
| err_cant_find_loaded_phdr
| err_phdr_not_in_loadable_segment (loaded : Z).

(** The error classes of section 7 of the specification, by failure
    site. *)
Inductive error_class : Type :=
| IoError | FormatError | AddressSpaceError | IntegrityError.

Definition classify (e : dl_error) : error_class :=
  match e with
  | err_cant_read_file | err_too_small _ => IoError
  | err_reserved_too_small _ _ | err_couldnt_reserve _ => AddressSpaceError
  | err_phdr_not_in_loadable_segment _ => IntegrityError
  | _ => FormatError
  end.

(** A [bool] result together with the diagnostic of a [false]. *)
Inductive outcome : Type :=
| Done
| Failed (e : dl_error).

(** The result of a function guarded by [CHECK]. *)
Inductive checked (A : Type) : Type :=
| Returned (a : A)
| Aborted.
Arguments Returned {A} a.
Arguments Aborted {A}.

(** [android_dlextinfo] (android/dlext.h). *)
Record android_dlextinfo : Type := mk_dlextinfo {
  flags : Z;
  reserved_addr : Z;
  reserved_size : Z
}.

Definition ANDROID_DLEXT_RESERVED_ADDRESS : Z := 1.
Definition ANDROID_DLEXT_RESERVED_ADDRESS_HINT : Z := 2.

(** ** ElfReader *)

Record ElfReader : Type := mk_ElfReader {
  name_ : string;
  fd_ : Z;
  file_offset_ : Z;
  file_size_ : Z;
  header_ : Ehdr;
  phdr_num_ : Z;
  phdr_mmap_ : Z;
  phdr_table_ : list Phdr;
  phdr_size_ : Z;
  shdr_table_ : list Shdr;
  shdr_num_ : Z;
  dynamic_ : Z;
  strtab_ : Z;
  strtab_size_ : Z;
  load_start_ : Z;
  load_size_ : Z;
  load_bias_ : Z;
  loaded_phdr_ : Z
}.

Definition nullptr : Z := 0.

Definition empty_Ehdr : Ehdr := mkEhdr [] 0 0 0 0 0 0 0 0 0.

(** The constructor. *)
Definition ElfReader_new (name : string) (fd file_offset : Z) : ElfReader :=
  {| name_ := name; fd_ := fd; file_offset_ := file_offset; file_size_ := 0;
     header_ := empty_Ehdr;
     phdr_num_ := 0; phdr_mmap_ := nullptr; phdr_table_ := [];
     phdr_size_ := 0; shdr_table_ := []; shdr_num_ := 0;
     dynamic_ := nullptr; strtab_ := nullptr; strtab_size_ := 0;
     load_start_ := nullptr; load_size_ := 0; load_bias_ := 0;
     loaded_phdr_ := nullptr |}.

(** [strstr(haystack, needle) != 0]. *)
Fixpoint strstr (haystack needle : string) : bool :=
  String.prefix needle haystack ||
  match haystack with
  | EmptyString => false
  | String _ rest => strstr rest needle
  end.

(** *** get_string *)

Definition get_string (r : ElfReader) (index : Z) : checked Z :=
  if strtab_ r =? nullptr then Aborted
  else if negb (index <? strtab_size_ r) then Aborted
  else Returned (strtab_ r + index).

(** *** safe_add, CheckFileRange *)

Definition INT64_MAX : Z := 2 ^ 63 - 1.

(** [None] is [false]; the [CHECK(a >= 0)] abort is the outer layer. *)
Definition safe_add (a b : Z) : checked (option Z) :=
  if negb (a >=? 0) then Aborted
  else if (INT64_MAX - a) mod 2 ^ 64 <? b then Returned None
  else Returned (Some (a + b)).

(** [offset % alignment] divides by zero when [alignment] is 0, which C
    leaves undefined: the definition stands for the calls with a non-zero
    alignment only.  The call sites, all commented out in this file, pass
    the [alignof] of a header type or of [char]. *)
Definition CheckFileRange (r : ElfReader) (offset size alignment : Z)
  : checked bool :=
  match safe_add (file_offset_ r) offset with
  | Aborted => Aborted
  | Returned None => Returned false
  | Returned (Some range_start) =>
    match safe_add range_start size with
    | Aborted => Aborted
    | Returned None => Returned false
    | Returned (Some range_end) =>
      Returned ((range_start <? file_size_ r) &&
                (range_end <=? file_size_ r) &&
                (offset mod alignment =? 0))
    end
  end.

(** The state outside the reader: the memory of the process, the shared
    layout record within it, and the calls made so far (oldest first). *)
Record process : Type := mk_process {
  mem : memory;
  log : list event
}.

(** The shared layout record of the process, read from its memory. *)
Definition maps (b : abi) (p : process) : linker_maps_addr_t :=
  linker_maps b (mem p).

Definition emit (evs : list event) (p : process) : process :=
  {| mem := mem p; log := log p ++ evs |}.

Definition with_mem (mm : memory) (p : process) : process :=
  {| mem := mm; log := log p |}.

Definition method : Type := ElfReader -> process -> outcome * ElfReader * process.

(** [f() && g()]. *)
Definition and_then (f g : method) : method :=
  fun r p =>
    match f r p with
    | (Done, r', p') => g r' p'
    | (Failed e, r', p') => (Failed e, r', p')
    end.

Section Loader.

Variable b : abi.
Variable K : kernel.
Variable NR : syscall -> Z.

(** *** ReadElfHeader, VerifyElfHeader, ReadProgramHeader *)

Definition ReadElfHeader : method := fun r p =>
  let '(rc, h) := sys_pread64_header K (fd_ r) (file_offset_ r) in
  let r' := {| name_ := name_ r; fd_ := fd_ r; file_offset_ := file_offset_ r;
               file_size_ := file_size_ r; header_ := h;
               phdr_num_ := phdr_num_ r; phdr_mmap_ := phdr_mmap_ r;
               phdr_table_ := phdr_table_ r; phdr_size_ := phdr_size_ r;
               shdr_table_ := shdr_table_ r; shdr_num_ := shdr_num_ r;
               dynamic_ := dynamic_ r; strtab_ := strtab_ r;
               strtab_size_ := strtab_size_ r; load_start_ := load_start_ r;
               load_size_ := load_size_ r; load_bias_ := load_bias_ r;
               loaded_phdr_ := loaded_phdr_ r |} in
  let p' := emit [call_pread64 (fd_ r) (sizeof_Ehdr b) (file_offset_ r) rc] p in
  if rc <? 0 then (Failed err_cant_read_file, r', p')
  else if negb (rc =? sizeof_Ehdr b) then (Failed (err_too_small rc), r', p')
  else (Done, r', p').

Definition VerifyElfHeader : method := fun r p =>
  let h := header_ r in
  let fail e := (Failed e, r, p) in
  if negb (if list_eq_dec Z.eq_dec (e_ident_mag h) ELFMAG then true else false)
  then fail err_bad_magic
  else
    let elf_class := e_ident_class h in
    let class_ok :=
      match b with
      | LP64 => elf_class =? ELFCLASS64
      | ILP32 => elf_class =? ELFCLASS32
      end in
    if negb class_ok then
      match b with
      | LP64 => if elf_class =? ELFCLASS32 then fail err_32_instead_of_64
                else fail (err_unknown_class elf_class)
      | ILP32 => if elf_class =? ELFCLASS64 then fail err_64_instead_of_32
                 else fail (err_unknown_class elf_class)
      end
    else if negb (e_ident_data h =? ELFDATA2LSB)
    then fail (err_not_little_endian (e_ident_data h))
    else if negb (e_type h =? ET_DYN)
    then fail (err_unexpected_e_type (e_type h))
    else if negb (e_version h =? EV_CURRENT)
    then fail (err_unexpected_e_version (e_version h))
    else if negb (e_machine h =? ELF_TARG_MACH b)
    then fail (err_unexpected_e_machine (e_machine h))
    else (Done, r, p).

Definition ReadProgramHeader : method := fun r p =>
  let h := header_ r in
  let phdr_num := e_phnum h in
  let upd (num mm : Z) (tbl : list Phdr) (size : Z) :=
    {| name_ := name_ r; fd_ := fd_ r; file_offset_ := file_offset_ r;
       file_size_ := file_size_ r; header_ := header_ r;
       phdr_num_ := num; phdr_mmap_ := mm;
       phdr_table_ := tbl; phdr_size_ := size;
       shdr_table_ := shdr_table_ r; shdr_num_ := shdr_num_ r;
       dynamic_ := dynamic_ r; strtab_ := strtab_ r;
       strtab_size_ := strtab_size_ r; load_start_ := load_start_ r;
       load_size_ := load_size_ r; load_bias_ := load_bias_ r;
       loaded_phdr_ := loaded_phdr_ r |} in
  if (phdr_num <? 1) || (phdr_num >? 65536 / sizeof_Phdr b) then
    (Failed (err_invalid_e_phnum phdr_num),
     upd phdr_num (phdr_mmap_ r) (phdr_table_ r) (phdr_size_ r), p)
  else
    let page_min := PAGE_START b (e_phoff h) in
    let page_max :=
      PAGE_END b (wrap b (e_phoff h + wrap b (phdr_num * sizeof_Phdr b))) in
    let phdr_size := wrap b (page_max - page_min) in
    let off := file_offset_ r + page_min in
    let res := sys_mmap K nullptr phdr_size PROT_READ MAP_PRIVATE (fd_ r) off in
    let p' := emit [call_mmap nullptr phdr_size PROT_READ MAP_PRIVATE
                              (fd_ r) off res] p in
    match res with
    | None =>
      (Failed err_phdr_mmap_failed,
       upd phdr_num (phdr_mmap_ r) (phdr_table_ r) phdr_size, p')
    | Some mmap_result =>
      (Done,
       upd phdr_num mmap_result
           (file_phdrs K (fd_ r) (file_offset_ r + e_phoff h) phdr_num)
           phdr_size, p')
    end.

(** *** ReadSectionHeaders, ReadDynamicSection *)

Definition set_sections (r : ElfReader) (tbl : list Shdr) (num dyn st stsz : Z)
  : ElfReader :=
  {| name_ := name_ r; fd_ := fd_ r; file_offset_ := file_offset_ r;
     file_size_ := file_size_ r; header_ := header_ r;
     phdr_num_ := phdr_num_ r; phdr_mmap_ := phdr_mmap_ r;
     phdr_table_ := phdr_table_ r; phdr_size_ := phdr_size_ r;
     shdr_table_ := tbl; shdr_num_ := num;
     dynamic_ := dyn; strtab_ := st; strtab_size_ := stsz;
     load_start_ := load_start_ r; load_size_ := load_size_ r;
     load_bias_ := load_bias_ r; loaded_phdr_ := loaded_phdr_ r |}.


(** The entries [shdr_table_[0 .. shdr_num_ - 1]]. *)
Definition shdr_entries (r : ElfReader) : list Shdr :=
  firstn (Z.to_nat (shdr_num_ r)) (shdr_table_ r).

Definition is_dynamic_shdr (s : Shdr) : bool := sh_type s =? SHT_DYNAMIC.

Definition null_Shdr : Shdr := mkShdr 0 0 0 0.

Definition ReadDynamicSection : method := fun r p =>
  (* 1. Find .dynamic section (in section headers) *)
  match find is_dynamic_shdr (shdr_entries r) with
  | None => (Failed err_no_dynamic_section, r, p)
  | Some dynamic_shdr =>
    if sh_link dynamic_shdr >=? shdr_num_ r
    then (Failed (err_invalid_sh_link (sh_link dynamic_shdr)), r, p)
    else
      let strtab_shdr :=
        nth (Z.to_nat (sh_link dynamic_shdr)) (shdr_table_ r) null_Shdr in
      if negb (sh_type strtab_shdr =? SHT_STRTAB)
      then (Failed (err_link_not_strtab (sh_link dynamic_shdr)
                                        (sh_type strtab_shdr)), r, p)
      else
        let res1 := fragment_Map K (fd_ r) (file_offset_ r)
                      (sh_offset dynamic_shdr) (sh_size dynamic_shdr) in
        let p1 := emit [call_fragment_Map (fd_ r) (file_offset_ r)
                          (sh_offset dynamic_shdr) (sh_size dynamic_shdr)
                          res1] p in
        match res1 with
        | None => (Failed err_dynamic_mmap_failed, r, p1)
        | Some dyn =>
          let r1 := set_sections r (shdr_table_ r) (shdr_num_ r) dyn
                                 (strtab_ r) (strtab_size_ r) in
          let res2 := fragment_Map K (fd_ r) (file_offset_ r)
                        (sh_offset strtab_shdr) (sh_size strtab_shdr) in
          let p2 := emit [call_fragment_Map (fd_ r) (file_offset_ r)
                            (sh_offset strtab_shdr) (sh_size strtab_shdr)
                            res2] p1 in
          match res2 with
          | None => (Failed err_strtab_mmap_failed, r1, p2)
          | Some st =>
            (Done,
             set_sections r (shdr_table_ r) (shdr_num_ r) dyn st
                          (sh_size strtab_shdr), p2)
          end
        end
  end.


End Loader.

Section Reserve.

Variable b : abi.
Variable K : kernel.
Variable NR : syscall -> Z.

(** *** init_seccomp *)

Definition init_seccomp (p : process) : process :=
  let prog := filter NR (maps b p) b in
  let ret := sys_prctl_seccomp K prog in
  if ret =? 0 then emit [call_prctl_seccomp prog ret] p
  else emit [call_prctl_seccomp prog ret;
             call_libc_fatal_no_abort (sys_errno K)] p.

(** *** ReserveAddressSpace *)

(** The entries [phdr_table_[0 .. phdr_num_ - 1]]. *)
Definition phdr_entries (r : ElfReader) : list Phdr :=
  firstn (Z.to_nat (phdr_num_ r)) (phdr_table_ r).

Definition set_load (r : ElfReader) (start size bias loaded : Z) : ElfReader :=
  {| name_ := name_ r; fd_ := fd_ r; file_offset_ := file_offset_ r;
     file_size_ := file_size_ r; header_ := header_ r;
     phdr_num_ := phdr_num_ r; phdr_mmap_ := phdr_mmap_ r;
     phdr_table_ := phdr_table_ r; phdr_size_ := phdr_size_ r;
     shdr_table_ := shdr_table_ r; shdr_num_ := shdr_num_ r;
     dynamic_ := dynamic_ r; strtab_ := strtab_ r;
     strtab_size_ := strtab_size_ r;
     load_start_ := start; load_size_ := size; load_bias_ := bias;
     loaded_phdr_ := loaded |}.

Definition has_flag (x flag : Z) : bool := negb (Z.land x flag =? 0).

(** The locals [(reserved_size, reserved_hint)] after the inspection of
    [extinfo]. *)
Definition reservation_of (extinfo : option android_dlextinfo) : Z * bool :=
  match extinfo with
  | None => (0, true)
  | Some e =>
    if has_flag (flags e) ANDROID_DLEXT_RESERVED_ADDRESS
    then (reserved_size e, false)
    else if has_flag (flags e) ANDROID_DLEXT_RESERVED_ADDRESS_HINT
    then (reserved_size e, true)
    else (0, true)
  end.

Definition ReserveAddressSpace (extinfo : option android_dlextinfo)
  : method := fun r p =>
  let '(load_size, min_vaddr, _) :=
    phdr_table_get_load_size b (phdr_entries r) in
  let r0 := set_load r (load_start_ r) load_size (load_bias_ r)
                     (loaded_phdr_ r) in
  if load_size =? 0 then (Failed err_no_loadable_segments, r0, p)
  else
    let addr := min_vaddr in
    let '(reserved_size, reserved_hint) := reservation_of extinfo in
    if load_size >? reserved_size then
      if negb reserved_hint then
        (Failed (err_reserved_too_small
                   (to_signed b (reserved_size - load_size))
                   (to_signed b load_size)),
         r0, p)
      else
        let mmap_flags := Z.lor MAP_PRIVATE MAP_ANONYMOUS in
        let isGuestLibc := (addr =? nullptr) && strstr (name_ r) "libc.so" in
        let map_addr := if isGuestLibc then GUEST_LIBC_ADDR (maps b p)
                        else addr in
        let res := sys_mmap K map_addr load_size PROT_NONE mmap_flags (-1) 0 in
        let p1 := emit [call_mmap map_addr load_size PROT_NONE mmap_flags
                                  (-1) 0 res] p in
        match res with
        | None =>
          (Failed (err_couldnt_reserve (to_signed b load_size)), r0, p1)
        | Some start =>
          let p2 :=
            if isGuestLibc then
              init_seccomp
                (with_mem (write_GUEST_LIBC_SIZE b load_size
                             (write_GUEST_LIBC_ADDR b map_addr (mem p1))) p1)
            else p1 in
          (Done,
           set_load r start load_size (wrap b (start - addr))
                    (loaded_phdr_ r), p2)
        end
    else
      let start := match extinfo with
                   | Some e => reserved_addr e
                   | None => nullptr
                   end in
      (Done,
       set_load r start load_size (wrap b (start - addr)) (loaded_phdr_ r), p).

(** *** LoadSegments *)

(** The body of the loop for entry [i]; [None] is "continue". *)
Definition load_segment (r : ElfReader) (i : Z) (phdr : Phdr) (p : process)
  : option dl_error * process :=
  (* Segment addresses in memory. *)
  let seg_start := wrap b (p_vaddr phdr + load_bias_ r) in
  let seg_end := wrap b (seg_start + p_memsz phdr) in
  let seg_page_start := PAGE_START b seg_start in
  let seg_page_end := PAGE_END b seg_end in
  let seg_file_end := wrap b (seg_start + p_filesz phdr) in
  (* File offsets. *)
  let file_start := p_offset phdr in
  let file_end := wrap b (file_start + p_filesz phdr) in
  let file_page_start := PAGE_START b file_start in
  let file_length := wrap b (file_end - file_page_start) in
  let prot := PFLAGS_TO_PROT (p_flags phdr) in
  let fl := Z.lor MAP_FIXED MAP_PRIVATE in
  let off := file_offset_ r + file_page_start in
  let res := sys_mmap K seg_page_start file_length prot fl (fd_ r) off in
  let p1 :=
    if file_length =? 0 then p
    else emit [call_mmap seg_page_start file_length prot fl (fd_ r) off res]
              (match res with
               | Some _ => with_mem (mem_map_file K (fd_ r) off seg_page_start
                                                  file_length (mem p)) p
               | None => p
               end) in
  if negb (file_length =? 0) &&
     match res with Some _ => false | None => true end
  then (Some (err_couldnt_map_segment i), p1)
  else
    (* zero-fill a writable segment until the page limit. *)
    let p2 :=
      if has_flag (p_flags phdr) PF_W && (PAGE_OFFSET b seg_file_end >? 0)
      then
        let len := PAGE_SIZE - PAGE_OFFSET b seg_file_end in
        emit [call_memset seg_file_end len]
             (with_mem (mem_set_zero seg_file_end len (mem p1)) p1)
      else p1 in
    let seg_file_end := PAGE_END b seg_file_end in
    if seg_page_end >? seg_file_end then
      let len := wrap b (seg_page_end - seg_file_end) in
      let fl2 := Z.lor (Z.lor MAP_FIXED MAP_ANONYMOUS) MAP_PRIVATE in
      let res2 := sys_mmap K seg_file_end len prot fl2 (-1) 0 in
      match res2 with
      | None =>
        (Some err_couldnt_zero_fill,
         emit [call_mmap seg_file_end len prot fl2 (-1) 0 res2] p2)
      | Some _ =>
        (None,
         emit [call_mmap seg_file_end len prot fl2 (-1) 0 res2]
              (with_mem (mem_map_anon seg_file_end len (mem p2)) p2))
      end
    else (None, p2).

Fixpoint load_segments_from (r : ElfReader) (i : Z) (tbl : list Phdr)
                            (p : process) : outcome * process :=
  match tbl with
  | [] => (Done, p)
  | phdr :: rest =>
    if negb (p_type phdr =? PT_LOAD) then load_segments_from r (i + 1) rest p
    else
      match load_segment r i phdr p with
      | (Some e, p') => (Failed e, p')
      | (None, p') => load_segments_from r (i + 1) rest p'
      end
  end.

Definition LoadSegments : method := fun r p =>
  let '(o, p') := load_segments_from r 0 (phdr_entries r) p in (o, r, p').

(** *** CheckPhdr, FindPhdr *)

Definition phdr_covers (r : ElfReader) (loaded loaded_end : Z) (phdr : Phdr)
  : bool :=
  (p_type phdr =? PT_LOAD) &&
  (let seg_start := wrap b (p_vaddr phdr + load_bias_ r) in
   let seg_end := wrap b (p_filesz phdr + seg_start) in
   (seg_start <=? loaded) && (loaded_end <=? seg_end)).

Definition CheckPhdr (loaded : Z) : method := fun r p =>
  let loaded_end := wrap b (loaded + wrap b (phdr_num_ r * sizeof_Phdr b)) in
  if existsb (phdr_covers r loaded loaded_end) (phdr_entries r) then
    (Done,
     set_load r (load_start_ r) (load_size_ r) (load_bias_ r) loaded, p)
  else (Failed (err_phdr_not_in_loadable_segment loaded), r, p).

Definition is_pt_phdr (q : Phdr) : bool := p_type q =? PT_PHDR.

Definition FindPhdr : method := fun r p =>
  (* If there is a PT_PHDR, use it directly. *)
  match find is_pt_phdr (phdr_entries r) with
  | Some phdr => CheckPhdr (wrap b (load_bias_ r + p_vaddr phdr)) r p
  | None =>
    (* Otherwise, check the first loadable segment. *)
    match find is_load (phdr_entries r) with
    | Some phdr =>
      if p_offset phdr =? 0 then
        let elf_addr := wrap b (load_bias_ r + p_vaddr phdr) in
        let offset := mem_e_phoff b (mem p) elf_addr in
        CheckPhdr (wrap b (elf_addr + offset)) r p
      else (Failed err_cant_find_loaded_phdr, r, p)
    | None => (Failed err_cant_find_loaded_phdr, r, p)
    end
  end.

(** *** Load *)

(** [ReserveAddressSpace(extinfo) && LoadSegments() && FindPhdr()]. *)
Definition Load_from_reserve (extinfo : option android_dlextinfo) : method :=
  and_then (ReserveAddressSpace extinfo)
  (and_then LoadSegments FindPhdr).

Definition Load (extinfo : option android_dlextinfo) : method :=
  and_then (ReadElfHeader b K)
  (and_then (VerifyElfHeader b)
  (and_then (ReadProgramHeader b K)
  (Load_from_reserve extinfo))).

End Reserve.

Section Protection.

Variable b : abi.
Variable K : kernel.

(** *** _phdr_table_set_load_prot *)

Definition seg_page_start_of (load_bias : Z) (phdr : Phdr) : Z :=
  wrap b (PAGE_START b (p_vaddr phdr) + load_bias).

Definition seg_page_end_of (load_bias : Z) (phdr : Phdr) : Z :=
  wrap b (PAGE_END b (wrap b (p_vaddr phdr + p_memsz phdr)) + load_bias).

(** Returns the [int] result and the calls made. *)
Fixpoint _phdr_table_set_load_prot (phdr_table : list Phdr)
                                   (load_bias extra_prot_flags : Z)
  : Z * list event :=
  match phdr_table with
  | [] => (0, [])
  | phdr :: rest =>
    if negb (p_type phdr =? PT_LOAD) || negb (Z.land (p_flags phdr) PF_W =? 0)
    then _phdr_table_set_load_prot rest load_bias extra_prot_flags
    else
      let seg_page_start := seg_page_start_of load_bias phdr in
      let seg_page_end := seg_page_end_of load_bias phdr in
      let len := wrap b (seg_page_end - seg_page_start) in
      let prot := Z.lor (PFLAGS_TO_PROT (p_flags phdr)) extra_prot_flags in
      let ret := sys_mprotect K seg_page_start len prot in
      let ev := call_mprotect seg_page_start len prot ret in
      if ret <? 0 then (-1, [ev])
      else
        let '(res, evs) :=
          _phdr_table_set_load_prot rest load_bias extra_prot_flags in
        (res, ev :: evs)
  end.

Definition phdr_table_protect_segments (phdr_table : list Phdr)
                                       (load_bias : Z) : Z * list event :=
  _phdr_table_set_load_prot phdr_table load_bias 0.

Definition phdr_table_unprotect_segments (phdr_table : list Phdr)
                                         (load_bias : Z) : Z * list event :=
  _phdr_table_set_load_prot phdr_table load_bias PROT_WRITE.

(** The pages an [mprotect] call changes. *)
Definition event_touches (a : Z) (ev : event) : bool :=
  match ev with
  | call_mprotect addr len _ _ => in_range addr len a
  | _ => false
  end.

(** *** phdr_table_map_gnu_relro *)

Section RelroRegion.

Variable fd : Z.
(** [temp_mapping + file_offset] is the file from [file_offset] on. *)
Variable file_offset : Z.
Variable mem_base : Z.
Variable size : Z.

(** "Skip over dissimilar pages." *)
Fixpoint skip_dissimilar (fuel : nat) (mm : memory) (match_offset : Z) : Z :=
  match fuel with
  | O => match_offset
  | S fuel' =>
    if (match_offset <? size) &&
       negb (page_matches K fd mm (mem_base + match_offset)
                          (file_offset + match_offset))
    then skip_dissimilar fuel' mm (wrap b (match_offset + PAGE_SIZE))
    else match_offset
  end.

(** "Count similar pages." *)
Fixpoint count_similar (fuel : nat) (mm : memory) (mismatch_offset : Z) : Z :=
  match fuel with
  | O => mismatch_offset
  | S fuel' =>
    if (mismatch_offset <? size) &&
       page_matches K fd mm (mem_base + mismatch_offset)
                    (file_offset + mismatch_offset)
    then count_similar fuel' mm (wrap b (mismatch_offset + PAGE_SIZE))
    else mismatch_offset
  end.

(** The loops advance a page at a time, so one step per page of the
    region and one more to see the exit condition suffices. *)
Definition region_fuel : nat := S (Z.to_nat (size / PAGE_SIZE)).

(** [while (match_offset < size) { ... }]; [false] is the [return -1]. *)
Fixpoint relro_scan (fuel : nat) (mm : memory) (match_offset : Z)
  : bool * memory * list event :=
  match fuel with
  | O => (true, mm, [])
  | S fuel' =>
    if negb (match_offset <? size) then (true, mm, [])
    else
      let match_offset := skip_dissimilar region_fuel mm match_offset in
      let mismatch_offset := count_similar region_fuel mm match_offset in
      if mismatch_offset >? match_offset then
        let len := wrap b (mismatch_offset - match_offset) in
        let fl := Z.lor MAP_PRIVATE MAP_FIXED in
        let res := sys_mmap K (mem_base + match_offset) len PROT_READ fl
                            fd match_offset in
        let ev := call_mmap (mem_base + match_offset) len PROT_READ fl
                            fd match_offset res in
        match res with
        | None => (false, mm, [ev])
        | Some _ =>
          let mm' := mem_map_file K fd match_offset
                                  (mem_base + match_offset) len mm in
          let '(ok, mm'', evs) := relro_scan fuel' mm' mismatch_offset in
          (ok, mm'', ev :: evs)
        end
      else relro_scan fuel' mm mismatch_offset
  end.

End RelroRegion.

(** The loop over the table; the state is [file_offset]. *)
Fixpoint map_relro_segments (fd file_size temp_mapping : Z)
                            (phdr_table : list Phdr) (load_bias : Z)
                            (file_offset : Z) (mm : memory)
  : Z * memory * list event :=
  match phdr_table with
  | [] => (0, mm, [call_munmap temp_mapping file_size])
  | phdr :: rest =>
    if negb (p_type phdr =? PT_GNU_RELRO)
    then map_relro_segments fd file_size temp_mapping rest load_bias
                            file_offset mm
    else
      let seg_page_start := seg_page_start_of load_bias phdr in
      let seg_page_end := seg_page_end_of load_bias phdr in
      let mem_base := seg_page_start in
      let size := wrap b (seg_page_end - seg_page_start) in
      if wrap b (file_size - file_offset) <? size
      then (* File is too short to compare to this segment. *)
        (0, mm, [call_munmap temp_mapping file_size])
      else
        let '(ok, mm', evs) :=
          relro_scan fd file_offset mem_base size (region_fuel size) mm 0 in
        if ok then
          let '(ret, mm'', evs') :=
            map_relro_segments fd file_size temp_mapping rest load_bias
                               (wrap b (file_offset + size)) mm' in
          (ret, mm'', evs ++ evs')
        else (-1, mm', evs ++ [call_munmap temp_mapping file_size])
  end.

Definition phdr_table_map_gnu_relro (phdr_table : list Phdr)
                                    (load_bias fd : Z) (mm : memory)
  : Z * memory * list event :=
  match sys_fstat K fd with
  | None => (-1, mm, [call_fstat fd None])
  | Some file_size =>
    let ev0 := call_fstat fd (Some file_size) in
    let res := sys_mmap K nullptr file_size PROT_READ MAP_PRIVATE fd 0 in
    if file_size >? 0 then
      match res with
      | None =>
        (-1, mm, [ev0; call_mmap nullptr file_size PROT_READ MAP_PRIVATE
                                 fd 0 res])
      | Some temp_mapping =>
        let '(ret, mm', evs) :=
          map_relro_segments fd file_size temp_mapping phdr_table load_bias
                             0 mm in
        (ret, mm', ev0 :: call_mmap nullptr file_size PROT_READ MAP_PRIVATE
                                    fd 0 res :: evs)
      end
    else
      let '(ret, mm', evs) :=
        map_relro_segments fd file_size nullptr phdr_table load_bias 0 mm in
      (ret, mm', ev0 :: evs)
  end.


End Protection.


(** ** Sample inputs *)

(** Two LOAD entries of a 32-bit image; the second ends beyond 2^32. *)
Definition sample_wrapping_table : list Phdr :=
  [ mkPhdr PT_LOAD PF_R 0 0x1000 0x1000 0x1000;
    mkPhdr PT_LOAD (Z.lor PF_R PF_W) 0x1000 0xFFFFF000 0x1000 0x2000 ].

(** A text segment and a data segment, with a PT_PHDR entry. *)
Definition sample_table : list Phdr :=
  [ mkPhdr PT_PHDR PF_R 52 52 96 96;
    mkPhdr PT_LOAD (Z.lor PF_R PF_X) 0 0 0x1800 0x1800;
    mkPhdr PT_LOAD (Z.lor PF_R PF_W) 0x2000 0x3000 0x400 0x1000 ].

Definition sample_reader : ElfReader :=
  {| name_ := "libfoo.so"; fd_ := 3; file_offset_ := 0; file_size_ := 0x3000;
     header_ := mkEhdr ELFMAG ELFCLASS32 ELFDATA2LSB ET_DYN EM_ARM EV_CURRENT
                       52 0x2800 3 4;
     phdr_num_ := 3; phdr_mmap_ := 0x70000000; phdr_table_ := sample_table;
     phdr_size_ := 0x1000; shdr_table_ := []; shdr_num_ := 0;
     dynamic_ := nullptr; strtab_ := 0x70002000; strtab_size_ := 16;
     load_start_ := nullptr; load_size_ := 0; load_bias_ := 0;
     loaded_phdr_ := nullptr |}.

(** A kernel that grants every request at the address asked for: reads
    return a full header, files hold zeroes. *)
Definition granting_kernel : kernel :=
  {| sys_pread64_header := fun _ _ => (52, empty_Ehdr);
     sys_mmap := fun addr _ _ _ _ _ => Some addr;
     sys_mprotect := fun _ _ _ => 0;
     sys_write := fun _ _ size => size;
     sys_fstat := fun _ => Some 0;
     sys_prctl_seccomp := fun _ => 0;
     sys_errno := 0;
     file_byte := fun _ _ => 0;
     file_phdrs := fun _ _ _ => [];
     file_shdrs := fun _ _ _ => [];
     fragment_Map := fun _ _ elf_offset _ => Some (0x60000000 + elf_offset) |}.

(** A kernel with no address space left: every mapping fails. *)
Definition exhausted_kernel : kernel :=
  {| sys_pread64_header := fun _ _ => (52, empty_Ehdr);
     sys_mmap := fun _ _ _ _ _ _ => None;
     sys_mprotect := fun _ _ _ => -1;
     sys_write := fun _ _ _ => -1;
     sys_fstat := fun _ => None;
     sys_prctl_seccomp := fun _ => -1;
     sys_errno := 12;
     file_byte := fun _ _ => 0;
     file_phdrs := fun _ _ _ => [];
     file_shdrs := fun _ _ _ => [];
     fragment_Map := fun _ _ _ _ => None |}.

(** A read-only text segment ending in the middle of the page where the
    writable data segment begins; the two ranges do not overlap. *)
Definition sample_shared_page_table : list Phdr :=
  [ mkPhdr PT_LOAD (Z.lor PF_R PF_X) 0 0 0x1800 0x1800;
    mkPhdr PT_LOAD (Z.lor PF_R PF_W) 0x1800 0x1800 0x800 0x1800 ].

(** ** Vocabulary of the protection properties *)

(** The entries whose protection the controller changes. *)
Definition hardened (p : Phdr) : bool :=
  is_load p && (Z.land (p_flags p) PF_W =? 0).

Definition writable_load (p : Phdr) : bool :=
  is_load p && negb (Z.land (p_flags p) PF_W =? 0).

Definition seg_pages_len (b : abi) (load_bias : Z) (p : Phdr) : Z :=
  wrap b (seg_page_end_of b load_bias p - seg_page_start_of b load_bias p).

(** The call made for a hardened entry. *)
Definition prot_call (b : abi) (K : kernel) (load_bias extra : Z) (p : Phdr)
  : event :=
  let prot := Z.lor (PFLAGS_TO_PROT (p_flags p)) extra in
  call_mprotect (seg_page_start_of b load_bias p) (seg_pages_len b load_bias p)
    prot
    (sys_mprotect K (seg_page_start_of b load_bias p)
                  (seg_pages_len b load_bias p) prot).

(** Address [a] lies in a page of the segment of [p]. *)
Definition in_segment_pages (b : abi) (load_bias : Z) (p : Phdr) (a : Z)
  : bool :=
  in_range (seg_page_start_of b load_bias p) (seg_pages_len b load_bias p) a.

(** ** Vocabulary of the header locator *)

(** [loaded .. loaded + table length) lies in the file-backed part of the
    LOAD entry [q], with the arithmetic of [CheckPhdr]. *)
Definition table_within (b : abi) (r : ElfReader) (loaded : Z) (q : Phdr)
  : Prop :=
  is_load q = true /\
  wrap b (p_vaddr q + load_bias_ r) <= loaded /\
  wrap b (loaded + wrap b (phdr_num_ r * sizeof_Phdr b))
  <= wrap b (p_filesz q + wrap b (p_vaddr q + load_bias_ r)).

Definition set_loaded_phdr (r : ElfReader) (loaded : Z) : ElfReader :=
  set_load r (load_start_ r) (load_size_ r) (load_bias_ r) loaded.

(** A 32-bit process in which nothing has been called yet: the layout
    record holds its initialisers, with the window ending where the host
    libraries begin, and the rest of memory is [mm]. *)
Definition quiet_process (mm : memory) : process :=
  {| mem := store_linker_maps ILP32 (linker_maps_defaults 0xbcd90000) mm;
     log := [] |}.

(** No PT_PHDR; the first LOAD entry starts at file offset 0x1000 and the
    second one at file offset 0, where the ELF header is. *)
Definition sample_late_header_reader : ElfReader :=
  {| name_ := "libbar.so"; fd_ := 3; file_offset_ := 0; file_size_ := 0x2000;
     header_ := mkEhdr ELFMAG ELFCLASS32 ELFDATA2LSB ET_DYN EM_ARM EV_CURRENT
                       52 0 2 0;
     phdr_num_ := 2; phdr_mmap_ := 0x70000000;
     phdr_table_ :=
       [ mkPhdr PT_LOAD (Z.lor PF_R PF_W) 0x1000 0x1000 0x1000 0x1000;
         mkPhdr PT_LOAD (Z.lor PF_R PF_X) 0 0x4000 0x1000 0x1000 ];
     phdr_size_ := 0x1000; shdr_table_ := []; shdr_num_ := 0;
     dynamic_ := nullptr; strtab_ := nullptr; strtab_size_ := 0;
     load_start_ := 0x1000; load_size_ := 0x4000; load_bias_ := 0;
     loaded_phdr_ := nullptr |}.

(** Memory holding that header at 0x4000: [e_phoff = 52]. *)
Definition sample_late_header_memory : memory :=
  fun a => if a =? 0x4000 + 28 then 52 else 0.

(** ** Vocabulary of the dynamic-section locator *)

Definition set_file_size (r : ElfReader) (size : Z) : ElfReader :=
  {| name_ := name_ r; fd_ := fd_ r; file_offset_ := file_offset_ r;
     file_size_ := size; header_ := header_ r;
     phdr_num_ := phdr_num_ r; phdr_mmap_ := phdr_mmap_ r;
     phdr_table_ := phdr_table_ r; phdr_size_ := phdr_size_ r;
     shdr_table_ := shdr_table_ r; shdr_num_ := shdr_num_ r;
     dynamic_ := dynamic_ r; strtab_ := strtab_ r;
     strtab_size_ := strtab_size_ r; load_start_ := load_start_ r;
     load_size_ := load_size_ r; load_bias_ := load_bias_ r;
     loaded_phdr_ := loaded_phdr_ r |}.

Definition map_call (K : kernel) (r : ElfReader) (s : Shdr) : event :=
  call_fragment_Map (fd_ r) (file_offset_ r) (sh_offset s) (sh_size s)
    (fragment_Map K (fd_ r) (file_offset_ r) (sh_offset s) (sh_size s)).

(** The string-table header the [.dynamic] header [d] links to. *)
Definition linked_strtab (r : ElfReader) (d : Shdr) : Shdr :=
  nth (Z.to_nat (sh_link d)) (shdr_table_ r) null_Shdr.

(** A 256-byte file whose section headers place [.dynamic] and its string
    table far beyond the end of the file. *)
Definition sample_out_of_file_reader : ElfReader :=
  {| name_ := "libbaz.so"; fd_ := 3; file_offset_ := 0; file_size_ := 0x100;
     header_ := mkEhdr ELFMAG ELFCLASS32 ELFDATA2LSB ET_DYN EM_ARM EV_CURRENT
                       52 0x80 1 3;
     phdr_num_ := 0; phdr_mmap_ := nullptr; phdr_table_ := [];
     phdr_size_ := 0;
     shdr_table_ := [ mkShdr 0 0 0 0;
                      mkShdr SHT_DYNAMIC 0x100000 0x40 2;
                      mkShdr SHT_STRTAB 0x200000 0x10 0 ];
     shdr_num_ := 3;
     dynamic_ := nullptr; strtab_ := nullptr; strtab_size_ := 0;
     load_start_ := nullptr; load_size_ := 0; load_bias_ := 0;
     loaded_phdr_ := nullptr |}.

(** ** Vocabulary of the reservation properties *)

(** The address [ReserveAddressSpace] passes to [mmap]. *)
Definition reserve_map_addr (b : abi) (r : ElfReader) (p : process) : Z :=
  let min_vaddr := min_vaddr_of b (phdr_entries r) in
  if (min_vaddr =? nullptr) && strstr (name_ r) "libc.so"
  then GUEST_LIBC_ADDR (maps b p) else min_vaddr.

Definition reserve_mmap (b : abi) (K : kernel) (r : ElfReader) (p : process)
  : option Z :=
  sys_mmap K (reserve_map_addr b r p) (load_size_of b (phdr_entries r))
           PROT_NONE (Z.lor MAP_PRIVATE MAP_ANONYMOUS) (-1) 0.

Definition reserve_call (b : abi) (K : kernel) (r : ElfReader) (p : process)
  : event :=
  call_mmap (reserve_map_addr b r p) (load_size_of b (phdr_entries r))
            PROT_NONE (Z.lor MAP_PRIVATE MAP_ANONYMOUS) (-1) 0
            (reserve_mmap b K r p).

(** The image is taken for the guest runtime. *)
Definition is_guest_runtime (b : abi) (r : ElfReader) : Prop :=
  min_vaddr_of b (phdr_entries r) = nullptr /\
  strstr (name_ r) "libc.so" = true.

(** The calls of [init_seccomp] when the record holds [m]. *)
Definition seccomp_calls (b : abi) (K : kernel) (NR : syscall -> Z)
                         (m : linker_maps_addr_t) : list event :=
  let prog := filter NR m b in
  if sys_prctl_seccomp K prog =? 0
  then [call_prctl_seccomp prog (sys_prctl_seccomp K prog)]
  else [call_prctl_seccomp prog (sys_prctl_seccomp K prog);
        call_libc_fatal_no_abort (sys_errno K)].

(** The guest C library image: one LOAD segment at address zero. *)
Definition sample_libc_reader : ElfReader :=
  {| name_ := "/system/lib/libc.so"; fd_ := 4; file_offset_ := 0;
     file_size_ := 0x3000;
     header_ := mkEhdr ELFMAG ELFCLASS32 ELFDATA2LSB ET_DYN EM_ARM EV_CURRENT
                       52 0 3 0;
     phdr_num_ := 3; phdr_mmap_ := 0x70000000; phdr_table_ := sample_table;
     phdr_size_ := 0x1000; shdr_table_ := []; shdr_num_ := 0;
     dynamic_ := nullptr; strtab_ := nullptr; strtab_size_ := 0;
     load_start_ := nullptr; load_size_ := 0; load_bias_ := 0;
     loaded_phdr_ := nullptr |}.

Definition sample_explicit_reservation : android_dlextinfo :=
  {| flags := ANDROID_DLEXT_RESERVED_ADDRESS;
     reserved_addr := 0x50000000; reserved_size := 0x10000 |}.

Definition sample_small_reservation : android_dlextinfo :=
  {| flags := ANDROID_DLEXT_RESERVED_ADDRESS;
     reserved_addr := 0x50000000; reserved_size := 0x1000 |}.

Definition sample_small_hint : android_dlextinfo :=
  {| flags := ANDROID_DLEXT_RESERVED_ADDRESS_HINT;
     reserved_addr := 0x50000000; reserved_size := 0x1000 |}.

(** A kernel that places every non-fixed mapping 64 KiB above the address
    asked for. *)
Definition displacing_kernel : kernel :=
  {| sys_pread64_header := fun _ _ => (52, empty_Ehdr);
     sys_mmap := fun addr _ _ fl _ _ =>
       if Z.land fl MAP_FIXED =? 0 then Some (addr + 0x10000) else Some addr;
     sys_mprotect := fun _ _ _ => 0;
     sys_write := fun _ _ size => size;
     sys_fstat := fun _ => Some 0;
     sys_prctl_seccomp := fun _ => 0;
     sys_errno := 0;
     file_byte := fun _ _ => 0;
     file_phdrs := fun _ _ _ => [];
     file_shdrs := fun _ _ _ => [];
     fragment_Map := fun _ _ elf_offset _ => Some (0x60000000 + elf_offset) |}.

(** [p'] continues [p]: the calls of [p] are a prefix of those of [p']. *)
Definition extends (p p' : process) : Prop :=
  exists evs, log p' = log p ++ evs.

(** ** Vocabulary of the relro properties *)

(** Page [k] of the region at [mem_base] is byte-identical to page [k] of
    the file from [file_offset] on. *)
Definition page_match (K : kernel) (fd file_offset mem_base : Z)
                      (mm : memory) (k : Z) : bool :=
  page_matches K fd mm (mem_base + PAGE_SIZE * k)
               (file_offset + PAGE_SIZE * k).




Definition relro_size (b : abi) (load_bias : Z) (phdr : Phdr) : Z :=
  wrap b (seg_page_end_of b load_bias phdr - seg_page_start_of b load_bias phdr).


(** ** Vocabulary of the filter properties *)

(** The shape of the syscall part of the program: for each number a test
    that falls into a [SECCOMP_RET_TRAP] on equality and jumps over it
    otherwise. *)
Definition deny_chain (ks : list Z) : list sock_filter :=
  flat_map (fun k => [ BPF_JUMP (BPF_JMP ||| BPF_JEQ ||| BPF_K) k 0 1;
                       BPF_STMT (BPF_RET ||| BPF_K) SECCOMP_RET_TRAP ]) ks.

Definition denylisted_dec (NR : syscall -> Z) (b : abi) (n : Z) : bool :=
  existsb (fun k => u32 n =? u32 k) (map NR (denylist b)).

(** The two halves of a 64-bit value as the filter loads them. *)
Definition lo32 (x : Z) : Z := u32 x.
Definition hi32 (x : Z) : Z := u32 (Z.shiftr x 32).

(** A layout whose window straddles a 4 GiB boundary. *)
Definition sample_straddling_maps : linker_maps_addr_t :=
  mk_linker_maps 0x100000000 0x30000 0 0 0 0 0x2ffff0000 0x10000 0 0
                 0x300000000.

Definition sample_syscall (number ip : Z) (b : abi) : seccomp_data :=
  {| nr := number; arch := AUDIT_ARCH b; instruction_pointer := ip;
     args := [0; 0; 0; 0; 0; 0] |}.

(** The 32-bit layout with the window ending where the host libraries
    begin. *)
Definition sample_maps_32 : linker_maps_addr_t :=
  linker_maps_defaults 0xbcd90000.

(** A serialized relro file of two pages whose bytes are the page number
    plus one, behind any descriptor. *)
Definition paged_file_kernel : kernel :=
  {| sys_pread64_header := fun _ _ => (52, empty_Ehdr);
     sys_mmap := fun addr _ _ _ _ _ =>
       Some (if addr =? nullptr then 0x40000000 else addr);
     sys_mprotect := fun _ _ _ => 0;
     sys_write := fun _ _ size => size;
     sys_fstat := fun _ => Some 0x2000;
     sys_prctl_seccomp := fun _ => 0;
     sys_errno := 0;
     file_byte := fun _ off => off / PAGE_SIZE + 1;
     file_phdrs := fun _ _ _ => [];
     file_shdrs := fun _ _ _ => [];
     fragment_Map := fun _ _ elf_offset _ => Some (0x60000000 + elf_offset) |}.


(** Live memory equal to the file: ones in the first region, twos in the
    second. *)
Definition sample_two_relro_memory : memory :=
  fun a => if in_range 0x10000 0x1000 a then 1
           else if in_range 0x20000 0x1000 a then 2 else 0.

(** ** Further functions of the file *)

Section MoreProtection.

Variable b : abi.
Variable K : kernel.

(** *** _phdr_table_set_gnu_relro_prot, phdr_table_protect_gnu_relro *)



(** *** phdr_table_serialize_gnu_relro *)

(** The loop, from the [ssize_t file_offset] reached so far; the result is
    the [int] returned and the calls made. *)
Fixpoint serialize_relro_segments (phdr_table : list Phdr)
                                  (load_bias fd file_offset : Z)
  : Z * list event :=
  match phdr_table with
  | [] => (0, [])
  | phdr :: rest =>
    if negb (p_type phdr =? PT_GNU_RELRO)
    then serialize_relro_segments rest load_bias fd file_offset
    else
      let seg_page_start := seg_page_start_of b load_bias phdr in
      let seg_page_end := seg_page_end_of b load_bias phdr in
      let size := to_signed b (seg_page_end - seg_page_start) in
      let written := sys_write K fd seg_page_start (wrap b size) in
      let ev1 := call_write fd seg_page_start (wrap b size) written in
      if negb (written =? size) then (-1, [ev1])
      else
        let fl := Z.lor MAP_PRIVATE MAP_FIXED in
        let res := sys_mmap K seg_page_start (wrap b size) PROT_READ fl
                            fd file_offset in
        let ev2 := call_mmap seg_page_start (wrap b size) PROT_READ fl
                             fd file_offset res in
        match res with
        | None => (-1, [ev1; ev2])
        | Some _ =>
          let '(ret, evs) :=
            serialize_relro_segments rest load_bias fd
                                     (to_signed b (file_offset + size)) in
          (ret, ev1 :: ev2 :: evs)
        end
  end.

Definition phdr_table_serialize_gnu_relro (phdr_table : list Phdr)
                                          (load_bias fd : Z)
  : Z * list event :=
  serialize_relro_segments phdr_table load_bias fd 0.

(** *** phdr_table_get_arm_exidx (ARM only) *)

Definition PT_ARM_EXIDX : Z := 0x70000001.

(** Returns the [int] result with [*arm_exidx] and [*arm_exidx_count]. *)
Fixpoint phdr_table_get_arm_exidx (phdr_table : list Phdr) (load_bias : Z)
  : Z * Z * Z :=
  match phdr_table with
  | [] => (-1, nullptr, 0)
  | phdr :: rest =>
    if negb (p_type phdr =? PT_ARM_EXIDX)
    then phdr_table_get_arm_exidx rest load_bias
    else (0, wrap b (load_bias + p_vaddr phdr), u32 (p_memsz phdr / 8))
  end.

(** *** phdr_table_get_dynamic_section *)

(** Returns [*dynamic] and what is stored to [*dynamic_flags] ([None]:
    nothing is stored). *)
Fixpoint phdr_table_get_dynamic_section (phdr_table : list Phdr)
                                        (load_bias : Z) : Z * option Z :=
  match phdr_table with
  | [] => (nullptr, None)
  | phdr :: rest =>
    if p_type phdr =? PT_DYNAMIC
    then (wrap b (load_bias + p_vaddr phdr), Some (p_flags phdr))
    else phdr_table_get_dynamic_section rest load_bias
  end.

End MoreProtection.

(** ** Vocabulary of the further properties *)

(** The page protections of the process: what a successful [mprotect]
    leaves behind. *)
Definition protections : Type := Z -> Z.

Definition apply_call (s : protections) (ev : event) : protections :=
  match ev with
  | call_mprotect addr len prot ret =>
    if ret <? 0 then s
    else fun a => if in_range addr (pages_len len) a then prot else s a
  | _ => s
  end.

Definition apply_calls (evs : list event) (s : protections) : protections :=
  fold_left apply_call evs s.




(** The header checks of [VerifyElfHeader]. *)
Definition header_acceptable (b : abi) (h : Ehdr) : Prop :=
  e_ident_mag h = ELFMAG /\
  e_ident_class h = (match b with ILP32 => ELFCLASS32 | LP64 => ELFCLASS64 end) /\
  e_ident_data h = ELFDATA2LSB /\
  e_type h = ET_DYN /\
  e_version h = EV_CURRENT /\
  e_machine h = ELF_TARG_MACH b.

(** The calls of a list that are [mmap]s, with their address range. *)
Definition call_within (lo hi : Z) (ev : event) : Prop :=
  match ev with
  | call_mmap addr len _ _ _ _ _ => lo <= addr /\ addr + len <= hi
  | call_memset addr len => lo <= addr /\ addr + len <= hi
  | _ => True
  end.

(** The loads of a program all read the first sixteen bytes of the data:
    the syscall number, the architecture and the instruction pointer. *)
Definition loads_no_args (prog : list sock_filter) : bool :=
  forallb (fun i => if code i =? (BPF_LD ||| BPF_W ||| BPF_ABS)
                    then k i <? offsetof_args else true) prog.

Definition same_call_site (d d' : seccomp_data) : Prop :=
  nr d = nr d' /\ arch d = arch d' /\
  instruction_pointer d = instruction_pointer d'.

Definition sample_header_32 : Ehdr :=
  mkEhdr ELFMAG ELFCLASS32 ELFDATA2LSB ET_DYN EM_ARM EV_CURRENT 52 0x2800 3 4.

(** A kernel whose files carry the section headers of
    [sample_out_of_file_reader] and whose [Map] places every fragment at
    0x60000000. *)
Definition sections_kernel : kernel :=
  {| sys_pread64_header := fun _ _ => (52, sample_header_32);
     sys_mmap := fun addr _ _ _ _ _ =>
       Some (if addr =? nullptr then 0x40000000 else addr);
     sys_mprotect := fun _ _ _ => 0;
     sys_write := fun _ _ size => size;
     sys_fstat := fun _ => Some 0;
     sys_prctl_seccomp := fun _ => 0;
     sys_errno := 0;
     file_byte := fun _ off => if off =? 28 then 52 else 0;
     file_phdrs := fun _ _ _ => sample_table;
     file_shdrs := fun _ _ _ => [ mkShdr 0 0 0 0;
                                  mkShdr SHT_DYNAMIC 0x1000 0x40 2;
                                  mkShdr SHT_STRTAB 0x1800 0x10 0 ];
     fragment_Map := fun _ _ _ _ => Some 0x60000000 |}.

Definition fresh_reader : ElfReader := ElfReader_new "libfoo.so" 3 0.

(** The real start of the segment of [phdr], before any wrap-around. *)
Definition seg_start_Z (r : ElfReader) (phdr : Phdr) : Z :=
  p_vaddr phdr + load_bias_ r.

(** The conditions the technical note of the file places on a loadable
    segment: its biased range and its file range fit the address word, the
    file part is not larger than the memory part, and its address and its
    file offset agree modulo the page size. *)
Definition segment_layout_ok (b : abi) (r : ElfReader) (phdr : Phdr) : Prop :=
  0 <= seg_start_Z r phdr /\
  seg_start_Z r phdr + p_memsz phdr + (PAGE_SIZE - 1) < modulus b /\
  0 <= p_filesz phdr <= p_memsz phdr /\
  0 <= p_offset phdr /\
  p_offset phdr + p_filesz phdr < modulus b /\
  p_offset phdr mod PAGE_SIZE = seg_start_Z r phdr mod PAGE_SIZE.

(** The calls a step added to the log. *)
Definition new_calls (p p' : process) (evs : list event) : Prop :=
  log p' = log p ++ evs.

Definition sample_loaded_reader : ElfReader :=
  {| name_ := "libfoo.so"; fd_ := 3; file_offset_ := 0; file_size_ := 0x3000;
     header_ := sample_header_32;
     phdr_num_ := 3; phdr_mmap_ := 0x70000000; phdr_table_ := sample_table;
     phdr_size_ := 0x1000; shdr_table_ := []; shdr_num_ := 0;
     dynamic_ := nullptr; strtab_ := nullptr; strtab_size_ := 0;
     load_start_ := 0x40000000; load_size_ := 0x4000;
     load_bias_ := 0x40000000; loaded_phdr_ := nullptr |}.

(** The data segment of [sample_table]. *)
Definition sample_data_phdr : Phdr :=
  mkPhdr PT_LOAD (Z.lor PF_R PF_W) 0x2000 0x3000 0x400 0x1000.

(** A successful [mprotect] among the calls changes the page of [a]. *)
Definition event_covers (a : Z) (ev : event) : bool :=
  match ev with
  | call_mprotect addr len _ ret =>
    negb (ret <? 0) && in_range addr (pages_len len) a
  | _ => false
  end.



(** A load offset inside [struct seccomp_data]. *)
Definition load_in_bounds (off : Z) : bool :=
  (off =? 0) || (off =? 4) || (off =? 8) || (off =? 12)
  || ((16 <=? off) && (off <? 64) && (off mod 4 =? 0)).

Definition is_verdict (v : Z) : bool :=
  (v =? SECCOMP_RET_ALLOW) || (v =? SECCOMP_RET_TRAP).

(** What a checker of classic BPF programs asks, on the instructions the
    filter uses: every load stays inside the data, every jump lands inside
    the program, no instruction falls off the end, and every return gives
    one of the two verdicts. *)
Fixpoint well_formed (prog : list sock_filter) : bool :=
  match prog with
  | [] => false
  | i :: rest =>
    if code i =? (BPF_LD ||| BPF_W ||| BPF_ABS) then
      load_in_bounds (k i) && well_formed rest
    else if (code i =? (BPF_JMP ||| BPF_JEQ ||| BPF_K))
            || (code i =? (BPF_JMP ||| BPF_JGT ||| BPF_K))
            || (code i =? (BPF_JMP ||| BPF_JGE ||| BPF_K)) then
      (Z.to_nat (jt i) <? List.length rest)%nat
      && (Z.to_nat (jf i) <? List.length rest)%nat
      && well_formed rest
    else if code i =? (BPF_RET ||| BPF_K) then
      is_verdict (k i)
      && match rest with [] => true | _ :: _ => well_formed rest end
    else false
  end.

(** The circumstances under which the filter refuses a call. *)
Definition refused (NR : syscall -> Z) (m : linker_maps_addr_t) (b : abi)
           (d : seccomp_data) : Prop :=
  arch d = AUDIT_ARCH b /\
  low_address_threshold b <= instruction_pointer d /\
  ~ in_window m (instruction_pointer d) /\
  denylisted NR b (nr d).



(** [sample_loaded_reader] at a bias that puts the data segment of
    [sample_table] on the page of the layout record. *)
Definition sample_record_reader : ElfReader :=
  set_load sample_loaded_reader 0xbc9d9000 0x4000 0xbc9d9000 nullptr.

(** An address outside the pages of every LOAD entry of a table. *)
Definition outside_segments (r : ElfReader) (t : list Phdr) (a : Z) : Prop :=
  forall q, In q (load_entries t) ->
    a < page_floor (seg_start_Z r q) \/
    page_ceil (seg_start_Z r q + p_memsz q) <= a.

(** Two one-page relro regions among LOAD entries. *)
Definition sample_relro_among_loads : list Phdr :=
  [ mkPhdr PT_LOAD (Z.lor PF_R PF_X) 0 0 0x1000 0x1000;
    mkPhdr PT_GNU_RELRO PF_R 0x10000 0x10000 0x1000 0x1000;
    mkPhdr PT_LOAD (Z.lor PF_R PF_W) 0x10000 0x10000 0x11000 0x11000;
    mkPhdr PT_GNU_RELRO PF_R 0x20000 0x20000 0x1000 0x1000 ].
(* ================================================================== *)
(** * Part II: properties *)
(* ================================================================== *)

(** ** Words and pages *)

Lemma modulus_pos (b : abi) : 0 < modulus b.
Proof. destruct b; reflexivity. Qed.

Lemma modulus_page (b : abi) : exists q, modulus b = PAGE_SIZE * q /\ 0 < q.
Proof.
  destruct b; [exists (2 ^ 20) | exists (2 ^ 52)]; split; reflexivity.
Qed.

Lemma wrap_small (b : abi) (x : Z) : in_word b x -> wrap b x = x.
Proof. intros H. apply Z.mod_small. exact H. Qed.

Lemma wrap_in_word (b : abi) (x : Z) : in_word b (wrap b x).
Proof. apply Z.mod_pos_bound, modulus_pos. Qed.

Lemma PAGE_MASK_eq (b : abi) : PAGE_MASK b = modulus b - PAGE_SIZE.
Proof. destruct b; reflexivity. Qed.

Lemma PAGE_START_floor (b : abi) (x : Z) :
  in_word b x -> PAGE_START b x = page_floor x.
Proof.
  intros Hx. unfold PAGE_START, PAGE_MASK, wrap, modulus, page_floor.
  rewrite <- Z.land_ones by (destruct b; discriminate).
  rewrite Z.land_assoc, (Z.land_comm x), <- Z.land_assoc.
  replace (Z.land x (Z.ones (bits b))) with x.
  2:{ rewrite Z.land_ones by (destruct b; discriminate).
      symmetry. apply Z.mod_small. exact Hx. }
  rewrite Z.land_comm, <- Z.ldiff_land.
  change (PAGE_SIZE - 1) with (Z.ones 12).
  rewrite Z.ldiff_ones_r by lia.
  rewrite Z.shiftl_mul_pow2, Z.shiftr_div_pow2 by lia.
  change (2 ^ 12) with PAGE_SIZE. lia.
Qed.

Lemma page_floor_bounds (x : Z) : page_floor x <= x < page_floor x + PAGE_SIZE.
Proof.
  unfold page_floor, PAGE_SIZE.
  pose proof (Z.mod_pos_bound x 4096 ltac:(lia)).
  pose proof (Z.div_mod x 4096 ltac:(lia)). lia.
Qed.

Lemma page_ceil_bounds (x : Z) : x <= page_ceil x < x + PAGE_SIZE.
Proof.
  unfold page_ceil. pose proof (page_floor_bounds (x + PAGE_SIZE - 1)) as H.
  unfold page_floor in H. lia.
Qed.

Lemma page_floor_mono (x y : Z) : x <= y -> page_floor x <= page_floor y.
Proof.
  intros H. unfold page_floor, PAGE_SIZE.
  pose proof (Z.div_le_mono x y 4096 ltac:(lia) H). lia.
Qed.

Lemma page_floor_in_word (b : abi) (x : Z) :
  in_word b x -> in_word b (page_floor x).
Proof.
  intros [H0 H1]. pose proof (page_floor_bounds x).
  split; [|lia]. unfold page_floor, PAGE_SIZE.
  pose proof (Z.div_pos x 4096 H0 ltac:(lia)). lia.
Qed.

Lemma PAGE_END_ceil (b : abi) (x : Z) :
  0 <= x -> x + (PAGE_SIZE - 1) < modulus b -> PAGE_END b x = page_ceil x.
Proof.
  intros H0 H1. unfold PAGE_END.
  assert (Hw : in_word b (x + (PAGE_SIZE - 1))) by (unfold in_word, PAGE_SIZE in *; lia).
  rewrite (wrap_small _ _ Hw), (PAGE_START_floor _ _ Hw).
  unfold page_floor, page_ceil. f_equal. f_equal. lia.
Qed.

(** ** get_string *)

(** C10. [get_string] aborts unless the string table is loaded and the
    index lies strictly below its size; when both hold it returns
    [strtab_ + index].  The two cases are exhaustive. *)
Theorem get_string_checked (r : ElfReader) (index : Z) :
  (strtab_ r <> nullptr /\ index < strtab_size_ r ->
   get_string r index = Returned (strtab_ r + index)) /\
  (~ (strtab_ r <> nullptr /\ index < strtab_size_ r) ->
   get_string r index = Aborted).
Proof.
  unfold get_string. split.
  - intros [Hs Hi].
    destruct (Z.eqb_spec (strtab_ r) nullptr) as [E|_]; [contradiction|].
    destruct (Z.ltb_spec index (strtab_size_ r)) as [_|Hge]; [reflexivity|lia].
  - intros Hn.
    destruct (Z.eqb_spec (strtab_ r) nullptr) as [_|Hne]; [reflexivity|].
    destruct (Z.ltb_spec index (strtab_size_ r)) as [Hlt|_]; [|reflexivity].
    exfalso. apply Hn. split; assumption.
Qed.

(** ** phdr_table_get_load_size *)

Section LoadSize.

Variable b : abi.

Lemma load_size_step_skip (st : Z * Z * bool) (p : Phdr) :
  is_load p = false -> load_size_step b st p = st.
Proof.
  intros H. unfold load_size_step, is_load in *. destruct st as [[mn mx] f].
  rewrite H. reflexivity.
Qed.

Lemma load_size_step_load (mn mx : Z) (f : bool) (p : Phdr) :
  is_load p = true -> in_word b (seg_end_Z p) ->
  load_size_step b (mn, mx, f) p
  = (Z.min mn (p_vaddr p), Z.max mx (seg_end_Z p), true).
Proof.
  intros H Hw. unfold load_size_step, is_load, seg_end_Z in *.
  rewrite H. cbn [negb].
  rewrite (wrap_small _ _ Hw).
  f_equal. f_equal.
  - destruct (Z.ltb_spec (p_vaddr p) mn); lia.
  - destruct (Z.gtb_spec (p_vaddr p + p_memsz p) mx); lia.
Qed.

Lemma load_entries_cons (p : Phdr) (t : list Phdr) :
  load_entries (p :: t)
  = if is_load p then p :: load_entries t else load_entries t.
Proof. reflexivity. Qed.

Lemma scan_fold (t : list Phdr) :
  Forall (phdr_in_word b) t -> no_overflow b t ->
  forall mn mx f,
    fold_left (load_size_step b) t (mn, mx, f)
    = (fold_left Z.min (map p_vaddr (load_entries t)) mn,
       fold_left Z.max (map seg_end_Z (load_entries t)) mx,
       match load_entries t with [] => f | _ => true end).
Proof.
  induction t as [|p t IH]; intros Hw Hno mn mx f; [reflexivity|].
  inversion Hw as [|? ? Hp Ht]; subst.
  assert (Hno' : no_overflow b t) by (intros q Hq; apply Hno; right; exact Hq).
  cbn [fold_left]. rewrite load_entries_cons.
  destruct (is_load p) eqn:E.
  - assert (in_word b (seg_end_Z p)) as Hs.
    { specialize (Hno p (or_introl eq_refl) E).
      destruct Hp as (_ & [? ?] & _ & [? ?] & _).
      unfold in_word, seg_end_Z, PAGE_SIZE in *. lia. }
    rewrite (load_size_step_load _ _ _ _ E Hs), (IH Ht Hno').
    cbn [map fold_left].
    destruct (load_entries t); reflexivity.
  - rewrite (load_size_step_skip _ _ E). apply (IH Ht Hno').
Qed.

Lemma fold_min_le (l : list Z) (a : Z) : fold_left Z.min l a <= a.
Proof.
  revert a. induction l as [|x l IH]; intros a; cbn [fold_left]; [lia|].
  specialize (IH (Z.min a x)). lia.
Qed.

Lemma fold_min_lower (l : list Z) (a x : Z) :
  In x l -> fold_left Z.min l a <= x.
Proof.
  revert a. induction l as [|y l IH]; intros a H; [destruct H|].
  destruct H as [E|H]; cbn [fold_left].
  - subst. pose proof (fold_min_le l (Z.min a x)). lia.
  - apply IH. exact H.
Qed.

Lemma fold_max_ge (l : list Z) (a : Z) : a <= fold_left Z.max l a.
Proof.
  revert a. induction l as [|x l IH]; intros a; cbn [fold_left]; [lia|].
  specialize (IH (Z.max a x)). lia.
Qed.

Lemma fold_max_upper (l : list Z) (a x : Z) :
  In x l -> x <= fold_left Z.max l a.
Proof.
  revert a. induction l as [|y l IH]; intros a H; [destruct H|].
  destruct H as [E|H]; cbn [fold_left].
  - subst. pose proof (fold_max_ge l (Z.max a x)). lia.
  - apply IH. exact H.
Qed.

Lemma fold_min_bound (l : list Z) (a lo : Z) :
  lo <= a -> (forall x, In x l -> lo <= x) -> lo <= fold_left Z.min l a.
Proof.
  revert a. induction l as [|y l IH]; intros a Ha Hl; cbn [fold_left]; [lia|].
  apply IH.
  - specialize (Hl y (or_introl eq_refl)). lia.
  - intros x Hx. apply Hl. right. exact Hx.
Qed.

Lemma fold_max_bound (l : list Z) (a hi : Z) :
  a <= hi -> (forall x, In x l -> x <= hi) -> fold_left Z.max l a <= hi.
Proof.
  revert a. induction l as [|y l IH]; intros a Ha Hl; cbn [fold_left]; [lia|].
  apply IH.
  - specialize (Hl y (or_introl eq_refl)). lia.
  - intros x Hx. apply Hl. right. exact Hx.
Qed.

Lemma load_entries_In (t : list Phdr) (p : Phdr) :
  In p (load_entries t) <-> In p t /\ is_load p = true.
Proof. unfold load_entries. apply filter_In. Qed.

(** With at least one LOAD entry and no overflow, the scan computes the
    rounded extremes over the LOAD entries. *)
Lemma get_load_size_spec (t : list Phdr) :
  Forall (phdr_in_word b) t -> no_overflow b t -> load_entries t <> [] ->
  phdr_table_get_load_size b t
  = (page_ceil (spec_max_vaddr t) - page_floor (spec_min_vaddr t),
     page_floor (spec_min_vaddr t),
     page_ceil (spec_max_vaddr t))
  /\ 0 <= spec_min_vaddr t <= spec_max_vaddr t
  /\ spec_max_vaddr t + (PAGE_SIZE - 1) < modulus b.
Proof.
  intros Hw Hno Hne.
  assert (Hin : forall p, In p (load_entries t) ->
                0 <= p_vaddr p /\ 0 <= p_memsz p /\
                p_vaddr p + p_memsz p + (PAGE_SIZE - 1) < modulus b).
  { intros p Hp. apply load_entries_In in Hp. destruct Hp as [Hp El].
    rewrite Forall_forall in Hw. destruct (Hw p Hp) as (_ & [? _] & _ & [? _] & _).
    specialize (Hno p Hp El). lia. }
  unfold phdr_table_get_load_size.
  rewrite (scan_fold t Hw Hno).
  unfold spec_min_vaddr, spec_max_vaddr.
  change (fun p : Phdr => p_vaddr p + p_memsz p) with seg_end_Z.
  destruct (load_entries t) as [|p ps] eqn:E; [contradiction|].
  cbn [negb map fold_left].
  assert (Hp := Hin p (or_introl eq_refl)).
  assert (Hmin0 : Z.min (UINTPTR_MAX b) (p_vaddr p) = p_vaddr p).
  { unfold UINTPTR_MAX, PAGE_SIZE in *. lia. }
  rewrite Hmin0.
  set (mn := fold_left Z.min (map p_vaddr ps) (p_vaddr p)).
  set (mx := fold_left Z.max (map seg_end_Z ps) (Z.max 0 (seg_end_Z p))).
  assert (Hmn : 0 <= mn <= p_vaddr p).
  { split; [|apply fold_min_le].
    apply fold_min_bound; [lia|]. intros x Hx. apply in_map_iff in Hx.
    destruct Hx as (q & <- & Hq). apply (Hin q). right. exact Hq. }
  assert (Hmx : seg_end_Z p <= mx /\ mx + (PAGE_SIZE - 1) < modulus b).
  { split.
    - unfold mx. pose proof (fold_max_ge (map seg_end_Z ps) (Z.max 0 (seg_end_Z p))). lia.
    - assert (mx <= modulus b - PAGE_SIZE); [|unfold PAGE_SIZE in *; lia].
      apply fold_max_bound.
      + unfold seg_end_Z, PAGE_SIZE in *. lia.
      + intros x Hx. apply in_map_iff in Hx. destruct Hx as (q & <- & Hq).
        specialize (Hin q (or_intror Hq)). unfold seg_end_Z, PAGE_SIZE in *. lia. }
  unfold seg_end_Z in Hmx at 1.
  assert (Hmw : in_word b mn).
  { unfold in_word, PAGE_SIZE in *. lia. }
  rewrite (PAGE_START_floor _ _ Hmw).
  rewrite (PAGE_END_ceil b mx) by lia.
  pose proof (page_floor_bounds mn). pose proof (page_ceil_bounds mx).
  pose proof (page_floor_in_word _ _ Hmw) as [? ?].
  split; [|split; lia].
  f_equal. f_equal. apply wrap_small. unfold in_word, PAGE_SIZE in *. lia.
Qed.

Lemma get_load_size_no_load (t : list Phdr) :
  load_entries t = [] -> phdr_table_get_load_size b t = (0, 0, 0).
Proof.
  intros Hnil.
  assert (H : forall st, fold_left (load_size_step b) t st = st).
  { clear -Hnil. induction t as [|p t IH]; intros st; [reflexivity|].
    rewrite load_entries_cons in Hnil.
    destruct (is_load p) eqn:E; [discriminate|].
    cbn [fold_left]. rewrite (load_size_step_skip _ _ E). apply IH. exact Hnil. }
  unfold phdr_table_get_load_size. rewrite H. destruct b; reflexivity.
Qed.

End LoadSize.

Lemma get_string_checked_witness :
  get_string sample_reader 5 = Returned (0x70002000 + 5) /\
  get_string sample_reader 16 = Aborted.
Proof.
  split.
  - apply (proj1 (get_string_checked sample_reader 5)).
    split; [discriminate | reflexivity].
  - apply (proj2 (get_string_checked sample_reader 16)).
    intros [_ H]. discriminate H.
Defined.

(** ** compute_load_extent *)

Lemma spec_min_lower (t : list Phdr) (p : Phdr) :
  In p (load_entries t) -> spec_min_vaddr t <= p_vaddr p.
Proof.
  unfold spec_min_vaddr. destruct (load_entries t) as [|q qs]; [intros []|].
  intros [->|H].
  - apply fold_min_le.
  - apply fold_min_lower, in_map, H.
Qed.

Lemma spec_max_upper (t : list Phdr) (p : Phdr) :
  In p (load_entries t) -> p_vaddr p + p_memsz p <= spec_max_vaddr t.
Proof.
  intros H. unfold spec_max_vaddr.
  apply fold_max_upper.
  apply (in_map (fun p => p_vaddr p + p_memsz p)), H.
Qed.

Lemma reserve_no_load (b : abi) (K : kernel) (NR : syscall -> Z)
      (ext : option android_dlextinfo) (r : ElfReader) (p : process) :
  load_entries (phdr_entries r) = [] ->
  fst (fst (ReserveAddressSpace b K NR ext r p))
  = Failed err_no_loadable_segments.
Proof.
  intros H. unfold ReserveAddressSpace.
  rewrite (get_load_size_no_load b _ H). reflexivity.
Qed.

(** C6 (amended).  On a table whose LOAD entries do not run past the end
    of the address word, [phdr_table_get_load_size] yields the page-rounded
    minimum [p_vaddr] and, as size, the page-rounded maximum
    [p_vaddr + p_memsz] minus that minimum, so that every LOAD range lies
    in [[min, min + size)]; with no LOAD entry the size is zero and
    [ReserveAddressSpace] fails with "no loadable segments". *)
Theorem load_extent_correct (b : abi) (t : list Phdr) :
  Forall (phdr_in_word b) t -> no_overflow b t ->
  (load_entries t <> [] ->
   min_vaddr_of b t = page_floor (spec_min_vaddr t) /\
   load_size_of b t
   = page_ceil (spec_max_vaddr t) - page_floor (spec_min_vaddr t) /\
   forall p, In p t -> is_load p = true ->
     min_vaddr_of b t <= p_vaddr p /\
     p_vaddr p + p_memsz p <= min_vaddr_of b t + load_size_of b t) /\
  (load_entries t = [] ->
   load_size_of b t = 0 /\
   forall K NR ext r p, phdr_entries r = t ->
     fst (fst (ReserveAddressSpace b K NR ext r p))
     = Failed err_no_loadable_segments /\
     classify err_no_loadable_segments = FormatError).
Proof.
  intros Hw Hno. split.
  - intros Hne.
    destruct (get_load_size_spec b t Hw Hno Hne) as (Heq & Hb & Hm).
    unfold min_vaddr_of, load_size_of. rewrite Heq. cbn [fst snd].
    split; [reflexivity|]. split; [reflexivity|].
    intros p Hp El.
    assert (Hl : In p (load_entries t)) by (apply load_entries_In; auto).
    pose proof (spec_min_lower t p Hl). pose proof (spec_max_upper t p Hl).
    pose proof (page_floor_bounds (spec_min_vaddr t)).
    pose proof (page_ceil_bounds (spec_max_vaddr t)). lia.
  - intros Hnil. unfold load_size_of.
    rewrite (get_load_size_no_load b t Hnil). split; [reflexivity|].
    intros K NR ext r p <-. split; [|reflexivity].
    apply reserve_no_load. exact Hnil.
Qed.

Lemma sample_table_in_word : Forall (phdr_in_word ILP32) sample_table.
Proof.
  repeat constructor; cbv; intuition discriminate.
Qed.

Lemma sample_table_no_overflow : no_overflow ILP32 sample_table.
Proof.
  intros p Hp _. cbn in Hp.
  destruct Hp as [<-|[<-|[<-|[]]]]; reflexivity.
Qed.

Lemma load_extent_correct_witness :
  min_vaddr_of ILP32 sample_table = 0 /\
  load_size_of ILP32 sample_table = 0x4000.
Proof.
  destruct (load_extent_correct ILP32 sample_table
              sample_table_in_word sample_table_no_overflow) as [H _].
  destruct (H ltac:(discriminate)) as (H1 & H2 & _).
  split; [rewrite H1 | rewrite H2]; reflexivity.
Defined.

(** C6 as stated fails once an entry wraps: in a 32-bit image the second
    entry of [sample_wrapping_table] ends at 0x100001000, the scan sees
    0x1000, and the extent returned neither is the rounded maximum minus the
    minimum nor contains that entry. *)
Lemma load_extent_wraps :
  Forall (phdr_in_word ILP32) sample_wrapping_table /\
  min_vaddr_of ILP32 sample_wrapping_table = 0x1000 /\
  load_size_of ILP32 sample_wrapping_table = 0x1000 /\
  page_ceil (spec_max_vaddr sample_wrapping_table)
  - page_floor (spec_min_vaddr sample_wrapping_table) = 0x100000000 /\
  exists p, In p sample_wrapping_table /\ is_load p = true /\
    ~ (p_vaddr p + p_memsz p
       <= min_vaddr_of ILP32 sample_wrapping_table
          + load_size_of ILP32 sample_wrapping_table).
Proof.
  split; [repeat constructor; cbv; intuition discriminate|].
  split; [reflexivity|]. split; [reflexivity|]. split; [reflexivity|].
  exists (mkPhdr PT_LOAD (Z.lor PF_R PF_W) 0x1000 0xFFFFF000 0x1000 0x2000).
  split; [right; left; reflexivity|]. split; [reflexivity|].
  vm_compute. intros H. apply H. reflexivity.
Qed.

(** ** The protection controller *)

Section SetLoadProt.

Variable b : abi.
Variable K : kernel.
Variables load_bias extra : Z.

Lemma hardened_skip (p : Phdr) :
  negb (p_type p =? PT_LOAD) || negb (Z.land (p_flags p) PF_W =? 0)
  = negb (hardened p).
Proof.
  unfold hardened, is_load. rewrite negb_andb. reflexivity.
Qed.

(** The calls are those of the hardened entries, in table order, up to
    and including the first that fails. *)
Lemma set_load_prot_calls (t : list Phdr) :
  let res := _phdr_table_set_load_prot b K t load_bias extra in
  (exists n, snd res
             = map (prot_call b K load_bias extra)
                   (firstn n (List.filter hardened t))) /\
  (fst res = 0 ->
   snd res = map (prot_call b K load_bias extra) (List.filter hardened t)) /\
  (fst res = 0 \/ fst res = -1).
Proof.
  induction t as [|p t IH]; cbn zeta.
  - cbn. split; [exists 0%nat; reflexivity|]. split; [reflexivity|left; reflexivity].
  - cbn [_phdr_table_set_load_prot List.filter]. rewrite hardened_skip.
    destruct (hardened p) eqn:E; cbn [negb]; [|exact IH].
    fold (seg_pages_len b load_bias p).
    destruct (Z.ltb_spec
                (sys_mprotect K (seg_page_start_of b load_bias p)
                   (seg_pages_len b load_bias p)
                   (Z.lor (PFLAGS_TO_PROT (p_flags p)) extra)) 0) as [Hlt|Hge].
    + cbn [fst snd]. split; [exists 1%nat; reflexivity|].
      split; [discriminate|right; reflexivity].
    + destruct (_phdr_table_set_load_prot b K t load_bias extra) as [res evs].
      cbn [fst snd] in *. destruct IH as ((n & Hn) & Hall & Hret).
      split; [exists (S n); cbn [firstn map]; rewrite Hn; reflexivity|].
      split; [|exact Hret].
      intros H0. cbn [map]. rewrite (Hall H0). reflexivity.
Qed.

End SetLoadProt.

Lemma in_firstn {A : Type} (n : nat) (l : list A) (x : A) :
  In x (firstn n l) -> In x l.
Proof.
  revert l. induction n as [|n IH]; intros [|y l] H; cbn in *; try contradiction.
  destruct H as [H|H]; [left; exact H | right; apply IH; exact H].
Qed.

(** C9 (amended).  [phdr_table_unprotect_segments] and
    [phdr_table_protect_segments] call [mprotect] only for LOAD entries that
    are not writable, over the pages of that entry, with the translated
    flags OR-ed with [PROT_WRITE], resp. with the translated flags alone;
    when the result is 0 every such entry got its call.  No call is made on
    behalf of a writable entry: an address is touched only if it lies in a
    page of some non-writable LOAD entry. *)
Theorem protect_unprotect_frame (b : abi) (K : kernel) (t : list Phdr)
        (load_bias : Z) :
  let unprot := phdr_table_unprotect_segments b K t load_bias in
  let prot := phdr_table_protect_segments b K t load_bias in
  (forall ev, In ev (snd unprot) ->
     exists p ret, In p t /\ hardened p = true /\
       ev = call_mprotect (seg_page_start_of b load_bias p)
                          (seg_pages_len b load_bias p)
                          (Z.lor (PFLAGS_TO_PROT (p_flags p)) PROT_WRITE) ret) /\
  (forall ev, In ev (snd prot) ->
     exists p ret, In p t /\ hardened p = true /\
       ev = call_mprotect (seg_page_start_of b load_bias p)
                          (seg_pages_len b load_bias p)
                          (PFLAGS_TO_PROT (p_flags p)) ret) /\
  (fst unprot = 0 ->
   snd unprot = map (prot_call b K load_bias PROT_WRITE) (List.filter hardened t)) /\
  (fst prot = 0 ->
   snd prot = map (prot_call b K load_bias 0) (List.filter hardened t)) /\
  (forall a ev, In ev (snd unprot ++ snd prot) -> event_touches a ev = true ->
     exists p, In p t /\ hardened p = true /\
               in_segment_pages b load_bias p a = true).
Proof.
  cbn zeta. unfold phdr_table_unprotect_segments, phdr_table_protect_segments.
  destruct (set_load_prot_calls b K load_bias PROT_WRITE t) as ((n1 & H1) & A1 & _).
  destruct (set_load_prot_calls b K load_bias 0 t) as ((n2 & H2) & A2 & _).
  cbn zeta in *.
  assert (G : forall extra n ev,
             In ev (map (prot_call b K load_bias extra)
                        (firstn n (List.filter hardened t))) ->
             exists p, In p t /\ hardened p = true /\
                       ev = prot_call b K load_bias extra p).
  { intros extra n ev H. apply in_map_iff in H. destruct H as (p & <- & Hp).
    apply in_firstn, filter_In in Hp. exists p. tauto. }
  repeat split.
  - intros ev H. rewrite H1 in H. destruct (G _ _ _ H) as (p & Hp & Hh & ->).
    exists p. eexists. repeat split; try assumption.
  - intros ev H. rewrite H2 in H. destruct (G _ _ _ H) as (p & Hp & Hh & ->).
    exists p. eexists. repeat split; try assumption.
    unfold prot_call. rewrite Z.lor_0_r. reflexivity.
  - exact A1.
  - exact A2.
  - intros a ev H Ht. rewrite H1, H2 in H. apply in_app_or in H.
    destruct H as [H|H]; destruct (G _ _ _ H) as (p & Hp & Hh & ->);
      exists p; repeat split; try assumption; exact Ht.
Qed.

(** C9 as stated fails when a writable segment shares a page with a
    read-only one: restoring the protection of the text segment of
    [sample_shared_page_table] changes the page at 0x1000, where the data
    segment begins. *)
Lemma protect_touches_writable_segment :
  exists q a ev,
    In q sample_shared_page_table /\ writable_load q = true /\
    p_vaddr q <= a < p_vaddr q + p_memsz q /\
    in_segment_pages ILP32 0 q a = true /\
    In ev (snd (phdr_table_protect_segments ILP32 granting_kernel
                  sample_shared_page_table 0)) /\
    event_touches a ev = true.
Proof.
  exists (mkPhdr PT_LOAD (Z.lor PF_R PF_W) 0x1800 0x1800 0x800 0x1800).
  exists 0x1800.
  exists (call_mprotect 0 0x2000 (Z.lor PROT_EXEC PROT_READ) 0).
  split; [right; left; reflexivity|].
  split; [reflexivity|]. split; [cbn; lia|]. split; [reflexivity|].
  split; [left; reflexivity | reflexivity].
Qed.

(** ** The loaded-header locator *)

Section Locator.

Variable b : abi.

Lemma CheckPhdr_spec (loaded : Z) (r : ElfReader) (p : process) :
  ((exists q, In q (phdr_entries r) /\ table_within b r loaded q) ->
   CheckPhdr b loaded r p = (Done, set_loaded_phdr r loaded, p)) /\
  (~ (exists q, In q (phdr_entries r) /\ table_within b r loaded q) ->
   CheckPhdr b loaded r p
   = (Failed (err_phdr_not_in_loadable_segment loaded), r, p)).
Proof.
  unfold CheckPhdr.
  set (le := wrap b (loaded + wrap b (phdr_num_ r * sizeof_Phdr b))).
  assert (R : forall q, phdr_covers b r loaded le q = true
                        <-> table_within b r loaded q).
  { intros q. unfold phdr_covers, table_within, is_load. fold le.
    rewrite !andb_true_iff, Z.eqb_eq, !Z.leb_le. tauto. }
  destruct (existsb (phdr_covers b r loaded le) (phdr_entries r)) eqn:E.
  - split; [reflexivity|]. intros Hn. exfalso. apply Hn.
    apply existsb_exists in E. destruct E as (q & Hq & Hc).
    exists q. split; [exact Hq | apply R, Hc].
  - split; [|reflexivity]. intros (q & Hq & Hc). exfalso.
    assert (existsb (phdr_covers b r loaded le) (phdr_entries r) = true)
      by (apply existsb_exists; exists q; split; [exact Hq | apply R, Hc]).
    congruence.
Qed.

End Locator.

(** C5 (amended).  [FindPhdr] checks [load_bias_ + p_vaddr] of the first
    PT_PHDR entry when there is one; otherwise it looks at the first LOAD
    entry only: if its file offset is zero the candidate is that segment's
    address plus the [e_phoff] read from the header in memory there, and
    if it is not (or there is no LOAD entry) the search fails.  The
    candidate is accepted exactly when the table starting there lies in
    the file-backed part of some LOAD entry; otherwise [CheckPhdr] fails
    with the "not in loadable segment" integrity error. *)
Theorem find_live_phdr (b : abi) (r : ElfReader) (p : process) :
  let t := phdr_entries r in
  (forall q, find is_pt_phdr t = Some q ->
     FindPhdr b r p = CheckPhdr b (wrap b (load_bias_ r + p_vaddr q)) r p) /\
  (forall q, find is_pt_phdr t = None -> find is_load t = Some q ->
     p_offset q = 0 ->
     FindPhdr b r p
     = CheckPhdr b (wrap b (wrap b (load_bias_ r + p_vaddr q)
                            + mem_e_phoff b (mem p)
                                (wrap b (load_bias_ r + p_vaddr q)))) r p) /\
  (find is_pt_phdr t = None ->
   (find is_load t = None \/
    exists q, find is_load t = Some q /\ p_offset q <> 0) ->
   FindPhdr b r p = (Failed err_cant_find_loaded_phdr, r, p)) /\
  (forall loaded,
     ((exists q, In q t /\ table_within b r loaded q) ->
      CheckPhdr b loaded r p = (Done, set_loaded_phdr r loaded, p)) /\
     (~ (exists q, In q t /\ table_within b r loaded q) ->
      CheckPhdr b loaded r p
      = (Failed (err_phdr_not_in_loadable_segment loaded), r, p) /\
      classify (err_phdr_not_in_loadable_segment loaded) = IntegrityError)).
Proof.
  cbn zeta. unfold FindPhdr. repeat split.
  - intros q ->. reflexivity.
  - intros q -> -> ->. reflexivity.
  - intros -> [->|(q & -> & Hq)]; [reflexivity|].
    destruct (Z.eqb_spec (p_offset q) 0); [contradiction|reflexivity].
  - apply (proj1 (CheckPhdr_spec b loaded r p)).
  - apply (proj2 (CheckPhdr_spec b loaded r p)). assumption.
Qed.

Lemma find_live_phdr_witness :
  FindPhdr ILP32 sample_reader (quiet_process (fun _ => 0))
  = (Done, set_loaded_phdr sample_reader 52, quiet_process (fun _ => 0)).
Proof.
  destruct (find_live_phdr ILP32 sample_reader (quiet_process (fun _ => 0)))
    as (H1 & _ & _ & H4).
  rewrite (H1 (mkPhdr PT_PHDR PF_R 52 52 96 96) eq_refl).
  apply (proj1 (H4 52)).
  exists (mkPhdr PT_LOAD (Z.lor PF_R PF_X) 0 0 0x1800 0x1800).
  split; [right; left; reflexivity|].
  split; [reflexivity|]. split; vm_compute; discriminate.
Defined.

(** C5 as stated fails when the zero-offset LOAD entry is not the first
    LOAD entry: the table of [sample_late_header_reader] has no PT_PHDR, its
    second LOAD entry has file offset zero and the header found there gives
    the candidate 0x4034, which passes the containment check; [FindPhdr]
    nevertheless fails, because it stops at the first LOAD entry. *)
Lemma find_phdr_first_load_only :
  let r := sample_late_header_reader in
  let p := quiet_process sample_late_header_memory in
  find is_pt_phdr (phdr_entries r) = None /\
  find (fun q => is_load q && (p_offset q =? 0)) (phdr_entries r)
  = Some (mkPhdr PT_LOAD (Z.lor PF_R PF_X) 0 0x4000 0x1000 0x1000) /\
  wrap ILP32 (load_bias_ r + 0x4000)
  + mem_e_phoff ILP32 (mem p) (wrap ILP32 (load_bias_ r + 0x4000)) = 0x4034 /\
  fst (fst (CheckPhdr ILP32 0x4034 r p)) = Done /\
  fst (fst (FindPhdr ILP32 r p)) = Failed err_cant_find_loaded_phdr.
Proof.
  cbn zeta. repeat split; reflexivity.
Qed.

(** ** The dynamic-section locator *)

(** C7 (amended).  [ReadDynamicSection] takes the first section header of
    type DYNAMIC and fails, without mapping anything, when there is none,
    when its [sh_link] is not below [shdr_num_] or when the linked header
    is not a STRTAB.  Otherwise it maps the dynamic section and then the
    string table at the offsets and sizes the headers declare: the result
    is decided by the two mappings alone and does not depend on the size of
    the file. *)
Theorem locate_dynamic_section (K : kernel) (r : ElfReader) (p : process) :
  (find is_dynamic_shdr (shdr_entries r) = None ->
   ReadDynamicSection K r p = (Failed err_no_dynamic_section, r, p)) /\
  (forall d, find is_dynamic_shdr (shdr_entries r) = Some d ->
     (shdr_num_ r <= sh_link d ->
      ReadDynamicSection K r p
      = (Failed (err_invalid_sh_link (sh_link d)), r, p)) /\
     (sh_link d < shdr_num_ r ->
      sh_type (linked_strtab r d) <> SHT_STRTAB ->
      ReadDynamicSection K r p
      = (Failed (err_link_not_strtab (sh_link d)
                                     (sh_type (linked_strtab r d))), r, p)) /\
     (sh_link d < shdr_num_ r ->
      sh_type (linked_strtab r d) = SHT_STRTAB ->
      let s := linked_strtab r d in
      ReadDynamicSection K r p
      = match fragment_Map K (fd_ r) (file_offset_ r)
                           (sh_offset d) (sh_size d) with
        | None => (Failed err_dynamic_mmap_failed, r,
                   emit [map_call K r d] p)
        | Some dyn =>
          match fragment_Map K (fd_ r) (file_offset_ r)
                             (sh_offset s) (sh_size s) with
          | None =>
            (Failed err_strtab_mmap_failed,
             set_sections r (shdr_table_ r) (shdr_num_ r) dyn (strtab_ r)
                          (strtab_size_ r),
             emit [map_call K r s] (emit [map_call K r d] p))
          | Some st =>
            (Done,
             set_sections r (shdr_table_ r) (shdr_num_ r) dyn st (sh_size s),
             emit [map_call K r s] (emit [map_call K r d] p))
          end
        end)) /\
  (forall size,
     fst (fst (ReadDynamicSection K (set_file_size r size) p))
     = fst (fst (ReadDynamicSection K r p)) /\
     log (snd (ReadDynamicSection K (set_file_size r size) p))
     = log (snd (ReadDynamicSection K r p))).
Proof.
  split; [|split].
  - intros H. unfold ReadDynamicSection. rewrite H. reflexivity.
  - intros d H. unfold ReadDynamicSection. rewrite H.
    fold (linked_strtab r d). split; [|split].
    + intros Hl. destruct (Z.geb_spec (sh_link d) (shdr_num_ r)); [reflexivity|lia].
    + intros Hl Ht.
      destruct (Z.geb_spec (sh_link d) (shdr_num_ r)); [lia|].
      destruct (Z.eqb_spec (sh_type (linked_strtab r d)) SHT_STRTAB);
        [contradiction|reflexivity].
    + intros Hl Ht. cbn zeta.
      destruct (Z.geb_spec (sh_link d) (shdr_num_ r)); [lia|].
      rewrite Ht. cbn [Z.eqb negb Pos.eqb SHT_STRTAB]. unfold map_call.
      destruct (fragment_Map K (fd_ r) (file_offset_ r) (sh_offset d) (sh_size d));
        [|reflexivity].
      cbn [fd_ file_offset_ set_sections].
      destruct (fragment_Map K (fd_ r) (file_offset_ r)
                  (sh_offset (linked_strtab r d)) (sh_size (linked_strtab r d)));
        reflexivity.
  - intros size. unfold ReadDynamicSection, shdr_entries.
    cbn [set_file_size shdr_num_ shdr_table_ fd_ file_offset_].
    destruct (find is_dynamic_shdr _) as [d|]; [|split; reflexivity].
    destruct (sh_link d >=? shdr_num_ r); [split; reflexivity|].
    destruct (negb _); [split; reflexivity|].
    destruct (fragment_Map K (fd_ r) (file_offset_ r) (sh_offset d) (sh_size d));
      [|split; reflexivity].
    cbn [fd_ file_offset_ set_sections].
    destruct (fragment_Map K _ _ _ _); split; reflexivity.
Qed.

Lemma locate_dynamic_section_witness :
  fst (fst (ReadDynamicSection granting_kernel sample_out_of_file_reader
              (quiet_process (fun _ => 0)))) = Done.
Proof.
  destruct (locate_dynamic_section granting_kernel sample_out_of_file_reader
              (quiet_process (fun _ => 0))) as (_ & H & _).
  destruct (H (mkShdr SHT_DYNAMIC 0x100000 0x40 2) eq_refl) as (_ & _ & H3).
  rewrite (H3 eq_refl eq_refl). reflexivity.
Defined.

(** C7 as stated fails: the range checks are not made.  In
    [sample_out_of_file_reader] the file has 256 bytes, [CheckFileRange]
    rejects both fragments, and [ReadDynamicSection] still maps them and
    succeeds. *)
Lemma dynamic_section_not_bounds_checked :
  let r := sample_out_of_file_reader in
  let res := ReadDynamicSection granting_kernel r (quiet_process (fun _ => 0)) in
  file_size_ r = 0x100 /\
  CheckFileRange r 0x100000 0x40 4 = Returned false /\
  CheckFileRange r 0x200000 0x10 1 = Returned false /\
  fst (fst res) = Done /\
  log (snd res)
  = [ call_fragment_Map 3 0 0x100000 0x40 (Some (0x60000000 + 0x100000));
      call_fragment_Map 3 0 0x200000 0x10 (Some (0x60000000 + 0x200000)) ].
Proof.
  cbn zeta. repeat split; reflexivity.
Qed.

(** ** The layout record in memory *)

Lemma read_le_ext (m1 m2 : memory) (n : nat) :
  forall addr,
    (forall a, addr <= a < addr + Z.of_nat n -> m1 a = m2 a) ->
    read_le m1 addr n = read_le m2 addr n.
Proof.
  induction n as [|n IH]; intros addr H; cbn [read_le]; [reflexivity|].
  rewrite (H addr) by lia. rewrite (IH (addr + 1)); [reflexivity|].
  intros a Ha. apply H. lia.
Qed.

Lemma read_le_bytes (m : memory) (n : nat) :
  forall addr,
    0 <= read_le (fun a => m a mod 256) addr n < 256 ^ Z.of_nat n.
Proof.
  induction n as [|n IH]; intros addr; cbn [read_le].
  - cbn. lia.
  - rewrite Nat2Z.inj_succ, Z.pow_succ_r by lia.
    pose proof (IH (addr + 1)). pose proof (Z.mod_pos_bound (m addr) 256).
    lia.
Qed.

(** Reading back the bytes of a stored value, from its [k]-th byte on. *)
Lemma read_le_stored (addr v w : Z) (mm : memory) (n : nat) :
  forall k,
    0 <= k -> k + Z.of_nat n <= w ->
    read_le (fun a => (if in_range addr w a
                       then (v / 256 ^ (a - addr)) mod 256 else mm a) mod 256)
            (addr + k) n
    = (v / 256 ^ k) mod 256 ^ Z.of_nat n.
Proof.
  induction n as [|n IH]; intros k Hk Hle; cbn [read_le].
  - cbn [Z.of_nat]. rewrite Z.pow_0_r, Z.mod_1_r. reflexivity.
  - rewrite Nat2Z.inj_succ in *.
    assert (Hin : in_range addr w (addr + k) = true).
    { unfold in_range. apply andb_true_iff.
      split; [apply Z.leb_le|apply Z.ltb_lt]; lia. }
    rewrite Hin, Z.mod_mod by lia.
    replace (addr + k - addr) with k by lia.
    replace (addr + k + 1) with (addr + (k + 1)) by lia.
    rewrite IH by lia.
    assert (Hp : 0 < 256 ^ k) by (apply Z.pow_pos_nonneg; lia).
    assert (Hq : 0 < 256 ^ Z.of_nat n) by (apply Z.pow_pos_nonneg; lia).
    rewrite Z.pow_succ_r by lia.
    rewrite (Z.rem_mul_r (v / 256 ^ k) 256 (256 ^ Z.of_nat n)) by lia.
    replace (k + 1) with (Z.succ k) by lia.
    rewrite Z.pow_succ_r by lia.
    replace (256 * 256 ^ k) with (256 ^ k * 256) by lia.
    rewrite <- Z.div_div by lia. reflexivity.
Qed.

Lemma word_bytes (b : abi) :
  256 ^ Z.of_nat (Z.to_nat (sizeof_uintptr b)) = modulus b /\
  Z.of_nat (Z.to_nat (sizeof_uintptr b)) = sizeof_uintptr b /\
  0 < sizeof_uintptr b.
Proof. destruct b; repeat split. Qed.

Lemma load_uintptr_in_word (b : abi) (mm : memory) (addr : Z) :
  in_word b (load_uintptr b mm addr).
Proof.
  unfold in_word, load_uintptr. destruct (word_bytes b) as (<- & _ & _).
  apply read_le_bytes.
Qed.

Lemma load_uintptr_ext (b : abi) (m1 m2 : memory) (addr : Z) :
  (forall a, addr <= a < addr + sizeof_uintptr b -> m1 a = m2 a) ->
  load_uintptr b m1 addr = load_uintptr b m2 addr.
Proof.
  intros H. unfold load_uintptr. apply read_le_ext. intros a Ha.
  destruct (word_bytes b) as (_ & E & _). rewrite E in Ha.
  rewrite (H a Ha). reflexivity.
Qed.

(** A stored word is read back, wrapped to the word size. *)
Lemma load_store_same (b : abi) (addr v : Z) (mm : memory) :
  load_uintptr b (store_uintptr b addr v mm) addr = wrap b v.
Proof.
  unfold load_uintptr, store_uintptr, wrap.
  destruct (word_bytes b) as (Em & Ew & Hw).
  pose proof (read_le_stored addr v (sizeof_uintptr b) mm
                (Z.to_nat (sizeof_uintptr b)) 0 ltac:(lia) ltac:(lia)) as H.
  rewrite Z.add_0_r, Z.pow_0_r, Z.div_1_r, Em in H. exact H.
Qed.

(** A store leaves the words it does not overlap as they were. *)
Lemma load_store_other (b : abi) (addr addr' v : Z) (mm : memory) :
  addr' + sizeof_uintptr b <= addr \/ addr + sizeof_uintptr b <= addr' ->
  load_uintptr b (store_uintptr b addr v mm) addr' = load_uintptr b mm addr'.
Proof.
  intros H. apply load_uintptr_ext. intros a Ha. unfold store_uintptr, in_range.
  destruct (Z.leb_spec addr a); destruct (Z.ltb_spec a (addr + sizeof_uintptr b));
    cbn [andb]; try reflexivity; lia.
Qed.

(** The record depends on its own bytes only. *)
Lemma linker_maps_ext (b : abi) (m1 m2 : memory) :
  (forall a, LINKER_MAPS_ADDR b <= a
             < LINKER_MAPS_ADDR b + sizeof_linker_maps b -> m1 a = m2 a) ->
  linker_maps b m1 = linker_maps b m2.
Proof.
  intros H. unfold linker_maps.
  assert (E : forall i, 0 <= i < 11 ->
                load_uintptr b m1 (member_addr b i)
                = load_uintptr b m2 (member_addr b i)).
  { intros i Hi. apply load_uintptr_ext. intros a Ha. apply H.
    unfold member_addr, sizeof_linker_maps in *.
    destruct (word_bytes b) as (_ & _ & Hw). nia. }
  cbv zeta. rewrite !E by lia. reflexivity.
Qed.

Lemma member_apart (b : abi) (i j : Z) :
  i <> j ->
  member_addr b j + sizeof_uintptr b <= member_addr b i \/
  member_addr b i + sizeof_uintptr b <= member_addr b j.
Proof.
  intros H. unfold member_addr. destruct (word_bytes b) as (_ & _ & Hw). nia.
Qed.

(** The two assignments of [ReserveAddressSpace], seen on the record. *)
Lemma linker_maps_written (b : abi) (addr size : Z) (mm : memory) :
  linker_maps b (write_GUEST_LIBC_SIZE b size
                   (write_GUEST_LIBC_ADDR b addr mm))
  = set_GUEST_LIBC_SIZE (wrap b size)
      (set_GUEST_LIBC_ADDR (wrap b addr) (linker_maps b mm)).
Proof.
  unfold linker_maps, write_GUEST_LIBC_SIZE, write_GUEST_LIBC_ADDR,
         set_GUEST_LIBC_SIZE, set_GUEST_LIBC_ADDR.
  cbv zeta. cbn [prelinker_addr prelinker_size host_linker_addr
                 host_linker_size guest_linker_addr guest_linker_size
                 guest_libc_addr guest_libc_size host_libs_addr
                 host_libs_size linker_maps_last_addr].
  rewrite (load_store_same b (member_addr b 7)).
  rewrite (load_store_other b (member_addr b 7) (member_addr b 6))
    by (apply member_apart; discriminate).
  rewrite (load_store_same b (member_addr b 6)).
  rewrite !(load_store_other b (member_addr b 7))
    by (apply member_apart; discriminate).
  rewrite !(load_store_other b (member_addr b 6))
    by (apply member_apart; discriminate).
  reflexivity.
Qed.

(** The assignments write the two guest-runtime members and nothing
    else. *)
Lemma record_write_frame (b : abi) (addr size : Z) (mm : memory) (a : Z) :
  ~ (member_addr b 6 <= a < member_addr b 8) ->
  write_GUEST_LIBC_SIZE b size (write_GUEST_LIBC_ADDR b addr mm) a = mm a.
Proof.
  intros H. unfold write_GUEST_LIBC_SIZE, write_GUEST_LIBC_ADDR,
                   store_uintptr, in_range, member_addr in *.
  destruct (word_bytes b) as (_ & _ & Hw).
  repeat match goal with
         | |- context [?x <=? ?y] => destruct (Z.leb_spec x y)
         | |- context [?x <? ?y] => destruct (Z.ltb_spec x y)
         end; cbn [andb]; try reflexivity; lia.
Qed.

(** ** Address-space reservation *)

Lemma extends_refl (p : process) : extends p p.
Proof. exists []. symmetry. apply app_nil_r. Qed.

Lemma extends_trans (p q s : process) : extends p q -> extends q s -> extends p s.
Proof.
  intros [e1 H1] [e2 H2]. exists (e1 ++ e2).
  rewrite H2, H1, app_assoc. reflexivity.
Qed.

Lemma extends_emit (evs : list event) (p q : process) :
  extends p q -> extends p (emit evs q).
Proof.
  intros H. apply (extends_trans _ q); [exact H|]. exists evs. reflexivity.
Qed.

Lemma extends_with_mem (mm : memory) (p q : process) :
  extends p q -> extends p (with_mem mm q).
Proof. intros [e H]. exists e. exact H. Qed.

Create HintDb loader.
#[local] Hint Resolve extends_refl extends_emit extends_with_mem : loader.

Section ReserveProofs.

Variable b : abi.
Variable K : kernel.
Variable NR : syscall -> Z.

Lemma load_segment_extends (r : ElfReader) (i : Z) (phdr : Phdr) (p : process) :
  extends p (snd (load_segment b K r i phdr p)).
Proof.
  unfold load_segment.
  repeat match goal with
         | |- context [if ?c then _ else _] => destruct c
         | |- context [match ?c with Some _ => _ | None => _ end] => destruct c
         end; cbn [snd]; auto 10 with loader.
Qed.

Lemma load_segments_extends (r : ElfReader) (t : list Phdr) :
  forall i p, extends p (snd (load_segments_from b K r i t p)).
Proof.
  induction t as [|phdr t IH]; intros i p; cbn [load_segments_from].
  - apply extends_refl.
  - destruct (negb (p_type phdr =? PT_LOAD)); [apply IH|].
    pose proof (load_segment_extends r i phdr p) as H.
    destruct (load_segment b K r i phdr p) as [[e|] p']; cbn [snd] in *.
    + exact H.
    + apply (extends_trans _ p'); [exact H | apply IH].
Qed.

Lemma LoadSegments_extends (r : ElfReader) (p : process) :
  extends p (snd (LoadSegments b K r p)).
Proof.
  unfold LoadSegments. pose proof (load_segments_extends r (phdr_entries r) 0 p) as H.
  destruct (load_segments_from b K r 0 (phdr_entries r) p). exact H.
Qed.

Lemma CheckPhdr_process (loaded : Z) (r : ElfReader) (p : process) :
  snd (CheckPhdr b loaded r p) = p.
Proof. unfold CheckPhdr. destruct (existsb _ _); reflexivity. Qed.

Lemma FindPhdr_process (r : ElfReader) (p : process) :
  snd (FindPhdr b r p) = p.
Proof.
  unfold FindPhdr.
  destruct (find is_pt_phdr _); [apply CheckPhdr_process|].
  destruct (find is_load _) as [q|]; [|reflexivity].
  destruct (p_offset q =? 0); [apply CheckPhdr_process | reflexivity].
Qed.

Lemma segments_then_phdr_extends (r : ElfReader) (p : process) :
  extends p (snd (and_then (LoadSegments b K) (FindPhdr b) r p)).
Proof.
  unfold and_then. pose proof (LoadSegments_extends r p) as H.
  destruct (LoadSegments b K r p) as [[[|e] r'] p']; cbn [snd] in *.
  - rewrite FindPhdr_process. exact H.
  - exact H.
Qed.

(** [ReserveAddressSpace] in terms of the size and minimum address. *)
Lemma ReserveAddressSpace_eq (ext : option android_dlextinfo)
      (r : ElfReader) (p : process) :
  let size := load_size_of b (phdr_entries r) in
  let min_vaddr := min_vaddr_of b (phdr_entries r) in
  let r0 := set_load r (load_start_ r) size (load_bias_ r) (loaded_phdr_ r) in
  ReserveAddressSpace b K NR ext r p
  = if size =? 0 then (Failed err_no_loadable_segments, r0, p)
    else if size >? fst (reservation_of ext) then
      if negb (snd (reservation_of ext)) then
        (Failed (err_reserved_too_small
                   (to_signed b (fst (reservation_of ext) - size))
                   (to_signed b size)), r0, p)
      else
        match reserve_mmap b K r p with
        | None => (Failed (err_couldnt_reserve (to_signed b size)), r0,
                   emit [reserve_call b K r p] p)
        | Some start =>
          (Done,
           set_load r start size (wrap b (start - min_vaddr)) (loaded_phdr_ r),
           if (min_vaddr =? nullptr) && strstr (name_ r) "libc.so" then
             init_seccomp b K NR
               (with_mem (write_GUEST_LIBC_SIZE b size
                            (write_GUEST_LIBC_ADDR b (reserve_map_addr b r p)
                                                   (mem p)))
                         (emit [reserve_call b K r p] p))
           else emit [reserve_call b K r p] p)
        end
    else
      (Done,
       set_load r (match ext with Some e => reserved_addr e | None => nullptr end)
                size
                (wrap b ((match ext with Some e => reserved_addr e
                                       | None => nullptr end) - min_vaddr))
                (loaded_phdr_ r), p).
Proof.
  cbn zeta.
  unfold ReserveAddressSpace, reserve_call, reserve_mmap, reserve_map_addr,
         load_size_of, min_vaddr_of.
  destruct (phdr_table_get_load_size b (phdr_entries r)) as [[sz mn] mx].
  cbn [fst snd].
  destruct (reservation_of ext) as [rs hint]. cbn [fst snd].
  destruct (sz =? 0); [reflexivity|].
  destruct (sz >? rs); [|reflexivity].
  destruct (negb hint); [reflexivity|].
  destruct ((mn =? nullptr) && strstr (name_ r) "libc.so"); cbn [mem emit];
    destruct (sys_mmap K _ _ _ _ _ _); reflexivity.
Qed.

Lemma init_seccomp_eq (p : process) :
  init_seccomp b K NR p = emit (seccomp_calls b K NR (maps b p)) p.
Proof.
  unfold init_seccomp, seccomp_calls.
  destruct (sys_prctl_seccomp K (filter NR (maps b p) b) =? 0); reflexivity.
Qed.

End ReserveProofs.

Lemma load_size_in_word (b : abi) (t : list Phdr) :
  in_word b (load_size_of b t).
Proof.
  unfold load_size_of, phdr_table_get_load_size.
  destruct (fold_left _ _ _) as [[mn mx] f]. cbn [fst]. apply wrap_in_word.
Qed.

Lemma to_signed_small (b : abi) (x : Z) :
  0 <= x < modulus b / 2 -> to_signed b x = x.
Proof.
  intros H. unfold to_signed.
  assert (Hm : modulus b / 2 < modulus b) by (destruct b; vm_compute; reflexivity).
  rewrite wrap_small by (unfold in_word; lia).
  destruct (Z.ltb_spec x (modulus b / 2)); [reflexivity|lia].
Qed.

(** C4 (amended).  Against a caller's reservation that is smaller than the
    load size: a hint is ignored, the call behaves as with no [extinfo] at
    all, asks [mmap] for an anonymous [PROT_NONE] mapping of the whole load
    size and succeeds exactly when that [mmap] does; an explicit
    reservation makes the call fail with the address-space error, without
    any [mmap], and the message prints the size needed as a signed number
    ([%zd]), so it names that size whenever the size is below half the
    address space.  An explicit reservation that is large enough is used
    as it is: the load starts at [reserved_addr]. *)
Theorem reserve_against_reservation (b : abi) (K : kernel) (NR : syscall -> Z)
        (e : android_dlextinfo) (r : ElfReader) (p : process) :
  let size := load_size_of b (phdr_entries r) in
  let min_vaddr := min_vaddr_of b (phdr_entries r) in
  let res := ReserveAddressSpace b K NR (Some e) r p in
  size <> 0 ->
  (has_flag (flags e) ANDROID_DLEXT_RESERVED_ADDRESS = false ->
   has_flag (flags e) ANDROID_DLEXT_RESERVED_ADDRESS_HINT = true ->
   reserved_size e < size ->
   res = ReserveAddressSpace b K NR None r p /\
   (exists rest, log (snd res) = log p ++ reserve_call b K r p :: rest) /\
   (forall start, reserve_mmap b K r p = Some start ->
      fst (fst res) = Done /\
      load_start_ (snd (fst res)) = start /\
      load_size_ (snd (fst res)) = size /\
      load_bias_ (snd (fst res)) = wrap b (start - min_vaddr)) /\
   (reserve_mmap b K r p = None ->
      fst (fst res) = Failed (err_couldnt_reserve (to_signed b size)))) /\
  (has_flag (flags e) ANDROID_DLEXT_RESERVED_ADDRESS = true ->
   reserved_size e < size ->
   (exists reported,
      fst (fst res)
      = Failed (err_reserved_too_small reported (to_signed b size)) /\
      classify (err_reserved_too_small reported (to_signed b size))
      = AddressSpaceError) /\
   (size < modulus b / 2 -> to_signed b size = size) /\
   snd res = p) /\
  (has_flag (flags e) ANDROID_DLEXT_RESERVED_ADDRESS = true ->
   size <= reserved_size e ->
   fst (fst res) = Done /\
   load_start_ (snd (fst res)) = reserved_addr e /\
   load_size_ (snd (fst res)) = size /\
   snd res = p).
Proof.
  cbn zeta. intros Hsz.
  pose proof (load_size_in_word b (phdr_entries r)) as [Hpos _].
  rewrite !ReserveAddressSpace_eq. cbn zeta.
  destruct (Z.eqb_spec (load_size_of b (phdr_entries r)) 0) as [|_];
    [contradiction|].
  unfold reservation_of. split; [|split].
  - intros H1 H2 Hlt. rewrite H1, H2. cbn [fst snd negb].
    destruct (Z.gtb_spec (load_size_of b (phdr_entries r)) (reserved_size e));
      [|lia].
    destruct (Z.gtb_spec (load_size_of b (phdr_entries r)) 0); [|lia].
    split; [reflexivity|].
    destruct (reserve_mmap b K r p) as [start|] eqn:E.
    + split.
      * destruct ((min_vaddr_of b (phdr_entries r) =? nullptr)
                  && strstr (name_ r) "libc.so"); cbn [snd].
        -- rewrite init_seccomp_eq. cbn [log emit with_mem].
           eexists. rewrite <- app_assoc. reflexivity.
        -- exists []. reflexivity.
      * split; [|discriminate].
        intros s [= <-]. repeat split.
    + split; [exists []; reflexivity|].
      split; [discriminate|reflexivity].
  - intros H1 Hlt. rewrite H1. cbn [fst snd negb].
    destruct (Z.gtb_spec (load_size_of b (phdr_entries r)) (reserved_size e));
      [|lia].
    split; [eexists; split; reflexivity|].
    split; [|reflexivity]. intros Hhalf. apply to_signed_small. lia.
  - intros H1 Hle. rewrite H1. cbn [fst snd negb].
    destruct (Z.gtb_spec (load_size_of b (phdr_entries r)) (reserved_size e));
      [lia|].
    repeat split.
Qed.

Lemma reserve_against_reservation_witness :
  fst (fst (ReserveAddressSpace ILP32 granting_kernel NR_arm
              (Some sample_explicit_reservation) sample_reader
              (quiet_process (fun _ => 0)))) = Done /\
  load_start_ (snd (fst (ReserveAddressSpace ILP32 granting_kernel NR_arm
              (Some sample_explicit_reservation) sample_reader
              (quiet_process (fun _ => 0))))) = 0x50000000.
Proof.
  destruct (reserve_against_reservation ILP32 granting_kernel NR_arm
              sample_explicit_reservation sample_reader
              (quiet_process (fun _ => 0)) ltac:(discriminate))
    as (_ & _ & H).
  destruct (H eq_refl ltac:(discriminate)) as (H1 & H2 & _).
  split; assumption.
Defined.

(** C4 as stated fails in two places.  With no address space left the
    fallback after a too small hint does not succeed; and the number the
    error reports for a too small explicit reservation is
    [reserved_size - load_size], here -0x3000, not the shortfall 0x3000. *)
Lemma reserve_fallback_can_fail :
  let size := load_size_of ILP32 (phdr_entries sample_reader) in
  size = 0x4000 /\
  reserved_size sample_small_hint < size /\
  fst (fst (ReserveAddressSpace ILP32 exhausted_kernel NR_arm
              (Some sample_small_hint) sample_reader
              (quiet_process (fun _ => 0))))
  = Failed (err_couldnt_reserve 0x4000) /\
  size - reserved_size sample_small_reservation = 0x3000 /\
  fst (fst (ReserveAddressSpace ILP32 granting_kernel NR_arm
              (Some sample_small_reservation) sample_reader
              (quiet_process (fun _ => 0))))
  = Failed (err_reserved_too_small (-0x3000) 0x4000).
Proof.
  cbn zeta.
  split; [vm_compute; reflexivity|]. split; [vm_compute; reflexivity|].
  split; [vm_compute; reflexivity|]. split; vm_compute; reflexivity.
Qed.

Lemma maps_in_word (b : abi) (p : process) :
  in_word b (GUEST_LIBC_ADDR (maps b p)).
Proof. apply load_uintptr_in_word. Qed.

(** C3 (amended).  For an image taken for the guest runtime (its name
    contains "libc.so" and its minimum address is null), with a non-zero
    load size, [ReserveAddressSpace] does one of three things.

    With no explicit reservation, and any hint smaller than the load
    size, it asks [mmap] for the guest-runtime address held in the shared
    record, as a placement request without [MAP_FIXED].  If the mapping
    fails the call fails and nothing else happens.  If it succeeds the
    load starts where [mmap] placed it, the record's guest-runtime members
    receive the address asked for and the load size (no other byte of
    memory changes), and [prctl] is called with the filter built from the
    record as just written, still inside [ReserveAddressSpace]: in [Load]
    every call of [LoadSegments] comes after it.  A [prctl] that fails is
    reported through [__libc_fatal_no_abort] and the reservation succeeds
    all the same.

    With an explicit reservation smaller than the load size the call
    fails with the address-space error before any [mmap]; with a
    reservation, explicit or hint, that covers the load size the image
    is placed in it.  In both cases the record is not written and [prctl]
    is not called. *)
Theorem guest_runtime_reservation (b : abi) (K : kernel) (NR : syscall -> Z)
        (ext : option android_dlextinfo) (r : ElfReader) (p : process) :
  let size := load_size_of b (phdr_entries r) in
  let fixed := GUEST_LIBC_ADDR (maps b p) in
  let res := ReserveAddressSpace b K NR ext r p in
  let prog := filter NR (maps b (snd res)) b in
  size <> 0 -> is_guest_runtime b r ->
  (fst (reservation_of ext) < size -> snd (reservation_of ext) = true ->
   reserve_map_addr b r p = fixed /\
   (reserve_mmap b K r p = None ->
    fst (fst res) = Failed (err_couldnt_reserve (to_signed b size)) /\
    mem (snd res) = mem p /\
    log (snd res) = log p ++ [reserve_call b K r p]) /\
   (forall start, reserve_mmap b K r p = Some start ->
    fst (fst res) = Done /\
    load_start_ (snd (fst res)) = start /\
    load_size_ (snd (fst res)) = size /\
    maps b (snd res)
    = set_GUEST_LIBC_SIZE size (set_GUEST_LIBC_ADDR fixed (maps b p)) /\
    (forall a, ~ (member_addr b 6 <= a < member_addr b 8) ->
       mem (snd res) a = mem p a) /\
    (start = fixed ->
     GUEST_LIBC_ADDR (maps b (snd res)) = load_start_ (snd (fst res))) /\
    GUEST_LIBC_SIZE (maps b (snd res)) = load_size_ (snd (fst res)) /\
    (sys_prctl_seccomp K prog = 0 ->
     log (snd res)
     = log p ++ [reserve_call b K r p; call_prctl_seccomp prog 0]) /\
    (sys_prctl_seccomp K prog <> 0 ->
     log (snd res)
     = log p ++ [reserve_call b K r p;
                 call_prctl_seccomp prog (sys_prctl_seccomp K prog);
                 call_libc_fatal_no_abort (sys_errno K)]) /\
    exists rest,
      log (snd (Load_from_reserve b K NR ext r p)) = log (snd res) ++ rest)) /\
  (fst (reservation_of ext) < size -> snd (reservation_of ext) = false ->
   fst (fst res)
   = Failed (err_reserved_too_small
               (to_signed b (fst (reservation_of ext) - size))
               (to_signed b size)) /\
   snd res = p) /\
  (size <= fst (reservation_of ext) ->
   fst (fst res) = Done /\
   load_start_ (snd (fst res))
   = match ext with Some e => reserved_addr e | None => nullptr end /\
   load_size_ (snd (fst res)) = size /\
   snd res = p).
Proof.
  cbn zeta. intros Hsz [Hmin Hname].
  pose proof (load_size_in_word b (phdr_entries r)) as Hword.
  assert (Haddr : reserve_map_addr b r p = GUEST_LIBC_ADDR (maps b p)).
  { unfold reserve_map_addr. rewrite Hmin, Hname. reflexivity. }
  unfold Load_from_reserve, and_then.
  rewrite ReserveAddressSpace_eq. cbn zeta.
  destruct (Z.eqb_spec (load_size_of b (phdr_entries r)) 0) as [|_];
    [contradiction|].
  split; [|split].
  - intros Hlt Hhint.
    destruct (Z.gtb_spec (load_size_of b (phdr_entries r))
                         (fst (reservation_of ext))); [|lia].
    rewrite Hhint, Hmin, Hname. cbn [negb Z.eqb andb nullptr].
    rewrite init_seccomp_eq, Haddr.
    split; [reflexivity|]. split.
    + intros ->. cbn [fst snd]. split; [|split]; reflexivity.
    + intros start ->.
      cbn [fst snd load_start_ load_size_ set_load].
      assert (Em : maps b (emit (seccomp_calls b K NR
                     (maps b (with_mem
                        (write_GUEST_LIBC_SIZE b (load_size_of b (phdr_entries r))
                           (write_GUEST_LIBC_ADDR b (GUEST_LIBC_ADDR (maps b p))
                              (mem p)))
                        (emit [reserve_call b K r p] p))))
                     (with_mem
                        (write_GUEST_LIBC_SIZE b (load_size_of b (phdr_entries r))
                           (write_GUEST_LIBC_ADDR b (GUEST_LIBC_ADDR (maps b p))
                              (mem p)))
                        (emit [reserve_call b K r p] p)))
                   = set_GUEST_LIBC_SIZE (load_size_of b (phdr_entries r))
                       (set_GUEST_LIBC_ADDR (GUEST_LIBC_ADDR (maps b p))
                          (maps b p))).
      { unfold maps at 1. cbn [mem emit with_mem].
        rewrite linker_maps_written.
        rewrite (wrap_small b _ Hword), (wrap_small b _ (maps_in_word b p)).
        reflexivity. }
      rewrite Em.
      set (m' := set_GUEST_LIBC_SIZE (load_size_of b (phdr_entries r))
                   (set_GUEST_LIBC_ADDR (GUEST_LIBC_ADDR (maps b p))
                      (maps b p))) in *.
      assert (Em0 : maps b (with_mem
                        (write_GUEST_LIBC_SIZE b (load_size_of b (phdr_entries r))
                           (write_GUEST_LIBC_ADDR b (GUEST_LIBC_ADDR (maps b p))
                              (mem p)))
                        (emit [reserve_call b K r p] p)) = m').
      { rewrite <- Em. reflexivity. }
      rewrite Em0 in *.
      split; [reflexivity|]. split; [reflexivity|]. split; [reflexivity|].
      split; [reflexivity|].
      split.
      { intros a Ha. cbn [mem emit with_mem]. apply record_write_frame, Ha. }
      split; [intros ->; reflexivity|]. split; [reflexivity|].
      cbn [log emit with_mem]. unfold seccomp_calls.
      split; [|split].
      * intros E0. rewrite E0. cbn [Z.eqb]. rewrite <- app_assoc. reflexivity.
      * intros E0. destruct (Z.eqb_spec (sys_prctl_seccomp K (filter NR m' b)) 0);
          [contradiction|]. rewrite <- app_assoc. reflexivity.
      * pose proof (segments_then_phdr_extends b K
                      (set_load r start (load_size_of b (phdr_entries r))
                         (wrap b (start - nullptr)) (loaded_phdr_ r))
                      (emit (if sys_prctl_seccomp K (filter NR m' b) =? 0
                             then [call_prctl_seccomp (filter NR m' b)
                                     (sys_prctl_seccomp K (filter NR m' b))]
                             else [call_prctl_seccomp (filter NR m' b)
                                     (sys_prctl_seccomp K (filter NR m' b));
                                   call_libc_fatal_no_abort (sys_errno K)])
                            (with_mem
                               (write_GUEST_LIBC_SIZE b
                                  (load_size_of b (phdr_entries r))
                                  (write_GUEST_LIBC_ADDR b
                                     (GUEST_LIBC_ADDR (maps b p)) (mem p)))
                               (emit [reserve_call b K r p] p))))
          as [rest Hrest].
        exists rest. unfold and_then in Hrest. rewrite Hrest. reflexivity.
  - intros Hlt Hexp.
    destruct (Z.gtb_spec (load_size_of b (phdr_entries r))
                         (fst (reservation_of ext))); [|lia].
    rewrite Hexp. cbn [negb fst snd]. split; reflexivity.
  - intros Hle.
    destruct (Z.gtb_spec (load_size_of b (phdr_entries r))
                         (fst (reservation_of ext))); [lia|].
    cbn [fst snd load_start_ load_size_ set_load]. repeat split.
Qed.

Lemma sample_libc_is_guest_runtime : is_guest_runtime ILP32 sample_libc_reader.
Proof. split; reflexivity. Qed.

Lemma guest_runtime_reservation_witness :
  let res := ReserveAddressSpace ILP32 granting_kernel NR_arm None
               sample_libc_reader (quiet_process (fun _ => 0)) in
  fst (fst res) = Done /\
  load_start_ (snd (fst res)) = 0xbcc60000 /\
  GUEST_LIBC_SIZE (maps ILP32 (snd res)) = 0x4000.
Proof.
  cbn zeta.
  destruct (guest_runtime_reservation ILP32 granting_kernel NR_arm None
              sample_libc_reader (quiet_process (fun _ => 0))
              ltac:(discriminate) sample_libc_is_guest_runtime)
    as (H & _ & _).
  destruct (H eq_refl eq_refl) as (_ & _ & H').
  destruct (H' 0xbcc60000 ltac:(vm_compute; reflexivity))
    as (H1 & H2 & H3 & _ & _ & _ & H6 & _).
  split; [exact H1|]. split; [exact H2|]. rewrite H6. exact H3.
Defined.

(** C3 as stated fails when the caller brings a reservation that covers
    the load: the guest runtime image is then placed in that reservation,
    the shared record keeps its old contents and no filter is installed. *)
Lemma guest_runtime_in_caller_reservation :
  let p := quiet_process (fun _ => 0) in
  let res := ReserveAddressSpace ILP32 granting_kernel NR_arm
               (Some sample_explicit_reservation) sample_libc_reader p in
  is_guest_runtime ILP32 sample_libc_reader /\
  GUEST_LIBC_ADDR (maps ILP32 p) = 0xbcc60000 /\
  fst (fst res) = Done /\
  load_start_ (snd (fst res)) = 0x50000000 /\
  load_size_ (snd (fst res)) = 0x4000 /\
  GUEST_LIBC_SIZE (maps ILP32 (snd res)) = 0x130000 /\
  log (snd res) = [].
Proof.
  cbn zeta.
  split; [exact sample_libc_is_guest_runtime|].
  split; [vm_compute; reflexivity|]. split; [vm_compute; reflexivity|].
  split; [vm_compute; reflexivity|]. split; [vm_compute; reflexivity|].
  split; vm_compute; reflexivity.
Qed.

(** The address is passed to [mmap] without [MAP_FIXED]: a kernel that
    places the mapping elsewhere is followed, while the shared record
    receives the address that was asked for. *)
Lemma guest_runtime_placement_not_forced :
  let p := quiet_process (fun _ => 0) in
  let res := ReserveAddressSpace ILP32 displacing_kernel NR_arm None
               sample_libc_reader p in
  fst (fst res) = Done /\
  load_start_ (snd (fst res)) = 0xbcc70000 /\
  GUEST_LIBC_ADDR (maps ILP32 (snd res)) = 0xbcc60000.
Proof.
  cbn zeta.
  split; [vm_compute; reflexivity|]. split; vm_compute; reflexivity.
Qed.

(** ** Sharing relro pages *)


Lemma pages_len_exact (m : Z) : pages_len (PAGE_SIZE * m) = PAGE_SIZE * m.
Proof.
  unfold pages_len, PAGE_SIZE. f_equal.
  replace (4096 * m + 4096 - 1) with (4095 + m * 4096) by lia.
  rewrite Z.div_add by lia. reflexivity.
Qed.

Section RelroScan.

Variable b : abi.
Variable K : kernel.
Variables fd file_offset mem_base n : Z.
Hypothesis n_nonneg : 0 <= n.
Hypothesis size_in_word : PAGE_SIZE * n < modulus b.

Let size := PAGE_SIZE * n.






End RelroScan.

Section RelroRegionProofs.

Variable b : abi.
Variable K : kernel.
Variables fd file_offset mem_base n : Z.
Hypothesis n_nonneg : 0 <= n.
Hypothesis size_in_word : PAGE_SIZE * n < modulus b.
Variable mm0 : memory.






End RelroRegionProofs.




Lemma PAGE_START_aligned (b : abi) (x : Z) :
  exists q, PAGE_START b x = PAGE_SIZE * q.
Proof.
  exists (PAGE_START b x / PAGE_SIZE).
  assert (H : PAGE_START b x mod PAGE_SIZE = 0).
  { unfold PAGE_START. change PAGE_SIZE with (2 ^ 12).
    rewrite <- Z.land_ones by lia. rewrite <- Z.land_assoc.
    replace (Z.land (PAGE_MASK b) (Z.ones 12)) with 0 by (destruct b; reflexivity).
    apply Z.land_0_r. }
  pose proof (Z.div_mod (PAGE_START b x) PAGE_SIZE ltac:(discriminate)). lia.
Qed.

(** The size of a relro region is a whole number of pages, whatever the
    entry and the bias. *)
Lemma relro_size_pages (b : abi) (load_bias : Z) (phdr : Phdr) :
  exists n, 0 <= n /\ relro_size b load_bias phdr = PAGE_SIZE * n /\
            PAGE_SIZE * n < modulus b.
Proof.
  unfold relro_size, seg_page_end_of, seg_page_start_of, PAGE_END, wrap.
  destruct (PAGE_START_aligned b (p_vaddr phdr)) as [q1 ->].
  destruct (PAGE_START_aligned b
              (((p_vaddr phdr + p_memsz phdr) mod modulus b
                + (PAGE_SIZE - 1)) mod modulus b)) as [q2 ->].
  rewrite <- Zminus_mod. destruct (modulus_page b) as (q & Hq & Hpos).
  replace (PAGE_SIZE * q2 + load_bias - (PAGE_SIZE * q1 + load_bias))
    with (PAGE_SIZE * (q2 - q1)) by lia.
  rewrite Hq, Z.mul_mod_distr_l by (unfold PAGE_SIZE; lia).
  pose proof (Z.mod_pos_bound (q2 - q1) q Hpos).
  exists ((q2 - q1) mod q). unfold PAGE_SIZE. split; [lia|]. split; [reflexivity|nia].
Qed.



(** ** The seccomp filter *)

Section BpfSteps.

Variable d : seccomp_data.

Lemma run_skip (i : sock_filter) (rest : list sock_filter) (n : nat) (A : Z) :
  run (i :: rest) (S n) A d = run rest n A d.
Proof. reflexivity. Qed.

Lemma run_ld (off : Z) (rest : list sock_filter) (A : Z) :
  run (BPF_STMT (BPF_LD ||| BPF_W ||| BPF_ABS) off :: rest) 0%nat A d
  = match load_word d (u32 off) with
    | Some v => run rest 0%nat v d
    | None => None
    end.
Proof. reflexivity. Qed.

Lemma run_ret (v : Z) (rest : list sock_filter) (A : Z) :
  run (BPF_STMT (BPF_RET ||| BPF_K) v :: rest) 0%nat A d = Some (u32 v).
Proof. reflexivity. Qed.

Lemma run_jeq (v jt jf : Z) (rest : list sock_filter) (A : Z) :
  run (BPF_JUMP (BPF_JMP ||| BPF_JEQ ||| BPF_K) v jt jf :: rest) 0%nat A d
  = if A =? u32 v then run rest (Z.to_nat (jt mod 2 ^ 8)) A d
    else run rest (Z.to_nat (jf mod 2 ^ 8)) A d.
Proof.
  change (run rest (Z.to_nat (if A =? u32 v then jt mod 2 ^ 8 else jf mod 2 ^ 8)) A d
          = if A =? u32 v then run rest (Z.to_nat (jt mod 2 ^ 8)) A d
            else run rest (Z.to_nat (jf mod 2 ^ 8)) A d).
  destruct (A =? u32 v); reflexivity.
Qed.

Lemma run_jgt (v jt jf : Z) (rest : list sock_filter) (A : Z) :
  run (BPF_JUMP (BPF_JMP ||| BPF_JGT ||| BPF_K) v jt jf :: rest) 0%nat A d
  = if A >? u32 v then run rest (Z.to_nat (jt mod 2 ^ 8)) A d
    else run rest (Z.to_nat (jf mod 2 ^ 8)) A d.
Proof.
  change (run rest (Z.to_nat (if A >? u32 v then jt mod 2 ^ 8 else jf mod 2 ^ 8)) A d
          = if A >? u32 v then run rest (Z.to_nat (jt mod 2 ^ 8)) A d
            else run rest (Z.to_nat (jf mod 2 ^ 8)) A d).
  destruct (A >? u32 v); reflexivity.
Qed.

Lemma run_jge (v jt jf : Z) (rest : list sock_filter) (A : Z) :
  run (BPF_JUMP (BPF_JMP ||| BPF_JGE ||| BPF_K) v jt jf :: rest) 0%nat A d
  = if A >=? u32 v then run rest (Z.to_nat (jt mod 2 ^ 8)) A d
    else run rest (Z.to_nat (jf mod 2 ^ 8)) A d.
Proof.
  change (run rest (Z.to_nat (if A >=? u32 v then jt mod 2 ^ 8 else jf mod 2 ^ 8)) A d
          = if A >=? u32 v then run rest (Z.to_nat (jt mod 2 ^ 8)) A d
            else run rest (Z.to_nat (jf mod 2 ^ 8)) A d).
  destruct (A >=? u32 v); reflexivity.
Qed.

(** The syscall part traps exactly on the numbers of its chain. *)
Lemma run_deny_chain (ks : list Z) (tail : list sock_filter) (A : Z) :
  run (deny_chain ks ++ tail) 0%nat A d
  = if existsb (fun v => A =? u32 v) ks then Some SECCOMP_RET_TRAP
    else run tail 0%nat A d.
Proof.
  induction ks as [|v ks IH]; [reflexivity|].
  unfold deny_chain in *. cbn [flat_map app existsb].
  rewrite run_jeq. destruct (A =? u32 v); cbn [orb].
  - change (Z.to_nat (0 mod 2 ^ 8)) with 0%nat. rewrite run_ret. reflexivity.
  - change (Z.to_nat (1 mod 2 ^ 8)) with 1%nat. rewrite run_skip. exact IH.
Qed.

End BpfSteps.

Lemma filter_syscalls_chain (NR : syscall -> Z) (m : linker_maps_addr_t)
      (b : abi) :
  filter NR m b
  = (match b with ILP32 => filter_window_32 m | LP64 => filter_window_64 m end)
    ++ BPF_STMT (BPF_LD ||| BPF_W ||| BPF_ABS) offsetof_nr
    :: deny_chain (map NR (denylist b))
    ++ [BPF_STMT (BPF_RET ||| BPF_K) SECCOMP_RET_ALLOW].
Proof. destruct b; reflexivity. Qed.

Lemma denylisted_dec_spec (NR : syscall -> Z) (b : abi) (n : Z) :
  denylisted_dec NR b n = true <-> denylisted NR b n.
Proof.
  unfold denylisted_dec, denylisted. rewrite existsb_exists. split.
  - intros (v & Hv & E). apply in_map_iff in Hv. destruct Hv as (s & <- & Hs).
    exists s. split; [exact Hs | apply Z.eqb_eq, E].
  - intros (s & Hs & E). exists (NR s).
    split; [apply in_map, Hs | apply Z.eqb_eq, E].
Qed.

(** Once the window test has let a syscall through, the verdict is the
    denylist's. *)
Lemma run_syscall_part (NR : syscall -> Z) (b : abi) (d : seccomp_data) (A : Z) :
  run (BPF_STMT (BPF_LD ||| BPF_W ||| BPF_ABS) offsetof_nr
       :: deny_chain (map NR (denylist b))
       ++ [BPF_STMT (BPF_RET ||| BPF_K) SECCOMP_RET_ALLOW]) 0%nat A d
  = if denylisted_dec NR b (nr d) then Some SECCOMP_RET_TRAP
    else Some SECCOMP_RET_ALLOW.
Proof.
  rewrite run_ld. change (load_word d (u32 offsetof_nr)) with (Some (u32 (nr d))).
  cbv iota. rewrite run_deny_chain. reflexivity.
Qed.

Section BpfLoads.

Variable d : seccomp_data.

Lemma run_ld_nr (rest : list sock_filter) (A : Z) :
  run (BPF_STMT (BPF_LD ||| BPF_W ||| BPF_ABS) offsetof_nr :: rest) 0%nat A d
  = run rest 0%nat (u32 (nr d)) d.
Proof. reflexivity. Qed.

Lemma run_ld_arch (rest : list sock_filter) (A : Z) :
  run (BPF_STMT (BPF_LD ||| BPF_W ||| BPF_ABS) offsetof_arch :: rest) 0%nat A d
  = run rest 0%nat (u32 (arch d)) d.
Proof. reflexivity. Qed.

Lemma run_ld_ip_lo (rest : list sock_filter) (A : Z) :
  run (BPF_STMT (BPF_LD ||| BPF_W ||| BPF_ABS) offsetof_instruction_pointer
       :: rest) 0%nat A d
  = run rest 0%nat (lo32 (instruction_pointer d)) d.
Proof. reflexivity. Qed.

Lemma run_ld_ip_hi (rest : list sock_filter) (A : Z) :
  run (BPF_STMT (BPF_LD ||| BPF_W ||| BPF_ABS)
                (offsetof_instruction_pointer + 4) :: rest) 0%nat A d
  = run rest 0%nat (hi32 (instruction_pointer d)) d.
Proof. reflexivity. Qed.

End BpfLoads.

Ltac bpf_step :=
  first
    [ rewrite run_skip
    | rewrite run_ret
    | rewrite run_ld_nr
    | rewrite run_ld_arch
    | rewrite run_ld_ip_lo
    | rewrite run_ld_ip_hi
    | rewrite run_jeq
    | rewrite run_jgt
    | rewrite run_jge ];
  repeat match goal with
         | |- context [Z.to_nat (?j mod 2 ^ 8)] =>
           let v := eval vm_compute in (Z.to_nat (j mod 2 ^ 8)) in
           change (Z.to_nat (j mod 2 ^ 8)) with v
         end.

Ltac bpf_branch :=
  match goal with
  | |- context [if ?a =? ?c then _ else _] => destruct (Z.eqb_spec a c)
  | |- context [if ?a >? ?c then _ else _] => destruct (Z.gtb_spec a c)
  | |- context [if ?a >=? ?c then _ else _] => destruct (Z.geb_spec a c)
  end.

Ltac bpf_run := repeat (bpf_step; try bpf_branch).

Lemma u32_small (x : Z) : 0 <= x < 4294967296 -> u32 x = x.
Proof. intros H. apply Z.mod_small. exact H. Qed.

Lemma u32_range (x : Z) : 0 <= u32 x < 4294967296.
Proof. apply Z.mod_pos_bound. reflexivity. Qed.

Lemma u32_idem (x : Z) : u32 (u32 x) = u32 x.
Proof. apply u32_small, u32_range. Qed.

Lemma split64 (x : Z) :
  0 <= x < 18446744073709551616 ->
  x = 4294967296 * hi32 x + lo32 x /\
  0 <= lo32 x < 4294967296 /\ 0 <= hi32 x < 4294967296 /\
  hi32 x = x / 4294967296.
Proof.
  intros H. unfold hi32, lo32, u32. rewrite Z.shiftr_div_pow2 by lia.
  change (2 ^ 32) with 4294967296.
  pose proof (Z.div_mod x 4294967296 ltac:(lia)).
  pose proof (Z.mod_pos_bound x 4294967296 ltac:(lia)).
  assert (0 <= x / 4294967296 < 4294967296).
  { split; [apply Z.div_pos; lia|]. apply Z.div_lt_upper_bound; lia. }
  rewrite (Z.mod_small (x / 4294967296)) by lia. lia.
Qed.

Lemma land_low (x : Z) : u32 (Z.land x 0xFFFFFFFF) = lo32 x.
Proof.
  unfold lo32. change 0xFFFFFFFF with (Z.ones 32).
  rewrite Z.land_ones by lia. apply u32_idem.
Qed.

Section Window.

Variable m : linker_maps_addr_t.
Variable d : seccomp_data.
Variable rest : list sock_filter.

Let P := prelinker_addr m.
Let L := linker_maps_last_addr m.
Let ip := instruction_pointer d.
Let tail := BPF_STMT (BPF_LD ||| BPF_W ||| BPF_ABS) offsetof_nr :: rest.

(** The 32-bit prologue. *)
Lemma window_32 (A : Z) :
  0 <= P < 4294967296 -> 0 <= L < 4294967296 -> 0 <= ip < 4294967296 ->
  arch d = AUDIT_ARCH_ARM -> 0x400000 <= ip ->
  run (filter_window_32 m ++ tail) 0%nat A d
  = if (P <=? ip) && (ip <? L) then Some SECCOMP_RET_ALLOW
    else run rest 0%nat (u32 (nr d)) d.
Proof.
  intros HP HL Hip Harch Hlow.
  unfold filter_window_32, tail, PRELINKER_ADDR, LINKER_MAPS_LAST_ADDR.
  fold P L. cbn [app].
  pose proof (u32_small P HP) as EP. pose proof (u32_small L HL) as EL.
  assert (Eip : lo32 (instruction_pointer d) = ip) by (apply u32_small, Hip).
  assert (Et : u32 0x400000 = 0x400000) by reflexivity.
  bpf_step. rewrite Harch. bpf_step.
  rewrite Z.eqb_refl. bpf_step.
  bpf_run;
    destruct (Z.leb_spec P ip); destruct (Z.ltb_spec ip L); cbn [andb];
    first [reflexivity | exfalso; lia].
Qed.

(** The 64-bit prologue; [hi32 ip = hi32 L] is the case in which its
    comparison against the end of the window is the direct one. *)
Lemma window_64 (A : Z) :
  0 <= P < 18446744073709551616 -> 0 <= L < 18446744073709551616 ->
  0 <= ip < 18446744073709551616 ->
  arch d = AUDIT_ARCH_AARCH64 -> 0x500000 <= ip ->
  run (filter_window_64 m ++ tail) 0%nat A d
  = if (P <=? ip) && (hi32 ip =? hi32 L) && (lo32 ip <? lo32 L)
    then Some SECCOMP_RET_ALLOW
    else run rest 0%nat (u32 (nr d)) d.
Proof.
  intros HP HL Hip Harch Hlow.
  unfold filter_window_64, tail, PRELINKER_ADDR, LINKER_MAPS_LAST_ADDR.
  fold P L. cbn [app].
  destruct (split64 P HP) as (SP & SP1 & SP2 & _).
  destruct (split64 L HL) as (SL & SL1 & SL2 & _).
  destruct (split64 ip Hip) as (Sip & Sip1 & Sip2 & _).
  fold (hi32 P) (hi32 L). rewrite !land_low.
  pose proof (u32_small _ SP1) as EP1. pose proof (u32_small _ SP2) as EP2.
  pose proof (u32_small _ SL1) as EL1. pose proof (u32_small _ SL2) as EL2.
  assert (Et : u32 0x500000 = 0x500000) by reflexivity.
  assert (E0 : u32 0 = 0) by reflexivity.
  unfold ip in *.
  bpf_step. rewrite Harch. bpf_step.
  rewrite Z.eqb_refl. bpf_step.
  bpf_run;
    destruct (Z.leb_spec P (instruction_pointer d));
    destruct (Z.eqb_spec (hi32 (instruction_pointer d)) (hi32 L));
    destruct (Z.ltb_spec (lo32 (instruction_pointer d)) (lo32 L)); cbn [andb];
    first [reflexivity | exfalso; lia].
Qed.

End Window.

Lemma in_word_32 (x : Z) : in_word ILP32 x <-> 0 <= x < 4294967296.
Proof. reflexivity. Qed.

Lemma in_word_64 (x : Z) : in_word LP64 x <-> 0 <= x < 18446744073709551616.
Proof. reflexivity. Qed.

(** What the whole program returns once the architecture matches and the
    pointer is not below the threshold. *)
Lemma filter_verdict (b : abi) (NR : syscall -> Z) (m : linker_maps_addr_t)
      (d : seccomp_data) :
  in_word b (PRELINKER_ADDR m) -> in_word b (LINKER_MAPS_LAST_ADDR m) ->
  in_word b (instruction_pointer d) ->
  arch d = AUDIT_ARCH b ->
  low_address_threshold b <= instruction_pointer d ->
  evaluate (filter NR m b) d
  = if (PRELINKER_ADDR m <=? instruction_pointer d)
       && (hi32 (instruction_pointer d) =? hi32 (LINKER_MAPS_LAST_ADDR m))
       && (lo32 (instruction_pointer d) <? lo32 (LINKER_MAPS_LAST_ADDR m))
    then Some SECCOMP_RET_ALLOW
    else if denylisted_dec NR b (nr d) then Some SECCOMP_RET_TRAP
         else Some SECCOMP_RET_ALLOW.
Proof.
  intros HP HL Hip Harch Hlow. unfold evaluate.
  rewrite filter_syscalls_chain.
  unfold PRELINKER_ADDR, LINKER_MAPS_LAST_ADDR in *.
  destruct b.
  - apply (proj1 (in_word_32 _)) in HP, HL, Hip.
    rewrite (window_32 m d _ 0 HP HL Hip Harch Hlow).
    unfold hi32, lo32. rewrite !Z.shiftr_div_pow2 by lia.
    rewrite !(Z.div_small _ (2 ^ 32)) by (change (2 ^ 32) with 4294967296; lia).
    rewrite Z.eqb_refl, andb_true_r.
    rewrite (u32_small (instruction_pointer d)),
            (u32_small (linker_maps_last_addr m)) by lia.
    destruct ((prelinker_addr m <=? instruction_pointer d)
              && (instruction_pointer d <? linker_maps_last_addr m));
      [reflexivity|].
    rewrite <- (run_syscall_part NR ILP32 d (u32 (nr d))).
    rewrite run_ld_nr. reflexivity.
  - apply (proj1 (in_word_64 _)) in HP, HL, Hip.
    rewrite (window_64 m d _ 0 HP HL Hip Harch Hlow).
    destruct ((prelinker_addr m <=? instruction_pointer d)
              && (hi32 (instruction_pointer d) =? hi32 (linker_maps_last_addr m))
              && (lo32 (instruction_pointer d) <? lo32 (linker_maps_last_addr m)));
      [reflexivity|].
    rewrite <- (run_syscall_part NR LP64 d (u32 (nr d))).
    rewrite run_ld_nr. reflexivity.
Qed.

Lemma high_half (b : abi) (x : Z) : in_word b x -> hi32 x = x / 2 ^ 32.
Proof.
  intros H. change (2 ^ 32) with 4294967296.
  destruct b.
  - apply (proj1 (in_word_32 _)) in H.
    unfold hi32. rewrite Z.shiftr_div_pow2 by lia.
    change (2 ^ 32) with 4294967296.
    rewrite Z.div_small by lia. reflexivity.
  - apply (proj1 (in_word_64 _)) in H. apply (split64 x H).
Qed.

Lemma low_half (b : abi) (x : Z) :
  in_word b x -> x = 4294967296 * (x / 2 ^ 32) + lo32 x.
Proof.
  intros H. change (2 ^ 32) with 4294967296.
  destruct b.
  - apply (proj1 (in_word_32 _)) in H. rewrite Z.div_small by lia.
    unfold lo32. rewrite u32_small by lia. lia.
  - apply (proj1 (in_word_64 _)) in H.
    destruct (split64 x H) as (E & _ & _ & <-). exact E.
Qed.

(** C1 (amended).  For a syscall reported with the expected architecture
    token from an instruction pointer at or above the low-address
    threshold: outside the window the filter returns TRAP when the syscall
    number is on the denylist and ALLOW when it is not; inside the window
    (the pointer sharing its upper 32 bits with the end of the window, which
    every pointer of a 32-bit build does) it returns ALLOW whatever the
    syscall number. *)
Theorem sandbox_decision (b : abi) (NR : syscall -> Z)
        (m : linker_maps_addr_t) (d : seccomp_data) :
  let ip := instruction_pointer d in
  in_word b (PRELINKER_ADDR m) -> in_word b (LINKER_MAPS_LAST_ADDR m) ->
  in_word b ip ->
  arch d = AUDIT_ARCH b -> low_address_threshold b <= ip ->
  (in_window m ip -> ip / 2 ^ 32 = LINKER_MAPS_LAST_ADDR m / 2 ^ 32 ->
   evaluate (filter NR m b) d = Some SECCOMP_RET_ALLOW) /\
  (~ in_window m ip -> denylisted NR b (nr d) ->
   evaluate (filter NR m b) d = Some SECCOMP_RET_TRAP) /\
  (~ in_window m ip -> ~ denylisted NR b (nr d) ->
   evaluate (filter NR m b) d = Some SECCOMP_RET_ALLOW).
Proof.
  cbn zeta. intros HP HL Hip Harch Hlow.
  rewrite (filter_verdict b NR m d HP HL Hip Harch Hlow).
  pose proof (high_half b _ Hip) as Hhi. pose proof (high_half b _ HL) as HhL.
  pose proof (low_half b _ Hip) as Hlo. pose proof (low_half b _ HL) as HlL.
  unfold in_window.
  set (P := PRELINKER_ADDR m) in *. set (L := LINKER_MAPS_LAST_ADDR m) in *.
  set (ip := instruction_pointer d) in *.
  rewrite Hhi, HhL.
  destruct (Z.leb_spec P ip) as [H1|H1];
    destruct (Z.eqb_spec (ip / 2 ^ 32) (L / 2 ^ 32)) as [H2|H2];
    destruct (Z.ltb_spec (lo32 ip) (lo32 L)) as [H3|H3]; cbn [andb].
  all: repeat split; intros Hw; try reflexivity; try (exfalso; lia).
  all: intros Hd;
    try (apply denylisted_dec_spec in Hd; rewrite Hd; reflexivity);
    try (destruct (denylisted_dec NR b (nr d)) eqn:E; [|reflexivity];
         apply denylisted_dec_spec in E; contradiction);
    try (exfalso; lia).
Qed.

Lemma sandbox_decision_witness :
  evaluate (filter NR_arm sample_maps_32 ILP32)
           (sample_syscall (NR_arm __NR_openat) (0xbc9e0000 - 1) ILP32)
  = Some SECCOMP_RET_TRAP.
Proof.
  apply (sandbox_decision ILP32 NR_arm sample_maps_32
           (sample_syscall (NR_arm __NR_openat) (0xbc9e0000 - 1) ILP32)).
  - split; [discriminate|reflexivity].
  - split; [discriminate|reflexivity].
  - split; [discriminate|reflexivity].
  - reflexivity.
  - discriminate.
  - intros [H _]. apply H. reflexivity.
  - exists __NR_openat. split; [left; reflexivity|reflexivity].
Defined.

(** C1 as stated has the policy the wrong way round.  With the window
    [[0xbc9e0000, 0xbcd90000)] of the 32-bit layout, [openat] issued ten
    bytes inside the window is allowed although the claim has it trapped,
    and [open] issued one byte below the window is trapped although the
    claim has every syscall from outside allowed. *)
Lemma sandbox_polarity :
  let inside := sample_syscall (NR_arm __NR_openat) (0xbc9e0000 + 10) ILP32 in
  let outside := sample_syscall (NR_arm __NR_open) (0xbc9e0000 - 1) ILP32 in
  arch inside = AUDIT_ARCH ILP32 /\
  low_address_threshold ILP32 <= instruction_pointer inside /\
  in_window sample_maps_32 (instruction_pointer inside) /\
  denylisted NR_arm ILP32 (nr inside) /\
  evaluate (filter NR_arm sample_maps_32 ILP32) inside
  = Some SECCOMP_RET_ALLOW /\
  SECCOMP_RET_ALLOW <> SECCOMP_RET_TRAP /\
  arch outside = AUDIT_ARCH ILP32 /\
  low_address_threshold ILP32 <= instruction_pointer outside /\
  ~ in_window sample_maps_32 (instruction_pointer outside) /\
  evaluate (filter NR_arm sample_maps_32 ILP32) outside
  = Some SECCOMP_RET_TRAP.
Proof.
  cbn zeta. repeat split; try reflexivity; try discriminate.
  - exists __NR_openat. split; [left; reflexivity|reflexivity].
  - intros [H _]. apply H. reflexivity.
Qed.

(** The decision table of the specification, run on the program: only
    the third row comes out as listed there. *)
Lemma decision_table_32 :
  let W0 := PRELINKER_ADDR sample_maps_32 in
  let W1 := LINKER_MAPS_LAST_ADDR sample_maps_32 in
  let verdict number ip :=
    evaluate (filter NR_arm sample_maps_32 ILP32)
             (sample_syscall number ip ILP32) in
  verdict (NR_arm __NR_open) (W0 - 1) = Some SECCOMP_RET_TRAP /\
  verdict (NR_arm __NR_open) (W0 + 10) = Some SECCOMP_RET_ALLOW /\
  verdict NR_arm_mmap2 (W0 + 10) = Some SECCOMP_RET_ALLOW /\
  verdict (NR_arm __NR_execve) (W1 + 1) = Some SECCOMP_RET_TRAP.
Proof.
  cbn zeta.
  split; [reflexivity|]. split; [reflexivity|]. split; reflexivity.
Qed.

(** The two unconditional exits of the program. *)
Lemma filter_other_architecture (b : abi) (NR : syscall -> Z)
      (m : linker_maps_addr_t) (d : seccomp_data) :
  u32 (arch d) <> AUDIT_ARCH b ->
  evaluate (filter NR m b) d = Some SECCOMP_RET_ALLOW.
Proof.
  intros H. unfold evaluate, filter.
  destruct b; unfold filter_window_32, filter_window_64; cbn [app];
    bpf_step; bpf_step;
    match goal with
    | |- context [if ?a =? ?c then _ else _] => destruct (Z.eqb_spec a c) as [E|E]
    end;
    solve [ exfalso; apply H; exact E | bpf_run; reflexivity ].
Qed.

Lemma filter_low_address (b : abi) (NR : syscall -> Z)
      (m : linker_maps_addr_t) (d : seccomp_data) :
  arch d = AUDIT_ARCH b -> in_word b (instruction_pointer d) ->
  instruction_pointer d < low_address_threshold b ->
  evaluate (filter NR m b) d = Some SECCOMP_RET_ALLOW.
Proof.
  intros Harch Hip Hlow. unfold evaluate, filter.
  destruct b; unfold filter_window_32, filter_window_64; cbn [app].
  - apply (proj1 (in_word_32 _)) in Hip.
    assert (Eip : lo32 (instruction_pointer d) = instruction_pointer d)
      by (apply u32_small, Hip).
    assert (Et : u32 0x400000 = 0x400000) by reflexivity.
    bpf_step. rewrite Harch. bpf_step. rewrite Z.eqb_refl.
    do 3 bpf_step. bpf_branch; [exfalso; cbn in Hlow; lia|].
    bpf_run. reflexivity.
  - apply (proj1 (in_word_64 _)) in Hip.
    destruct (split64 _ Hip) as (S1 & S2 & S3 & _).
    assert (Et : u32 0x500000 = 0x500000) by reflexivity.
    assert (E0 : u32 0 = 0) by reflexivity.
    bpf_step. rewrite Harch. bpf_step. rewrite Z.eqb_refl.
    do 3 bpf_step. bpf_branch; [|exfalso; cbn in Hlow; lia].
    do 2 bpf_step. bpf_branch; [exfalso; cbn in Hlow; lia|].
    bpf_run. reflexivity.
Qed.

(** ** The split comparison of the 64-bit build *)

(** What the range block of the 64-bit program computes. *)
Lemma split_comparison_64 (m : linker_maps_addr_t) (ip : Z) :
  in_word LP64 (PRELINKER_ADDR m) -> in_word LP64 (LINKER_MAPS_LAST_ADDR m) ->
  in_word LP64 ip ->
  filter_classifies_inside LP64 m ip
  = (PRELINKER_ADDR m <=? ip)
    && (hi32 ip =? hi32 (LINKER_MAPS_LAST_ADDR m))
    && (lo32 ip <? lo32 (LINKER_MAPS_LAST_ADDR m)).
Proof.
  intros HP HL Hip.
  apply (proj1 (in_word_64 _)) in HP, HL, Hip.
  unfold PRELINKER_ADDR, LINKER_MAPS_LAST_ADDR in *.
  destruct (split64 _ HP) as (SP & SP1 & SP2 & _).
  destruct (split64 _ HL) as (SL & SL1 & SL2 & _).
  destruct (split64 _ Hip) as (Sip & Sip1 & Sip2 & _).
  pose proof (u32_small _ SP1) as EP1. pose proof (u32_small _ SP2) as EP2.
  pose proof (u32_small _ SL1) as EL1. pose proof (u32_small _ SL2) as EL2.
  unfold filter_classifies_inside, evaluate, window_block, filter_window_64,
         PRELINKER_ADDR, LINKER_MAPS_LAST_ADDR.
  cbn [skipn app].
  fold (hi32 (prelinker_addr m)) (hi32 (linker_maps_last_addr m)).
  rewrite !land_low.
  bpf_run; cbn [instruction_pointer] in *;
    destruct (Z.leb_spec (prelinker_addr m) ip);
    destruct (Z.eqb_spec (hi32 ip) (hi32 (linker_maps_last_addr m)));
    destruct (Z.ltb_spec (lo32 ip) (lo32 (linker_maps_last_addr m)));
    cbn [andb]; first [reflexivity | exfalso; lia].
Qed.

(** When the two bounds share their upper 32 bits the split comparison is
    the direct one. *)
Lemma split_comparison_same_block (m : linker_maps_addr_t) (ip : Z) :
  in_word LP64 (PRELINKER_ADDR m) -> in_word LP64 (LINKER_MAPS_LAST_ADDR m) ->
  in_word LP64 ip ->
  hi32 (PRELINKER_ADDR m) = hi32 (LINKER_MAPS_LAST_ADDR m) ->
  filter_classifies_inside LP64 m ip = in_window_dec m ip.
Proof.
  intros HP HL Hip Hsame. rewrite (split_comparison_64 m ip HP HL Hip).
  apply (proj1 (in_word_64 _)) in HP, HL, Hip. unfold in_window_dec.
  destruct (split64 _ HP) as (SP & SP1 & SP2 & _).
  destruct (split64 _ HL) as (SL & SL1 & SL2 & _).
  destruct (split64 _ Hip) as (Sip & Sip1 & Sip2 & _).
  destruct (Z.leb_spec (PRELINKER_ADDR m) ip);
    destruct (Z.eqb_spec (hi32 ip) (hi32 (LINKER_MAPS_LAST_ADDR m)));
    destruct (Z.ltb_spec (lo32 ip) (lo32 (LINKER_MAPS_LAST_ADDR m)));
    destruct (Z.ltb_spec ip (LINKER_MAPS_LAST_ADDR m));
    cbn [andb]; first [reflexivity | exfalso; lia].
Qed.

(** C2 (the code at the failing input).  With the window
    [[0x100000000, 0x300000000)] the pointer 0x200000000 lies inside by the
    direct comparison, yet the range block of the 64-bit program does not
    allow it and the program goes on to trap [openat]: a pointer whose
    upper half is below that of the window's end is sent on to the syscall
    tests although it lies below the end. *)
Theorem split_comparison_diverges :
  in_window_dec sample_straddling_maps 0x200000000 = true /\
  filter_classifies_inside LP64 sample_straddling_maps 0x200000000 = false /\
  evaluate (filter NR_arm64 sample_straddling_maps LP64)
           (sample_syscall (NR_arm64 __NR_openat) 0x200000000 LP64)
  = Some SECCOMP_RET_TRAP.
Proof. repeat split; reflexivity. Qed.

(** C8.  The claim holds of the first relro region only.  In
    [sample_relro_among_loads] both regions are byte-identical to their
    parts of the file, which lie back to back as
    [phdr_table_serialize_gnu_relro] writes them, the second at file
    offset 0x1000.  [phdr_table_map_gnu_relro] compares the second region
    with that part and then maps it from file offset 0: the page that
    showed the second page of the file shows the first one afterwards,
    and the call returns 0. *)
Theorem relro_later_region_wrong_page :
  let fl := Z.lor MAP_PRIVATE MAP_FIXED in
  let res := phdr_table_map_gnu_relro ILP32 paged_file_kernel
               sample_relro_among_loads 0 7 sample_two_relro_memory in
  page_match paged_file_kernel 7 0 0x10000 sample_two_relro_memory 0 = true /\
  page_match paged_file_kernel 7 0x1000 0x20000 sample_two_relro_memory 0
  = true /\
  In (call_mmap 0x20000 0x1000 PROT_READ fl 7 0x1000 (Some 0x20000))
     (snd (phdr_table_serialize_gnu_relro ILP32 paged_file_kernel
             sample_relro_among_loads 0 7)) /\
  fst (fst res) = 0 /\
  snd res = [ call_fstat 7 (Some 0x2000);
              call_mmap nullptr 0x2000 PROT_READ MAP_PRIVATE 7 0
                        (Some 0x40000000);
              call_mmap 0x10000 0x1000 PROT_READ fl 7 0 (Some 0x10000);
              call_mmap 0x20000 0x1000 PROT_READ fl 7 0 (Some 0x20000);
              call_munmap 0x40000000 0x2000 ] /\
  sample_two_relro_memory 0x20000 = file_byte paged_file_kernel 7 0x1000 /\
  snd (fst res) 0x20000 = file_byte paged_file_kernel 7 0 /\
  file_byte paged_file_kernel 7 0 <> file_byte paged_file_kernel 7 0x1000.
Proof.
  cbn zeta.
  split; [vm_compute; reflexivity|].
  split; [vm_compute; reflexivity|].
  split; [vm_compute; tauto|].
  split; [vm_compute; reflexivity|].
  split; [vm_compute; reflexivity|].
  split; [vm_compute; reflexivity|].
  split; [vm_compute; reflexivity|].
  vm_compute. discriminate.
Qed.

(* ================================================================== *)
(** * Part III: further properties of the loader *)
(* ================================================================== *)

(** ** safe_add and CheckFileRange *)

(** X1. For an offset that fits [off64_t] and a size that fits 64 bits,
    [safe_add] aborts on a negative offset, yields the exact sum when that
    sum fits [off64_t] and reports failure otherwise: it never yields a
    wrapped sum. *)
Theorem safe_add_exact (a c : Z) :
  a <= INT64_MAX -> 0 <= c < 2 ^ 64 ->
  (a < 0 -> safe_add a c = Aborted) /\
  (0 <= a -> a + c <= INT64_MAX -> safe_add a c = Returned (Some (a + c))) /\
  (0 <= a -> INT64_MAX < a + c -> safe_add a c = Returned None).
Proof.
  intros Ha Hc. unfold safe_add, INT64_MAX in *.
  change (2 ^ 64) with 18446744073709551616 in *.
  change (2 ^ 63 - 1) with 9223372036854775807 in *.
  repeat split.
  - intros Hneg. destruct (Z.geb_spec a 0); [lia|reflexivity].
  - intros Hpos Hfit. destruct (Z.geb_spec a 0); [|lia]. cbn [negb].
    rewrite Z.mod_small by lia.
    destruct (Z.ltb_spec (9223372036854775807 - a) c); [lia|reflexivity].
  - intros Hpos Hbig. destruct (Z.geb_spec a 0); [|lia]. cbn [negb].
    rewrite Z.mod_small by lia.
    destruct (Z.ltb_spec (9223372036854775807 - a) c); [reflexivity|lia].
Qed.

Lemma safe_add_exact_witness :
  safe_add 4096 52 = Returned (Some 4148) /\
  safe_add INT64_MAX 1 = Returned None.
Proof.
  split.
  - apply (safe_add_exact 4096 52); [discriminate | split; [discriminate|reflexivity]
                                     | discriminate | discriminate].
  - apply (safe_add_exact INT64_MAX 1); [discriminate | split; [discriminate|reflexivity]
                                         | discriminate | reflexivity].
Defined.

(** X2. For a reader at a non-negative file offset of a file whose size
    fits [off64_t], and a non-zero alignment, [CheckFileRange] answers true
    exactly when the range starts inside the file, ends at or before its
    end and the offset is a multiple of the alignment, all computed
    without wrap-around. *)
Theorem CheckFileRange_exact (r : ElfReader) (offset size alignment : Z) :
  0 <= file_offset_ r <= INT64_MAX -> file_size_ r <= INT64_MAX ->
  0 <= offset < 2 ^ 64 -> 0 <= size < 2 ^ 64 -> 0 < alignment ->
  (CheckFileRange r offset size alignment = Returned true <->
   file_offset_ r + offset < file_size_ r /\
   file_offset_ r + offset + size <= file_size_ r /\
   (alignment | offset)) /\
  (CheckFileRange r offset size alignment = Returned true \/
   CheckFileRange r offset size alignment = Returned false).
Proof.
  intros Hfo Hfs Ho Hs Hal. unfold CheckFileRange.
  pose proof (Z.mod_divide offset alignment ltac:(lia)) as Hdiv.
  destruct (safe_add_exact (file_offset_ r) offset ltac:(lia) Ho) as (_ & A1 & A2).
  destruct (Z.le_gt_cases (file_offset_ r + offset) INT64_MAX) as [Hfit|Hbig].
  - rewrite (A1 ltac:(lia) Hfit).
    destruct (safe_add_exact (file_offset_ r + offset) size Hfit Hs)
      as (_ & B1 & B2).
    destruct (Z.le_gt_cases (file_offset_ r + offset + size) INT64_MAX)
      as [Hfit2|Hbig2].
    + rewrite (B1 ltac:(lia) Hfit2). split.
      * split.
        -- intros [= H]. apply andb_true_iff in H. destruct H as [H H3].
           apply andb_true_iff in H. destruct H as [H1 H2].
           apply Z.ltb_lt in H1. apply Z.leb_le in H2. apply Z.eqb_eq in H3.
           apply Hdiv in H3. auto.
        -- intros (H1 & H2 & H3). f_equal. apply Hdiv in H3.
           rewrite !andb_true_iff, Z.ltb_lt, Z.leb_le, Z.eqb_eq. auto.
      * destruct (_ && _ && _); [left|right]; reflexivity.
    + rewrite (B2 ltac:(lia) Hbig2). split; [|right; reflexivity].
      split; [discriminate|]. intros (_ & H & _). lia.
  - rewrite (A2 ltac:(lia) Hbig). split; [|right; reflexivity].
    split; [discriminate|]. intros (H & _). lia.
Qed.

Lemma CheckFileRange_exact_witness :
  CheckFileRange sample_reader 0x1000 0x800 4 = Returned true.
Proof.
  apply (proj1 (CheckFileRange_exact sample_reader 0x1000 0x800 4
                  ltac:(split; discriminate) ltac:(discriminate)
                  ltac:(split; [discriminate|reflexivity])
                  ltac:(split; [discriminate|reflexivity])
                  ltac:(reflexivity))).
  split; [reflexivity|]. split; [discriminate|]. exists 0x400. reflexivity.
Defined.

(** ** VerifyElfHeader *)

Lemma VerifyElfHeader_cases (b : abi) (r : ElfReader) (p : process) :
  (fst (fst (VerifyElfHeader b r p)) = Done <->
   header_acceptable b (header_ r)) /\
  snd (fst (VerifyElfHeader b r p)) = r /\
  snd (VerifyElfHeader b r p) = p.
Proof.
  unfold VerifyElfHeader, header_acceptable.
  destruct b; cbv beta zeta iota;
    destruct (list_eq_dec Z.eq_dec (e_ident_mag (header_ r)) ELFMAG);
    cbn [negb];
    repeat match goal with
           | |- context [if negb (?x =? ?y) then _ else _] =>
             destruct (Z.eqb_spec x y); cbn [negb]
           | |- context [if ?x =? ?y then _ else _] =>
             destruct (Z.eqb_spec x y)
           end;
    cbn [fst snd];
    (split; [|split; reflexivity]);
    (split;
     [ intros H; try discriminate H; repeat split; assumption
     | intros (? & ? & ? & ? & ? & ?); try reflexivity; congruence ]).
Qed.

(** X3. [VerifyElfHeader] accepts a header exactly when the magic bytes,
    the class of the build, little-endian data, type [ET_DYN], the current
    version and the machine of the target are all as required; it changes
    neither the reader nor the process and makes no call. *)
Theorem VerifyElfHeader_accepts (b : abi) (r : ElfReader) (p : process) :
  (fst (fst (VerifyElfHeader b r p)) = Done <->
   header_acceptable b (header_ r)) /\
  snd (fst (VerifyElfHeader b r p)) = r /\
  snd (VerifyElfHeader b r p) = p.
Proof. apply VerifyElfHeader_cases. Qed.

(** ** PFLAGS_TO_PROT *)

(** X4. [PFLAGS_TO_PROT] carries each of the three permission bits over
    and nothing else: the result has [PROT_EXEC], [PROT_READ] or
    [PROT_WRITE] exactly when the flags have [PF_X], [PF_R] or [PF_W], and
    it is at most [PROT_READ | PROT_WRITE | PROT_EXEC]. *)
Theorem PFLAGS_TO_PROT_bits (x : Z) :
  (Z.land (PFLAGS_TO_PROT x) PROT_EXEC <> 0 <-> Z.land x PF_X <> 0) /\
  (Z.land (PFLAGS_TO_PROT x) PROT_READ <> 0 <-> Z.land x PF_R <> 0) /\
  (Z.land (PFLAGS_TO_PROT x) PROT_WRITE <> 0 <-> Z.land x PF_W <> 0) /\
  0 <= PFLAGS_TO_PROT x <= 7.
Proof.
  unfold PFLAGS_TO_PROT, MAYBE_MAP_FLAG.
  destruct (Z.eqb_spec (Z.land x PF_X) 0) as [Ex|Ex];
    destruct (Z.eqb_spec (Z.land x PF_R) 0) as [Er|Er];
    destruct (Z.eqb_spec (Z.land x PF_W) 0) as [Ew|Ew];
    cbn; repeat split; intros; try lia; try assumption; try discriminate;
    try congruence.
Qed.

(** ** Alignment of the load extent *)

(** X5. Whatever the table, the size and the minimum address that
    [phdr_table_get_load_size] returns are whole multiples of the page
    size. *)
Theorem load_extent_page_aligned (b : abi) (t : list Phdr) :
  (exists q, load_size_of b t = PAGE_SIZE * q) /\
  (exists q, min_vaddr_of b t = PAGE_SIZE * q).
Proof.
  unfold load_size_of, min_vaddr_of, phdr_table_get_load_size.
  destruct (fold_left (load_size_step b) t (UINTPTR_MAX b, 0, false))
    as [[mn mx] found].
  cbn [fst snd]. unfold PAGE_END.
  destruct (PAGE_START_aligned b (if negb found then 0 else mn)) as [q1 E1].
  destruct (PAGE_START_aligned b (wrap b (mx + (PAGE_SIZE - 1)))) as [q2 E2].
  rewrite E1, E2. split; [|exists q1; reflexivity].
  destruct (modulus_page b) as (q & Hq & Hpos). unfold wrap. rewrite Hq.
  replace (PAGE_SIZE * q2 - PAGE_SIZE * q1) with (PAGE_SIZE * (q2 - q1)) by lia.
  rewrite Z.mul_mod_distr_l by (unfold PAGE_SIZE; lia).
  exists ((q2 - q1) mod q). reflexivity.
Qed.

(** ** Lookups in the program header table *)

(** X6. [phdr_table_get_dynamic_section] reports the first PT_DYNAMIC
    entry, at its biased address and with its flags, whatever follows it;
    when the table has none the address is null and no flags are stored. *)
Theorem get_dynamic_section_first (b : abi) (load_bias : Z) :
  (forall t, (forall p, In p t -> p_type p <> PT_DYNAMIC) ->
     phdr_table_get_dynamic_section b t load_bias = (nullptr, None)) /\
  (forall pre d post,
     (forall p, In p pre -> p_type p <> PT_DYNAMIC) ->
     p_type d = PT_DYNAMIC ->
     phdr_table_get_dynamic_section b (pre ++ d :: post) load_bias
     = (wrap b (load_bias + p_vaddr d), Some (p_flags d))).
Proof.
  split.
  - induction t as [|p t IH]; intros H; [reflexivity|].
    cbn [phdr_table_get_dynamic_section].
    destruct (Z.eqb_spec (p_type p) PT_DYNAMIC) as [E|_].
    + exfalso. apply (H p); [left; reflexivity | exact E].
    + apply IH. intros q Hq. apply H. right. exact Hq.
  - induction pre as [|p pre IH]; intros d post H Hd; cbn [app phdr_table_get_dynamic_section].
    + rewrite Hd, Z.eqb_refl. reflexivity.
    + destruct (Z.eqb_spec (p_type p) PT_DYNAMIC) as [E|_].
      * exfalso. apply (H p); [left; reflexivity | exact E].
      * apply IH; [|exact Hd]. intros q Hq. apply H. right. exact Hq.
Qed.

(** X7. [phdr_table_get_arm_exidx] reports the first PT_ARM_EXIDX entry:
    result 0, its biased address and [p_memsz / 8] entries, whatever
    follows it; when the table has none the result is -1 with a null
    address and a count of zero. *)
Theorem get_arm_exidx_first (b : abi) (load_bias : Z) :
  (forall t, (forall p, In p t -> p_type p <> PT_ARM_EXIDX) ->
     phdr_table_get_arm_exidx b t load_bias = (-1, nullptr, 0)) /\
  (forall pre d post,
     (forall p, In p pre -> p_type p <> PT_ARM_EXIDX) ->
     p_type d = PT_ARM_EXIDX ->
     phdr_table_get_arm_exidx b (pre ++ d :: post) load_bias
     = (0, wrap b (load_bias + p_vaddr d), u32 (p_memsz d / 8))).
Proof.
  split.
  - induction t as [|p t IH]; intros H; [reflexivity|].
    cbn [phdr_table_get_arm_exidx].
    destruct (Z.eqb_spec (p_type p) PT_ARM_EXIDX) as [E|_]; cbn [negb].
    + exfalso. apply (H p); [left; reflexivity | exact E].
    + apply IH. intros q Hq. apply H. right. exact Hq.
  - induction pre as [|p pre IH]; intros d post H Hd; cbn [app phdr_table_get_arm_exidx].
    + rewrite Hd, Z.eqb_refl. reflexivity.
    + destruct (Z.eqb_spec (p_type p) PT_ARM_EXIDX) as [E|_]; cbn [negb].
      * exfalso. apply (H p); [left; reflexivity | exact E].
      * apply IH; [|exact Hd]. intros q Hq. apply H. right. exact Hq.
Qed.

(** ** ReadProgramHeader *)

Lemma PAGE_OFFSET_mod (b : abi) (x : Z) : PAGE_OFFSET b x = x mod PAGE_SIZE.
Proof.
  unfold PAGE_OFFSET.
  replace (wrap b (Z.lnot (PAGE_MASK b))) with (Z.ones 12)
    by (destruct b; reflexivity).
  rewrite Z.land_ones by lia. reflexivity.
Qed.



(** ** ReserveAddressSpace *)

Lemma wrap_add_sub (b : abi) (x y : Z) :
  in_word b x -> wrap b (y + wrap b (x - y)) = x.
Proof.
  intros H. unfold wrap. rewrite Zplus_mod_idemp_r.
  replace (y + (x - y)) with x by lia. apply Z.mod_small, H.
Qed.

(** X9. Whenever [ReserveAddressSpace] succeeds with a start address that
    fits the address word, the bias it records carries the minimum page
    address of the image onto that start, and the size it records is the
    non-zero load size of the table. *)
Theorem reserve_bias (b : abi) (K : kernel) (NR : syscall -> Z)
        (ext : option android_dlextinfo) (r : ElfReader) (p : process) :
  let res := ReserveAddressSpace b K NR ext r p in
  let r' := snd (fst res) in
  fst (fst res) = Done -> in_word b (load_start_ r') ->
  wrap b (min_vaddr_of b (phdr_entries r) + load_bias_ r') = load_start_ r' /\
  load_size_ r' = load_size_of b (phdr_entries r) /\
  load_size_ r' <> 0 /\
  phdr_entries r' = phdr_entries r.
Proof.
  cbn zeta. rewrite ReserveAddressSpace_eq. cbn zeta.
  destruct (Z.eqb_spec (load_size_of b (phdr_entries r)) 0) as [|Hnz];
    [discriminate|].
  destruct (_ >? _).
  - destruct (negb _); [discriminate|].
    destruct (reserve_mmap b K r p) as [start|]; [|discriminate].
    cbn [fst snd load_start_ load_bias_ load_size_ set_load].
    intros _ Hw. split; [apply wrap_add_sub, Hw|]. repeat split. exact Hnz.
  - cbn [fst snd load_start_ load_bias_ load_size_ set_load].
    intros _ Hw. split; [apply wrap_add_sub, Hw|]. repeat split. exact Hnz.
Qed.

Lemma reserve_bias_witness :
  let r' := snd (fst (ReserveAddressSpace ILP32 granting_kernel NR_arm None
                        sample_libc_reader (quiet_process (fun _ => 0)))) in
  wrap ILP32 (min_vaddr_of ILP32 (phdr_entries sample_libc_reader)
              + load_bias_ r') = load_start_ r'.
Proof.
  cbn zeta.
  apply (reserve_bias ILP32 granting_kernel NR_arm None sample_libc_reader
           (quiet_process (fun _ => 0)) eq_refl).
  split; [discriminate|reflexivity].
Defined.

(** X10. [ReserveAddressSpace] writes memory in one case only: when the
    image is taken for the guest runtime and a fresh mapping has been made
    for it, it writes the two guest-runtime members of the shared layout
    record, which lives in that memory, and no other byte; in every other
    case memory is as it was.  Besides the calls of the filter
    installation, made in that same case only, it makes at most one call,
    the [mmap] of the reservation. *)
Theorem reserve_frame (b : abi) (K : kernel) (NR : syscall -> Z)
        (ext : option android_dlextinfo) (r : ElfReader) (p : process) :
  let res := ReserveAddressSpace b K NR ext r p in
  let size := load_size_of b (phdr_entries r) in
  let fresh_guest :=
    is_guest_runtime b r /\ size <> 0 /\
    fst (reservation_of ext) < size /\ snd (reservation_of ext) = true /\
    reserve_mmap b K r p <> None in
  (forall a, ~ (member_addr b 6 <= a < member_addr b 8) ->
     mem (snd res) a = mem p a) /\
  (fresh_guest ->
   log (snd res)
   = log p ++ reserve_call b K r p
            :: seccomp_calls b K NR (maps b (snd res))) /\
  (~ fresh_guest ->
   (forall a, mem (snd res) a = mem p a) /\
   (log (snd res) = log p \/
    log (snd res) = log p ++ [reserve_call b K r p])).
Proof.
  cbn zeta. rewrite ReserveAddressSpace_eq. cbn zeta.
  destruct (Z.eqb_spec (load_size_of b (phdr_entries r)) 0) as [E0|E0].
  { split; [reflexivity|].
    split; [intros (_ & H & _); contradiction|].
    intros _. split; [reflexivity|left; reflexivity]. }
  destruct (Z.gtb_spec (load_size_of b (phdr_entries r))
                       (fst (reservation_of ext))) as [Hgt|Hle].
  2:{ split; [reflexivity|].
      split; [intros (_ & _ & H & _); lia|].
      intros _. split; [reflexivity|left; reflexivity]. }
  destruct (snd (reservation_of ext)) eqn:Ehint; cbn [negb].
  2:{ split; [reflexivity|].
      split; [intros (_ & _ & _ & H & _); discriminate H|].
      intros _. split; [reflexivity|left; reflexivity]. }
  destruct (reserve_mmap b K r p) as [start|] eqn:Em.
  2:{ split; [reflexivity|].
      split; [intros (_ & _ & _ & _ & H); contradiction|].
      intros _. split; [reflexivity|right; reflexivity]. }
  cbn [fst snd].
  destruct ((min_vaddr_of b (phdr_entries r) =? nullptr)
            && strstr (name_ r) "libc.so") eqn:Eg.
  - rewrite init_seccomp_eq. cbn [mem log emit with_mem].
    split; [intros a Ha; apply record_write_frame, Ha|].
    split.
    + intros _. unfold maps. cbn [mem emit with_mem].
      rewrite <- app_assoc. reflexivity.
    + intros Hn. exfalso. apply Hn.
      apply andb_true_iff in Eg. destruct Eg as [E1 E2].
      split; [split; [apply Z.eqb_eq, E1 | exact E2]|].
      split; [exact E0|]. split; [lia|]. split; [reflexivity|discriminate].
  - split; [reflexivity|].
    split.
    + intros ((Hmin & Hname) & _). rewrite Hmin, Hname in Eg.
      discriminate Eg.
    + intros _. split; [reflexivity|right; reflexivity].
Qed.

(** ** read and get_string *)



(** ** Load *)

Lemma reserve_frame_log (b : abi) (K : kernel) (NR : syscall -> Z)
      (ext : option android_dlextinfo) (r : ElfReader) (p : process) :
  extends p (snd (ReserveAddressSpace b K NR ext r p)).
Proof.
  rewrite ReserveAddressSpace_eq. cbn zeta.
  destruct (_ =? 0); [apply extends_refl|].
  destruct (_ >? _); [|apply extends_refl].
  destruct (negb _); [apply extends_refl|].
  destruct (reserve_mmap b K r p); cbn [snd]; [|auto with loader].
  destruct (_ && _); [|auto with loader].
  rewrite init_seccomp_eq. apply extends_emit.
  exists [reserve_call b K r p]. reflexivity.
Qed.

Lemma ReadElfHeader_extends (b : abi) (K : kernel) (r : ElfReader) (p : process) :
  extends p (snd (ReadElfHeader b K r p)).
Proof.
  unfold ReadElfHeader. destruct (sys_pread64_header K _ _) as [rc h].
  destruct (rc <? 0); [|destruct (negb _)]; cbn [snd]; auto with loader.
Qed.

Lemma ReadProgramHeader_done (b : abi) (K : kernel) (r r' : ElfReader)
      (p p' : process) :
  ReadProgramHeader b K r p = (Done, r', p') ->
  header_ r' = header_ r /\
  1 <= phdr_num_ r' <= 65536 / sizeof_Phdr b /\
  phdr_table_ r'
  = file_phdrs K (fd_ r) (file_offset_ r + e_phoff (header_ r))
               (e_phnum (header_ r)) /\
  extends p p'.
Proof.
  unfold ReadProgramHeader.
  destruct (Z.ltb_spec (e_phnum (header_ r)) 1); cbn [orb]; [discriminate|].
  destruct (Z.gtb_spec (e_phnum (header_ r)) (65536 / sizeof_Phdr b));
    [discriminate|].
  destruct (sys_mmap K _ _ _ _ _ _); [|discriminate].
  intros [= <- <-]. cbn [header_ phdr_num_ phdr_table_].
  repeat split; try lia. auto with loader.
Qed.

Lemma LoadSegments_reader (b : abi) (K : kernel) (r : ElfReader) (p : process) :
  snd (fst (LoadSegments b K r p)) = r.
Proof.
  unfold LoadSegments. destruct (load_segments_from b K r 0 _ p). reflexivity.
Qed.

Lemma FindPhdr_done (b : abi) (r r' : ElfReader) (p p' : process) :
  FindPhdr b r p = (Done, r', p') ->
  p' = p /\
  exists loaded q,
    r' = set_loaded_phdr r loaded /\
    In q (phdr_entries r) /\ table_within b r loaded q.
Proof.
  assert (G : forall loaded,
             CheckPhdr b loaded r p = (Done, r', p') ->
             p' = p /\
             exists loaded q,
               r' = set_loaded_phdr r loaded /\
               In q (phdr_entries r) /\ table_within b r loaded q).
  { intros loaded H.
    destruct (CheckPhdr_spec b loaded r p) as [_ Hno].
    destruct (existsb (phdr_covers b r loaded
                         (wrap b (loaded + wrap b (phdr_num_ r * sizeof_Phdr b))))
                      (phdr_entries r)) eqn:E.
    - unfold CheckPhdr in H. rewrite E in H. injection H as <- <-.
      split; [reflexivity|].
      apply existsb_exists in E. destruct E as (q & Hq & Hc).
      exists loaded, q. split; [reflexivity|]. split; [exact Hq|].
      unfold phdr_covers in Hc. unfold table_within, is_load.
      rewrite !andb_true_iff, !Z.leb_le in Hc. tauto.
    - unfold CheckPhdr in H. rewrite E in H. discriminate. }
  unfold FindPhdr.
  destruct (find is_pt_phdr (phdr_entries r)); [apply G|].
  destruct (find is_load (phdr_entries r)) as [q|]; [|discriminate].
  destruct (p_offset q =? 0); [apply G|discriminate].
Qed.

(** X12. When [Load] succeeds, the header it read passed every check of
    [VerifyElfHeader], the number of program headers lies within 1 and
    65536 / sizeof(Phdr), the load size recorded is the non-zero size of
    the table that was read, the program header table was located inside
    the file-backed part of one of its LOAD entries, and every call made
    before [Load] is still at the head of the log. *)
Theorem Load_success (b : abi) (K : kernel) (NR : syscall -> Z)
        (ext : option android_dlextinfo) (r r' : ElfReader) (p p' : process) :
  Load b K NR ext r p = (Done, r', p') ->
  header_acceptable b (header_ r') /\
  1 <= phdr_num_ r' <= 65536 / sizeof_Phdr b /\
  load_size_ r' = load_size_of b (phdr_entries r') /\
  load_size_ r' <> 0 /\
  (exists q, In q (phdr_entries r') /\
             table_within b r' (loaded_phdr_ r') q) /\
  extends p p'.
Proof.
  unfold Load, Load_from_reserve, and_then.
  pose proof (ReadElfHeader_extends b K r p) as X1.
  destruct (ReadElfHeader b K r p) as [[[|e1] r1] p1]; [|discriminate].
  destruct (VerifyElfHeader_cases b r1 p1) as (V1 & V2 & V3).
  destruct (VerifyElfHeader b r1 p1) as [[[|e2] r2] p2]; [|discriminate].
  cbn [fst snd] in *. subst r2 p2.
  destruct (ReadProgramHeader b K r1 p1) as [[[|e3] r3] p3] eqn:E3;
    [|discriminate].
  destruct (ReadProgramHeader_done b K r1 r3 p1 p3 E3) as (P1 & P2 & _ & P4).
  pose proof (reserve_frame_log b K NR ext r3 p3) as X4.
  pose proof (ReserveAddressSpace_eq b K NR ext r3 p3) as E4. cbn zeta in E4.
  destruct (ReserveAddressSpace b K NR ext r3 p3) as [[[|e4] r4] p4];
    [|discriminate].
  assert (R4 : exists start bias,
             r4 = set_load r3 start (load_size_of b (phdr_entries r3)) bias
                           (loaded_phdr_ r3) /\
             load_size_of b (phdr_entries r3) <> 0).
  { destruct (Z.eqb_spec (load_size_of b (phdr_entries r3)) 0);
      [discriminate|].
    destruct (_ >? _) in E4.
    - destruct (negb _) in E4; [discriminate|].
      destruct (reserve_mmap b K r3 p3); [|discriminate].
      injection E4 as -> _. eauto.
    - injection E4 as -> _. eauto. }
  destruct R4 as (start & bias & -> & Hnz).
  pose proof (LoadSegments_extends b K
                (set_load r3 start (load_size_of b (phdr_entries r3)) bias
                          (loaded_phdr_ r3)) p4) as X5.
  pose proof (LoadSegments_reader b K
                (set_load r3 start (load_size_of b (phdr_entries r3)) bias
                          (loaded_phdr_ r3)) p4) as R5.
  destruct (LoadSegments b K _ p4) as [[[|e5] r5] p5]; [|discriminate].
  cbn [fst snd] in *. subst r5.
  intros E6. destruct (FindPhdr_done b _ r' p5 p' E6)
    as (-> & loaded & q & -> & Hq & Hin).
  cbn [header_ phdr_num_ load_size_ loaded_phdr_ set_loaded_phdr set_load].
  split; [rewrite P1; apply V1; reflexivity|]. split; [exact P2|].
  split; [reflexivity|]. split; [exact Hnz|].
  split; [exists q; split; [exact Hq | exact Hin]|].
  apply (extends_trans _ p1); [exact X1|].
  apply (extends_trans _ p3); [exact P4|].
  apply (extends_trans _ p4); [exact X4 | exact X5].
Qed.

Lemma Load_success_witness :
  load_size_ (snd (fst (Load ILP32 sections_kernel NR_arm None fresh_reader
                          (quiet_process (fun _ => 0))))) <> 0.
Proof.
  assert (E : fst (fst (Load ILP32 sections_kernel NR_arm None fresh_reader
                          (quiet_process (fun _ => 0)))) = Done)
    by (vm_compute; reflexivity).
  revert E.
  generalize (Load_success ILP32 sections_kernel NR_arm None fresh_reader
                (snd (fst (Load ILP32 sections_kernel NR_arm None fresh_reader
                             (quiet_process (fun _ => 0)))))
                (quiet_process (fun _ => 0))
                (snd (Load ILP32 sections_kernel NR_arm None fresh_reader
                        (quiet_process (fun _ => 0))))).
  destruct (Load ILP32 sections_kernel NR_arm None fresh_reader
              (quiet_process (fun _ => 0))) as [[o r'] p'].
  cbn [fst snd]. intros H E. subst o.
  destruct (H eq_refl) as (_ & _ & _ & Hnz & _). exact Hnz.
Defined.

(** ** LoadSegments *)

Lemma page_ceil_floor_add (x y : Z) :
  page_ceil (page_floor x + y) = page_floor x + page_ceil y.
Proof.
  unfold page_ceil, page_floor, PAGE_SIZE.
  replace (4096 * (x / 4096) + y + 4096 - 1)
    with (x / 4096 * 4096 + (y + 4096 - 1)) by lia.
  rewrite Z.div_add_l by lia. lia.
Qed.

Lemma page_ceil_mono (x y : Z) : x <= y -> page_ceil x <= page_ceil y.
Proof.
  intros H. unfold page_ceil, PAGE_SIZE.
  pose proof (Z.div_le_mono (x + 4096 - 1) (y + 4096 - 1) 4096 ltac:(lia)
                ltac:(lia)). lia.
Qed.

Lemma page_ceil_tail (x : Z) :
  0 < x mod PAGE_SIZE -> x + (PAGE_SIZE - x mod PAGE_SIZE) = page_ceil x.
Proof.
  intros H. unfold page_ceil, PAGE_SIZE in *.
  pose proof (Z.div_mod x 4096 ltac:(lia)).
  pose proof (Z.mod_pos_bound x 4096 ltac:(lia)).
  replace (x + 4096 - 1) with ((x / 4096 + 1) * 4096 + (x mod 4096 - 1)) by lia.
  rewrite Z.div_add_l by lia. rewrite (Z.div_small (x mod 4096 - 1)) by lia.
  lia.
Qed.

Lemma page_ceil_aligned (x : Z) : x mod PAGE_SIZE = 0 -> page_ceil x = x.
Proof.
  intros H. unfold page_ceil, PAGE_SIZE in *.
  pose proof (Z.div_mod x 4096 ltac:(lia)).
  replace (x + 4096 - 1) with (x / 4096 * 4096 + 4095) by lia.
  rewrite Z.div_add_l by lia. change (4095 / 4096) with 0. lia.
Qed.

Lemma pages_len_ceil (x : Z) : pages_len x = page_ceil x.
Proof. reflexivity. Qed.

Lemma page_ceil_idem (x : Z) : page_ceil (page_ceil x) = page_ceil x.
Proof.
  apply page_ceil_aligned. unfold page_ceil.
  rewrite Z.mul_comm. apply Z.mod_mul. discriminate.
Qed.

Section LoadSegment.

Variable b : abi.
Variable K : kernel.
Variable r : ElfReader.
Variable i : Z.
Variable phdr : Phdr.
Variable p : process.
Hypothesis layout : segment_layout_ok b r phdr.

Let S := seg_start_Z r phdr.
Let sfe := S + p_filesz phdr.
Let lo := page_floor S.
Let hi := page_ceil (S + p_memsz phdr).
Let flen := p_offset phdr + p_filesz phdr - page_floor (p_offset phdr).

Lemma layout_facts :
  0 <= S /\ S + p_memsz phdr + (PAGE_SIZE - 1) < modulus b /\
  0 <= p_filesz phdr <= p_memsz phdr /\ 0 <= p_offset phdr /\
  p_offset phdr + p_filesz phdr < modulus b /\
  p_offset phdr - page_floor (p_offset phdr) = S - lo /\
  lo <= S /\ sfe <= page_ceil sfe /\ page_ceil sfe <= hi /\
  lo + flen = sfe /\ 0 <= lo /\ hi < modulus b /\ 0 <= flen.
Proof.
  destruct layout as (H1 & H2 & H3 & H4 & H5 & H6).
  fold S in H1, H2, H6.
  pose proof (page_floor_bounds S). pose proof (page_floor_bounds (p_offset phdr)).
  pose proof (page_ceil_bounds sfe). pose proof (page_ceil_bounds (S + p_memsz phdr)).
  pose proof (page_ceil_mono sfe (S + p_memsz phdr) ltac:(unfold sfe; lia)).
  assert (E : p_offset phdr - page_floor (p_offset phdr) = S - lo).
  { unfold lo, page_floor, PAGE_SIZE in *.
    pose proof (Z.div_mod S 4096 ltac:(lia)).
    pose proof (Z.div_mod (p_offset phdr) 4096 ltac:(lia)). lia. }
  assert (0 <= lo).
  { unfold lo, page_floor, PAGE_SIZE.
    pose proof (Z.div_pos S 4096 H1 ltac:(lia)). lia. }
  unfold hi, flen, sfe, PAGE_SIZE in *. repeat split; lia.
Qed.

(** The quantities of the loop body, free of wrap-around. *)
Lemma load_segment_normal :
  wrap b (p_vaddr phdr + load_bias_ r) = S /\
  wrap b (S + p_memsz phdr) = S + p_memsz phdr /\
  PAGE_START b S = lo /\
  PAGE_END b (S + p_memsz phdr) = hi /\
  wrap b (S + p_filesz phdr) = sfe /\
  wrap b (p_offset phdr + p_filesz phdr) = p_offset phdr + p_filesz phdr /\
  PAGE_START b (p_offset phdr) = page_floor (p_offset phdr) /\
  wrap b (p_offset phdr + p_filesz phdr - page_floor (p_offset phdr)) = flen /\
  PAGE_END b sfe = page_ceil sfe /\
  wrap b (hi - page_ceil sfe) = hi - page_ceil sfe.
Proof.
  destruct layout_facts
    as (H1 & H2 & H3 & H4 & H5 & H6 & H7 & H8 & H9 & H10 & H11 & H12 & H13).
  assert (W : forall x, 0 <= x -> x < modulus b -> wrap b x = x)
    by (intros; apply wrap_small; split; assumption).
  assert (Hps : 0 < PAGE_SIZE) by reflexivity.
  repeat split.
  - apply W; [exact H1 | lia].
  - apply W; lia.
  - apply PAGE_START_floor. split; lia.
  - apply PAGE_END_ceil; lia.
  - apply W; unfold sfe; lia.
  - apply W; lia.
  - apply PAGE_START_floor. split; lia.
  - apply W; fold flen; lia.
  - apply PAGE_END_ceil; unfold sfe in *; lia.
  - apply W; lia.
Qed.

End LoadSegment.

Section LoadSegmentProps.

Variable b : abi.
Variable K : kernel.
Variable r : ElfReader.
Variable i : Z.
Variable phdr : Phdr.
Variable p : process.
Hypothesis layout : segment_layout_ok b r phdr.

Let S := seg_start_Z r phdr.
Let sfe := S + p_filesz phdr.
Let lo := page_floor S.
Let hi := page_ceil (S + p_memsz phdr).
Let flen := p_offset phdr + p_filesz phdr - page_floor (p_offset phdr).
Let prot := PFLAGS_TO_PROT (p_flags phdr).
Let foff := file_offset_ r + page_floor (p_offset phdr).
Let tail := PAGE_SIZE - sfe mod PAGE_SIZE.

(** The loop body in terms of these quantities. *)
Lemma load_segment_eq :
  load_segment b K r i phdr p
  = let fl := Z.lor MAP_FIXED MAP_PRIVATE in
    let res := sys_mmap K lo flen prot fl (fd_ r) foff in
    let p1 :=
      if flen =? 0 then p
      else emit [call_mmap lo flen prot fl (fd_ r) foff res]
                (match res with
                 | Some _ => with_mem (mem_map_file K (fd_ r) foff lo flen (mem p)) p
                 | None => p
                 end) in
    if negb (flen =? 0) && match res with Some _ => false | None => true end
    then (Some (err_couldnt_map_segment i), p1)
    else
      let p2 :=
        if has_flag (p_flags phdr) PF_W && (sfe mod PAGE_SIZE >? 0)
        then emit [call_memset sfe tail]
                  (with_mem (mem_set_zero sfe tail (mem p1)) p1)
        else p1 in
      if hi >? page_ceil sfe then
        let len := hi - page_ceil sfe in
        let fl2 := Z.lor (Z.lor MAP_FIXED MAP_ANONYMOUS) MAP_PRIVATE in
        let res2 := sys_mmap K (page_ceil sfe) len prot fl2 (-1) 0 in
        match res2 with
        | None =>
          (Some err_couldnt_zero_fill,
           emit [call_mmap (page_ceil sfe) len prot fl2 (-1) 0 res2] p2)
        | Some _ =>
          (None,
           emit [call_mmap (page_ceil sfe) len prot fl2 (-1) 0 res2]
                (with_mem (mem_map_anon (page_ceil sfe) len (mem p2)) p2))
        end
      else (None, p2).
Proof.
  destruct (load_segment_normal b r phdr layout)
    as (N1 & N2 & N3 & N4 & N5 & N6 & N7 & N8 & N9 & N10).
  unfold load_segment. cbv zeta.
  rewrite N1, N2, N3, N4, N5, N6, N7, N8, N9, N10, PAGE_OFFSET_mod.
  reflexivity.
Qed.

End LoadSegmentProps.

Lemma pages_len_ceil_diff (x y : Z) :
  pages_len (page_ceil x - page_ceil y) = page_ceil x - page_ceil y.
Proof.
  unfold page_ceil at 1 2. rewrite <- Z.mul_sub_distr_l.
  rewrite pages_len_exact. unfold page_ceil. lia.
Qed.

Ltac split_ranges :=
  unfold mem_map_anon, mem_set_zero, mem_map_file, in_range;
  repeat match goal with
         | |- context [?x <=? ?y] => destruct (Z.leb_spec x y)
         | |- context [?x <? ?y] => destruct (Z.ltb_spec x y)
         end;
  cbn [andb].

(** The loop body writes memory inside the pages of the segment only,
    whether it succeeds or not. *)
Lemma load_segment_frame (b : abi) (K : kernel) (r : ElfReader) (i : Z)
      (phdr : Phdr) (p : process) :
  segment_layout_ok b r phdr ->
  forall a,
    a < page_floor (seg_start_Z r phdr) \/
    page_ceil (seg_start_Z r phdr + p_memsz phdr) <= a ->
    mem (snd (load_segment b K r i phdr p)) a = mem p a.
Proof.
  intros layout. rewrite (load_segment_eq b K r i phdr p layout).
  destruct (layout_facts b r phdr layout)
    as (H1 & H2 & H3 & H4 & H5 & H6 & H7 & H8 & H9 & H10 & H11 & H12 & H13).
  pose proof (page_ceil_tail (seg_start_Z r phdr + p_filesz phdr)) as Ht.
  pose proof (pages_len_ceil_diff (seg_start_Z r phdr + p_memsz phdr)
                (seg_start_Z r phdr + p_filesz phdr)) as Hlen.
  assert (Hfl : page_floor (seg_start_Z r phdr)
                + pages_len (p_offset phdr + p_filesz phdr
                             - page_floor (p_offset phdr))
                = page_ceil (seg_start_Z r phdr + p_filesz phdr)).
  { rewrite pages_len_ceil, <- page_ceil_floor_add. f_equal. lia. }
  cbv zeta.
  set (flen := p_offset phdr + p_filesz phdr - page_floor (p_offset phdr)) in *.
  set (S := seg_start_Z r phdr) in *.
  set (c1 := page_ceil (S + p_filesz phdr)) in *.
  set (c2 := page_ceil (S + p_memsz phdr)) in *.
  set (l := page_floor S) in *.
  set (m := (S + p_filesz phdr) mod PAGE_SIZE) in *.
  destruct (Z.eqb_spec flen 0) as [E0|E0]; cbn [negb andb];
    [| destruct (sys_mmap K l flen _ _ _ _);
       [|intros a Hr; reflexivity] ];
    (destruct (has_flag (p_flags phdr) PF_W) eqn:Ew; cbn [andb];
     [ destruct (Z.gtb_spec m 0) as [Hg|Hg];
       [specialize (Ht Hg) | clear Ht]
     | clear Ht ]);
    (destruct (Z.gtb_spec c2 c1);
     [ destruct (sys_mmap K c1 (c2 - c1) _ _ _ _) | ]);
    intros a Hr; cbn [snd mem emit with_mem];
    split_ranges; try reflexivity; exfalso; lia.
Qed.

(** X13. For a segment whose biased range and file range fit the address
    word, whose file part is not larger than its memory part and whose
    address and file offset agree modulo the page size, every mapping and
    every [memset] that the loop body of [LoadSegments] makes lies within
    the pages of that segment, from the page of its first byte to the page
    boundary after its last, and memory outside those pages is as it was,
    whether the body succeeds or fails.  The shared layout record, which
    lives in that memory, therefore keeps its contents whenever it lies
    outside the pages of the segment. *)
Theorem load_segment_within (b : abi) (K : kernel) (r : ElfReader) (i : Z)
        (phdr : Phdr) (p : process) :
  segment_layout_ok b r phdr ->
  let S := seg_start_Z r phdr in
  let lo := page_floor S in
  let hi := page_ceil (S + p_memsz phdr) in
  let res := load_segment b K r i phdr p in
  (exists evs,
     new_calls p (snd res) evs /\
     forall ev, In ev evs -> call_within lo hi ev) /\
  (forall a, a < lo \/ hi <= a -> mem (snd res) a = mem p a) /\
  (LINKER_MAPS_ADDR b + sizeof_linker_maps b <= lo \/
   hi <= LINKER_MAPS_ADDR b ->
   maps b (snd res) = maps b p).
Proof.
  intros layout. cbn zeta.
  pose proof (load_segment_frame b K r i phdr p layout) as Hframe.
  split; [|split; [exact Hframe|]].
  2:{ intros Hout. unfold maps. apply linker_maps_ext. intros a Ha.
      apply Hframe. unfold sizeof_linker_maps in *. lia. }
  rewrite (load_segment_eq b K r i phdr p layout).
  destruct (layout_facts b r phdr layout)
    as (H1 & H2 & H3 & H4 & H5 & H6 & H7 & H8 & H9 & H10 & H11 & H12 & H13).
  pose proof (page_ceil_tail (seg_start_Z r phdr + p_filesz phdr)) as Ht.
  cbv zeta. unfold new_calls.
  destruct (Z.eqb_spec (p_offset phdr + p_filesz phdr
                        - page_floor (p_offset phdr)) 0) as [E0|E0];
    cbn [negb andb];
    [| destruct (sys_mmap K (page_floor (seg_start_Z r phdr)) _ _ _ _ _);
       [|eexists; split; [reflexivity|];
         intros ev [<-|[]]; cbn [call_within]; lia] ];
    (destruct (has_flag (p_flags phdr) PF_W
               && (_ mod PAGE_SIZE >? 0)) eqn:Ew;
     [ apply andb_true_iff in Ew; destruct Ew as [_ Ew];
       apply Z.gtb_lt in Ew; specialize (Ht Ew) | clear Ht ]);
    (destruct (Z.gtb_spec (page_ceil (seg_start_Z r phdr + p_memsz phdr))
                          (page_ceil (seg_start_Z r phdr + p_filesz phdr)));
     [ destruct (sys_mmap K (page_ceil (seg_start_Z r phdr + p_filesz phdr))
                          _ _ _ _ _) | ]);
    cbn [snd emit with_mem log];
    first
      [ eexists; split; [rewrite <- ?app_assoc; reflexivity|];
        intros ev Hev; cbn [app] in Hev;
        repeat (destruct Hev as [<-|Hev]; [cbn [call_within]; lia|]);
        destruct Hev
      | exists []; split; [symmetry; apply app_nil_r | intros ev []] ].
Qed.

Lemma sample_data_layout :
  segment_layout_ok ILP32 sample_loaded_reader sample_data_phdr.
Proof. repeat split; try discriminate; reflexivity. Qed.

Lemma load_segment_within_witness :
  maps ILP32 (snd (load_segment ILP32 granting_kernel sample_loaded_reader 2
                     sample_data_phdr (quiet_process (fun _ => 7))))
  = maps ILP32 (quiet_process (fun _ => 7)).
Proof.
  destruct (load_segment_within ILP32 granting_kernel sample_loaded_reader 2
              sample_data_phdr (quiet_process (fun _ => 7))
              sample_data_layout) as (_ & _ & H).
  apply H. right. vm_compute. discriminate.
Defined.

(** A segment placed on the page of the layout record replaces the
    record by the bytes of the file. *)
Lemma load_segment_over_record :
  let p := quiet_process (fun _ => 7) in
  let res := load_segment ILP32 granting_kernel sample_record_reader 2
                          sample_data_phdr p in
  segment_layout_ok ILP32 sample_record_reader sample_data_phdr /\
  page_floor (seg_start_Z sample_record_reader sample_data_phdr)
  = LINKER_MAPS_ADDR ILP32 /\
  fst res = None /\
  GUEST_LIBC_ADDR (maps ILP32 p) = 0xbcc60000 /\
  GUEST_LIBC_ADDR (maps ILP32 (snd res)) = 0.
Proof.
  cbn zeta.
  split; [repeat split; try discriminate; reflexivity|].
  split; [vm_compute; reflexivity|]. split; [vm_compute; reflexivity|].
  split; vm_compute; reflexivity.
Qed.

(** X14. After the loop body of [LoadSegments] has succeeded on a segment
    laid out as the technical note requires, the bytes of the segment that
    the file backs are those of the file at the segment's offset; every
    byte from the page boundary after the file part to the page boundary
    after the segment is zero; in a writable segment the bytes between the
    end of the file part and that first page boundary are zero as well;
    and memory outside the pages of the segment is as before. *)
Theorem load_segment_contents (b : abi) (K : kernel) (r : ElfReader) (i : Z)
        (phdr : Phdr) (p : process) :
  segment_layout_ok b r phdr ->
  let S := seg_start_Z r phdr in
  let res := load_segment b K r i phdr p in
  fst res = None ->
  (forall a, S <= a < S + p_filesz phdr ->
     mem (snd res) a
     = file_byte K (fd_ r) (file_offset_ r + p_offset phdr + (a - S))) /\
  (forall a, page_ceil (S + p_filesz phdr) <= a
             < page_ceil (S + p_memsz phdr) ->
     mem (snd res) a = 0) /\
  (has_flag (p_flags phdr) PF_W = true ->
   forall a, S + p_filesz phdr <= a < page_ceil (S + p_filesz phdr) ->
     mem (snd res) a = 0) /\
  (forall a, a < page_floor S \/ page_ceil (S + p_memsz phdr) <= a ->
     mem (snd res) a = mem p a).
Proof.
  intros layout. cbn zeta. rewrite (load_segment_eq b K r i phdr p layout).
  destruct (layout_facts b r phdr layout)
    as (H1 & H2 & H3 & H4 & H5 & H6 & H7 & H8 & H9 & H10 & H11 & H12 & H13).
  pose proof (page_ceil_tail (seg_start_Z r phdr + p_filesz phdr)) as Ht.
  pose proof (page_ceil_aligned (seg_start_Z r phdr + p_filesz phdr)) as Ha.
  pose proof (Z.mod_pos_bound (seg_start_Z r phdr + p_filesz phdr) PAGE_SIZE
                ltac:(reflexivity)) as Hm.
  pose proof (pages_len_ceil_diff (seg_start_Z r phdr + p_memsz phdr)
                (seg_start_Z r phdr + p_filesz phdr)) as Hlen.
  assert (Hfl : page_floor (seg_start_Z r phdr)
                + pages_len (p_offset phdr + p_filesz phdr
                             - page_floor (p_offset phdr))
                = page_ceil (seg_start_Z r phdr + p_filesz phdr)).
  { rewrite pages_len_ceil, <- page_ceil_floor_add. f_equal. lia. }
  cbv zeta.
  set (flen := p_offset phdr + p_filesz phdr - page_floor (p_offset phdr)) in *.
  set (S := seg_start_Z r phdr) in *.
  set (c1 := page_ceil (S + p_filesz phdr)) in *.
  set (c2 := page_ceil (S + p_memsz phdr)) in *.
  set (l := page_floor S) in *.
  set (m := (S + p_filesz phdr) mod PAGE_SIZE) in *.
  destruct (Z.eqb_spec flen 0) as [E0|E0]; cbn [negb andb];
    [| destruct (sys_mmap K l flen _ _ _ _); [|discriminate] ];
    (destruct (has_flag (p_flags phdr) PF_W) eqn:Ew; cbn [andb];
     [ destruct (Z.gtb_spec m 0) as [Hg|Hg];
       [specialize (Ht Hg); clear Ha | specialize (Ha ltac:(lia)); clear Ht]
     | clear Ht Ha ]);
    (destruct (Z.gtb_spec c2 c1);
     [ destruct (sys_mmap K c1 (c2 - c1) _ _ _ _); [|discriminate] | ]);
    intros _; cbn [snd mem emit with_mem];
    (split; [|split; [|split; [intros Hw; try discriminate Hw|]]]);
    intros a Hr;
    split_ranges; try reflexivity; try (f_equal; lia); try (exfalso; lia).
Qed.

Lemma load_segment_contents_witness :
  mem (snd (load_segment ILP32 granting_kernel sample_loaded_reader 2
              sample_data_phdr (quiet_process (fun _ => 7))))
      (0x40003400 + 5) = 0.
Proof.
  destruct (load_segment_contents ILP32 granting_kernel sample_loaded_reader 2
              sample_data_phdr (quiet_process (fun _ => 7))
              sample_data_layout eq_refl) as (_ & _ & H & _).
  apply (H eq_refl). split; [discriminate|reflexivity].
Defined.

Lemma load_segment_error_index (b : abi) (K : kernel) (r : ElfReader) (i j : Z)
      (phdr : Phdr) (p : process) :
  fst (load_segment b K r i phdr p) = Some (err_couldnt_map_segment j) ->
  j = i.
Proof.
  unfold load_segment.
  destruct (negb _ && _); cbn [fst]; [intros [= ->]; reflexivity|].
  destruct (_ >? _); [|discriminate].
  destruct (sys_mmap K _ _ _ _ (-1) 0); discriminate.
Qed.

Lemma load_segments_failure (b : abi) (K : kernel) (r : ElfReader)
      (t : list Phdr) :
  forall i0 p j,
    fst (load_segments_from b K r i0 t p)
    = Failed (err_couldnt_map_segment j) ->
    i0 <= j < i0 + Z.of_nat (List.length t) /\
    exists q, nth_error t (Z.to_nat (j - i0)) = Some q /\ is_load q = true.
Proof.
  induction t as [|phdr t IH]; intros i0 p j; cbn [load_segments_from];
    [discriminate|].
  destruct (Z.eqb_spec (p_type phdr) PT_LOAD) as [El|El]; cbn [negb].
  - pose proof (load_segment_error_index b K r i0 j phdr p) as He.
    destruct (load_segment b K r i0 phdr p) as [[e|] p']; cbn [fst] in *.
    + intros [= ->]. specialize (He eq_refl). subst j.
      cbn [List.length]. split; [lia|]. exists phdr.
      rewrite Z.sub_diag. split; [reflexivity|]. apply Z.eqb_eq, El.
    + intros H. destruct (IH _ _ _ H) as (Hr & q & Hq & Hl).
      cbn [List.length]. split; [lia|]. exists q. split; [|exact Hl].
      replace (Z.to_nat (j - i0)) with (Datatypes.S (Z.to_nat (j - (i0 + 1))))
        by lia.
      exact Hq.
  - intros H. destruct (IH _ _ _ H) as (Hr & q & Hq & Hl).
    cbn [List.length]. split; [lia|]. exists q. split; [|exact Hl].
    replace (Z.to_nat (j - i0)) with (Datatypes.S (Z.to_nat (j - (i0 + 1))))
      by lia.
    exact Hq.
Qed.

Lemma load_segments_frame (b : abi) (K : kernel) (r : ElfReader)
      (t : list Phdr) :
  (forall q, In q (load_entries t) -> segment_layout_ok b r q) ->
  forall a, outside_segments r t a ->
  forall i0 p, mem (snd (load_segments_from b K r i0 t p)) a = mem p a.
Proof.
  induction t as [|phdr t IH]; intros Hl a Ha i0 p; cbn [load_segments_from];
    [reflexivity|].
  unfold outside_segments in *. rewrite load_entries_cons in Hl, Ha.
  unfold is_load in Hl, Ha.
  destruct (p_type phdr =? PT_LOAD); cbn [negb].
  - pose proof (load_segment_frame b K r i0 phdr p
                  (Hl phdr (or_introl eq_refl)) a
                  (Ha phdr (or_introl eq_refl))) as Hm.
    destruct (load_segment b K r i0 phdr p) as [[e|] p']; cbn [snd] in *.
    + exact Hm.
    + rewrite IH; [exact Hm| |].
      * intros q Hq. apply Hl. right. exact Hq.
      * intros q Hq. apply Ha. right. exact Hq.
  - apply IH; assumption.
Qed.

Lemma load_segments_no_load (b : abi) (K : kernel) (r : ElfReader)
      (t : list Phdr) :
  load_entries t = [] ->
  forall i0 p, load_segments_from b K r i0 t p = (Done, p).
Proof.
  induction t as [|phdr t IH]; intros Hn i0 p; [reflexivity|].
  rewrite load_entries_cons in Hn. cbn [load_segments_from].
  unfold is_load in Hn.
  destruct (p_type phdr =? PT_LOAD); [discriminate|]. apply IH, Hn.
Qed.

(** X15. When [LoadSegments] fails with "couldn't map segment i", [i] is
    the position in the table of a LOAD entry; on a table without LOAD
    entries it succeeds without any call or change.  When every LOAD entry
    is laid out as the technical note requires, it writes memory inside
    the pages of the LOAD segments only, whether it succeeds or fails: a
    byte outside all of them is as it was, and so is the shared layout
    record when all of its bytes are. *)
Theorem LoadSegments_failure_index (b : abi) (K : kernel) (r : ElfReader)
        (p : process) :
  let res := LoadSegments b K r p in
  (forall j, fst (fst res) = Failed (err_couldnt_map_segment j) ->
     0 <= j < Z.of_nat (List.length (phdr_entries r)) /\
     exists q, nth_error (phdr_entries r) (Z.to_nat j) = Some q /\
               is_load q = true) /\
  (load_entries (phdr_entries r) = [] -> res = (Done, r, p)) /\
  ((forall q, In q (load_entries (phdr_entries r)) ->
      segment_layout_ok b r q) ->
   (forall a, outside_segments r (phdr_entries r) a ->
      mem (snd res) a = mem p a) /\
   ((forall a, LINKER_MAPS_ADDR b <= a
               < LINKER_MAPS_ADDR b + sizeof_linker_maps b ->
               outside_segments r (phdr_entries r) a) ->
    maps b (snd res) = maps b p)).
Proof.
  cbn zeta. unfold LoadSegments.
  pose proof (load_segments_failure b K r (phdr_entries r) 0 p) as Hf.
  pose proof (fun H a Ha =>
                load_segments_frame b K r (phdr_entries r) H a Ha 0 p) as Hm.
  pose proof (fun H => load_segments_no_load b K r (phdr_entries r) H 0 p)
    as Hn.
  destruct (load_segments_from b K r 0 (phdr_entries r) p) as [o p'].
  cbn [fst snd] in *. split; [|split].
  - intros j Hj. destruct (Hf j Hj) as (Hr & q & Hq & Hl).
    rewrite Z.sub_0_r in Hq. split; [lia|]. exists q. split; assumption.
  - intros H. specialize (Hn H). injection Hn as -> ->. reflexivity.
  - intros Hl. split; [exact (Hm Hl)|].
    intros Hout. unfold maps. apply linker_maps_ext. intros a Ha.
    apply (Hm Hl), Hout, Ha.
Qed.

(** ** Protection state *)

Lemma apply_calls_cons (ev : event) (evs : list event) (s : protections) :
  apply_calls (ev :: evs) s = apply_calls evs (apply_call s ev).
Proof. reflexivity. Qed.

Lemma apply_call_uncovered (a : Z) (ev : event) (s : protections) :
  event_covers a ev = false -> apply_call s ev a = s a.
Proof.
  destruct ev; try reflexivity. cbn [event_covers apply_call].
  destruct (ret <? 0); [reflexivity|]. cbn [negb andb]. intros ->. reflexivity.
Qed.

Lemma apply_call_covered (a : Z) (ev : event) (s s' : protections) :
  event_covers a ev = true -> apply_call s ev a = apply_call s' ev a.
Proof.
  destruct ev; try discriminate. cbn [event_covers apply_call].
  destruct (ret <? 0); [discriminate|]. cbn [negb andb]. intros ->. reflexivity.
Qed.

(** Calls that do not cover an address leave its protection alone. *)
Lemma apply_calls_uncovered (a : Z) (evs : list event) :
  forall s, existsb (event_covers a) evs = false -> apply_calls evs s a = s a.
Proof.
  induction evs as [|ev evs IH]; intros s H; [reflexivity|].
  cbn [existsb] in H. apply orb_false_iff in H. destruct H as [H1 H2].
  rewrite apply_calls_cons, IH by exact H2. apply apply_call_uncovered, H1.
Qed.

(** Once a call covers an address, the earlier protection is forgotten. *)
Lemma apply_calls_covered (a : Z) (evs : list event) :
  forall s s', existsb (event_covers a) evs = true ->
               apply_calls evs s a = apply_calls evs s' a.
Proof.
  induction evs as [|ev evs IH]; intros s s' H; [discriminate|].
  rewrite !apply_calls_cons.
  destruct (existsb (event_covers a) evs) eqn:E.
  - apply IH. reflexivity.
  - cbn [existsb] in H. rewrite E, orb_false_r in H.
    rewrite !apply_calls_uncovered by exact E.
    apply apply_call_covered, H.
Qed.

Lemma apply_calls_app (e1 e2 : list event) (s : protections) :
  apply_calls (e1 ++ e2) s = apply_calls e2 (apply_calls e1 s).
Proof. unfold apply_calls. apply fold_left_app. Qed.

(** ** Unprotect, then protect *)

Lemma set_load_prot_success (b : abi) (K : kernel) (load_bias extra : Z)
      (t : list Phdr) :
  fst (_phdr_table_set_load_prot b K t load_bias extra) = 0 ->
  forall q, In q (List.filter hardened t) ->
    ~ sys_mprotect K (seg_page_start_of b load_bias q)
                   (seg_pages_len b load_bias q)
                   (Z.lor (PFLAGS_TO_PROT (p_flags q)) extra) < 0.
Proof.
  induction t as [|p t IH]; intros H q Hq; [destruct Hq|].
  cbn [_phdr_table_set_load_prot List.filter] in *.
  rewrite hardened_skip in H.
  destruct (hardened p) eqn:E; cbn [negb] in H; [|apply IH; assumption].
  fold (seg_pages_len b load_bias p) in H.
  destruct (Z.ltb_spec
              (sys_mprotect K (seg_page_start_of b load_bias p)
                 (seg_pages_len b load_bias p)
                 (Z.lor (PFLAGS_TO_PROT (p_flags p)) extra)) 0) as [Hlt|Hge].
  - discriminate H.
  - destruct (_phdr_table_set_load_prot b K t load_bias extra) as [res evs].
    cbn [fst] in *. destruct Hq as [<-|Hq]; [lia|]. apply IH; assumption.
Qed.

Lemma prot_calls_cover (b : abi) (K : kernel) (load_bias extra : Z) (a : Z)
      (l : list Phdr) :
  (forall q, In q l ->
     ~ sys_mprotect K (seg_page_start_of b load_bias q)
                    (seg_pages_len b load_bias q)
                    (Z.lor (PFLAGS_TO_PROT (p_flags q)) extra) < 0) ->
  existsb (event_covers a) (map (prot_call b K load_bias extra) l)
  = existsb (fun q => in_range (seg_page_start_of b load_bias q)
                               (pages_len (seg_pages_len b load_bias q)) a) l.
Proof.
  induction l as [|q l IH]; intros H; [reflexivity|].
  cbn [map existsb]. rewrite IH by (intros q' Hq'; apply H; right; exact Hq').
  f_equal. unfold prot_call, event_covers.
  specialize (H q (or_introl eq_refl)).
  destruct (Z.ltb_spec (sys_mprotect K (seg_page_start_of b load_bias q)
                          (seg_pages_len b load_bias q)
                          (Z.lor (PFLAGS_TO_PROT (p_flags q)) extra)) 0);
    [contradiction|reflexivity].
Qed.

Lemma segment_pages_cover (b : abi) (load_bias a : Z) (l : list Phdr) :
  existsb (fun q => in_range (seg_page_start_of b load_bias q)
                             (pages_len (seg_pages_len b load_bias q)) a) l
  = existsb (fun q => in_segment_pages b load_bias q a) l.
Proof.
  induction l as [|q l IHl]; [reflexivity|].
  cbn [existsb]. rewrite IHl. f_equal. unfold in_segment_pages.
  destruct (relro_size_pages b load_bias q) as (n & _ & E & _).
  unfold relro_size in E. unfold seg_pages_len. rewrite E.
  rewrite pages_len_exact. reflexivity.
Qed.

(** X16. When [phdr_table_unprotect_segments] and then
    [phdr_table_protect_segments] both succeed, the page protections they
    leave behind are those that [phdr_table_protect_segments] alone would
    have left: the write permission added for relocation is taken back
    everywhere, and pages outside the non-writable LOAD segments keep the
    protection they had. *)
Theorem protect_undoes_unprotect (b : abi) (K : kernel) (t : list Phdr)
        (load_bias : Z) (s : protections) (a : Z) :
  let unprot := phdr_table_unprotect_segments b K t load_bias in
  let prot := phdr_table_protect_segments b K t load_bias in
  fst unprot = 0 -> fst prot = 0 ->
  apply_calls (snd unprot ++ snd prot) s a = apply_calls (snd prot) s a /\
  (existsb (fun q => in_segment_pages b load_bias q a)
           (List.filter hardened t) = false ->
   apply_calls (snd unprot ++ snd prot) s a = s a).
Proof.
  cbn zeta. unfold phdr_table_unprotect_segments, phdr_table_protect_segments.
  intros HU HP.
  destruct (set_load_prot_calls b K load_bias PROT_WRITE t) as (_ & EU & _).
  destruct (set_load_prot_calls b K load_bias 0 t) as (_ & EP & _).
  cbn zeta in *. rewrite (EU HU), (EP HP), apply_calls_app.
  pose proof (prot_calls_cover b K load_bias PROT_WRITE a _
                (set_load_prot_success b K load_bias PROT_WRITE t HU)) as CU.
  pose proof (prot_calls_cover b K load_bias 0 a _
                (set_load_prot_success b K load_bias 0 t HP)) as CP.
  rewrite segment_pages_cover in CU, CP.
  destruct (existsb (fun q => in_segment_pages b load_bias q a)
                    (List.filter hardened t)) eqn:E.
  - split; [|discriminate]. apply apply_calls_covered, CP.
  - rewrite !apply_calls_uncovered by assumption.
    split; [reflexivity|]. intros _. reflexivity.
Qed.

Lemma protect_undoes_unprotect_witness :
  let unprot :=
    phdr_table_unprotect_segments ILP32 granting_kernel sample_table
                                  0x40000000 in
  let prot :=
    phdr_table_protect_segments ILP32 granting_kernel sample_table
                                0x40000000 in
  apply_calls (snd unprot ++ snd prot) (fun _ => 0) 0x40000800
  = apply_calls (snd prot) (fun _ => 0) 0x40000800.
Proof.
  cbn zeta.
  apply (proj1 (protect_undoes_unprotect ILP32 granting_kernel sample_table
                  0x40000000 (fun _ => 0) 0x40000800 eq_refl eq_refl)).
Defined.

(** ** Read-only relocations *)





(** ** Saving the read-only relocations to a file *)







(** ** The filter as a program *)

Lemma well_formed_tail (i : sock_filter) (rest : list sock_filter) :
  well_formed (i :: rest) = true -> rest <> [] -> well_formed rest = true.
Proof.
  cbn [well_formed]. intros H Hne.
  destruct (code i =? _).
  { apply andb_true_iff in H. apply H. }
  destruct (_ || _ || _).
  { apply andb_true_iff in H. apply H. }
  destruct (code i =? _); [|discriminate].
  apply andb_true_iff in H. destruct H as [_ H].
  destruct rest; [contradiction|exact H].
Qed.

Lemma well_formed_nonempty (prog : list sock_filter) :
  well_formed prog = true -> (0 < List.length prog)%nat.
Proof. destruct prog; [discriminate|cbn; lia]. Qed.

Lemma load_in_bounds_loads (d : seccomp_data) (off : Z) :
  load_in_bounds off = true -> exists v, load_word d off = Some v.
Proof.
  unfold load_in_bounds, load_word. intros H.
  destruct (off =? 0); [eauto|]. destruct (off =? 4); [eauto|].
  destruct (off =? 8); [eauto|]. destruct (off =? 12); [eauto|].
  cbn [orb] in H. rewrite H. eauto.
Qed.

(** A well-formed program returns a verdict from every position a jump
    can reach. *)
Lemma well_formed_run (prog : list sock_filter) :
  well_formed prog = true ->
  forall (n : nat) (A : Z) (d : seccomp_data),
    (n < List.length prog)%nat ->
    run prog n A d = Some SECCOMP_RET_ALLOW \/
    run prog n A d = Some SECCOMP_RET_TRAP.
Proof.
  induction prog as [|i rest IH]; intros H n A d Hn; [discriminate|].
  cbn [List.length] in Hn. destruct n as [|n].
  - pose proof H as H'. cbn [well_formed] in H. cbn [run].
    destruct (code i =? (BPF_LD ||| BPF_W ||| BPF_ABS)).
    { apply andb_true_iff in H. destruct H as [Hl Hr].
      destruct (load_in_bounds_loads d _ Hl) as [v ->].
      apply IH; [exact Hr|apply well_formed_nonempty, Hr]. }
    destruct (code i =? (BPF_JMP ||| BPF_JEQ ||| BPF_K)).
    { cbn [orb] in H. apply andb_true_iff in H. destruct H as [H Hr].
      apply andb_true_iff in H. destruct H as [Ht Hf].
      apply Nat.ltb_lt in Ht, Hf.
      apply IH; [exact Hr|]. destruct (A =? k i); assumption. }
    destruct (code i =? (BPF_JMP ||| BPF_JGT ||| BPF_K)).
    { cbn [orb] in H. apply andb_true_iff in H. destruct H as [H Hr].
      apply andb_true_iff in H. destruct H as [Ht Hf].
      apply Nat.ltb_lt in Ht, Hf.
      apply IH; [exact Hr|]. destruct (A >? k i); assumption. }
    destruct (code i =? (BPF_JMP ||| BPF_JGE ||| BPF_K)).
    { cbn [orb] in H. apply andb_true_iff in H. destruct H as [H Hr].
      apply andb_true_iff in H. destruct H as [Ht Hf].
      apply Nat.ltb_lt in Ht, Hf.
      apply IH; [exact Hr|]. destruct (A >=? k i); assumption. }
    cbn [orb] in H.
    destruct (code i =? (BPF_RET ||| BPF_K)); [|discriminate].
    apply andb_true_iff in H. destruct H as [Hv _].
    unfold is_verdict in Hv. apply orb_true_iff in Hv.
    destruct Hv as [Hv|Hv]; apply Z.eqb_eq in Hv; rewrite Hv; auto.
  - cbn [run]. apply IH; [|lia].
    apply (well_formed_tail i); [exact H|].
    destruct rest; [cbn in Hn; lia|discriminate].
Qed.

Lemma filter_well_formed (NR : syscall -> Z) (m : linker_maps_addr_t)
      (b : abi) :
  well_formed (filter NR m b) = true.
Proof. destruct b; vm_compute; reflexivity. Qed.

(** X19. The program that [init_seccomp] installs passes the checks of a
    classic BPF verifier whatever the syscall table and the layout record:
    its loads stay inside [struct seccomp_data], its jumps land inside the
    program and it cannot run off its end.  So for every syscall it
    returns a verdict, and the verdict is [SECCOMP_RET_ALLOW] or
    [SECCOMP_RET_TRAP], never another action. *)
Theorem filter_always_decides (NR : syscall -> Z) (m : linker_maps_addr_t)
        (b : abi) (d : seccomp_data) :
  well_formed (filter NR m b) = true /\
  (evaluate (filter NR m b) d = Some SECCOMP_RET_ALLOW \/
   evaluate (filter NR m b) d = Some SECCOMP_RET_TRAP).
Proof.
  split; [apply filter_well_formed|].
  unfold evaluate. apply well_formed_run; [apply filter_well_formed|].
  apply well_formed_nonempty, filter_well_formed.
Qed.

Lemma load_word_no_args (d d' : seccomp_data) (off : Z) :
  same_call_site d d' -> off < offsetof_args ->
  load_word d off = load_word d' off.
Proof.
  intros (E1 & E2 & E3) H. unfold load_word, offsetof_args in *.
  rewrite E1, E2, E3.
  destruct (off =? 0); [reflexivity|]. destruct (off =? 4); [reflexivity|].
  destruct (off =? 8); [reflexivity|]. destruct (off =? 12); [reflexivity|].
  destruct (Z.leb_spec 16 off); [lia|reflexivity].
Qed.

Lemma run_no_args (d d' : seccomp_data) (prog : list sock_filter) :
  same_call_site d d' -> loads_no_args prog = true ->
  forall (n : nat) (A : Z), run prog n A d = run prog n A d'.
Proof.
  intros Hs. induction prog as [|i rest IH]; intros H n A; [reflexivity|].
  cbn [loads_no_args forallb] in H. apply andb_true_iff in H.
  destruct H as [Hi Hr]. fold (loads_no_args rest) in Hr.
  specialize (IH Hr). cbn [run]. destruct n as [|n]; [|apply IH].
  destruct (code i =? (BPF_LD ||| BPF_W ||| BPF_ABS)).
  { apply Z.ltb_lt in Hi. rewrite (load_word_no_args d d' _ Hs Hi).
    destruct (load_word d' (k i)); [apply IH|reflexivity]. }
  repeat (destruct (code i =? _); [apply IH|]). reflexivity.
Qed.

(** X20. The filter never looks at the arguments of a syscall: two calls
    with the same number, architecture token and instruction pointer get
    the same verdict, whatever their arguments. *)
Theorem filter_ignores_arguments (NR : syscall -> Z) (m : linker_maps_addr_t)
        (b : abi) (d d' : seccomp_data) :
  same_call_site d d' ->
  evaluate (filter NR m b) d = evaluate (filter NR m b) d'.
Proof.
  intros H. unfold evaluate. apply run_no_args; [exact H|].
  destruct b; vm_compute; reflexivity.
Qed.

Lemma filter_ignores_arguments_witness :
  evaluate (filter NR_arm sample_maps_32 ILP32)
           (mk_seccomp_data (NR_arm __NR_ioctl) AUDIT_ARCH_ARM 0x70000000
                            [3; 0x5401; 0; 0; 0; 0])
  = evaluate (filter NR_arm sample_maps_32 ILP32)
             (mk_seccomp_data (NR_arm __NR_ioctl) AUDIT_ARCH_ARM 0x70000000
                              [9; 0x8912; 0x7fff0000; 0; 0; 0]).
Proof.
  apply (filter_ignores_arguments NR_arm sample_maps_32 ILP32).
  split; [reflexivity|]. split; reflexivity.
Defined.

(** X21. The complete verdict of the filter when the two ends of the
    window share their upper 32 bits (always so on a 32-bit build): a call
    is refused exactly when it carries the expected architecture token,
    comes from an instruction pointer at or above the low-address
    threshold and outside the window, and its number is on the denylist;
    every other call is allowed. *)
Theorem filter_refuses_exactly (b : abi) (NR : syscall -> Z)
        (m : linker_maps_addr_t) (d : seccomp_data) :
  in_word b (PRELINKER_ADDR m) -> in_word b (LINKER_MAPS_LAST_ADDR m) ->
  in_word b (instruction_pointer d) -> 0 <= arch d < 2 ^ 32 ->
  PRELINKER_ADDR m / 2 ^ 32 = LINKER_MAPS_LAST_ADDR m / 2 ^ 32 ->
  (refused NR m b d ->
   evaluate (filter NR m b) d = Some SECCOMP_RET_TRAP) /\
  (~ refused NR m b d ->
   evaluate (filter NR m b) d = Some SECCOMP_RET_ALLOW).
Proof.
  intros HP HL Hip Ha Hsame. unfold refused.
  destruct (Z.eq_dec (arch d) (AUDIT_ARCH b)) as [Harch|Harch].
  2:{ split; [intros (E & _); contradiction|]. intros _.
      apply filter_other_architecture. rewrite u32_small; assumption. }
  destruct (Z_lt_le_dec (instruction_pointer d) (low_address_threshold b))
    as [Hlow|Hlow].
  { split; [intros (_ & E & _); lia|]. intros _.
    apply filter_low_address; assumption. }
  rewrite (filter_verdict b NR m d HP HL Hip Harch Hlow).
  pose proof (high_half b _ Hip) as Hhi. pose proof (high_half b _ HL) as HhL.
  pose proof (low_half b _ Hip) as Hlo. pose proof (low_half b _ HL) as HlL.
  pose proof (low_half b _ HP) as HlP.
  pose proof (u32_range (instruction_pointer d)) as Rip.
  pose proof (u32_range (LINKER_MAPS_LAST_ADDR m)) as RL.
  pose proof (u32_range (PRELINKER_ADDR m)) as RP.
  unfold in_window, lo32 in *.
  set (P := PRELINKER_ADDR m) in *. set (L := LINKER_MAPS_LAST_ADDR m) in *.
  set (ip := instruction_pointer d) in *.
  rewrite Hhi, HhL.
  destruct (denylisted_dec NR b (nr d)) eqn:Ed.
  - pose proof (proj1 (denylisted_dec_spec NR b (nr d)) Ed) as Hd.
    destruct (Z.leb_spec P ip) as [H1|H1];
      destruct (Z.eqb_spec (ip / 2 ^ 32) (L / 2 ^ 32)) as [H2|H2];
      destruct (Z.ltb_spec (u32 ip) (u32 L)) as [H3|H3]; cbn [andb];
      (split; [intros (_ & _ & Hw & _)|intros Hn]);
      try reflexivity;
      try (exfalso; apply Hw; lia);
      try (exfalso; apply Hn; repeat split; try assumption; lia).
  - assert (Hd : ~ denylisted NR b (nr d)).
    { intros Hd. apply denylisted_dec_spec in Hd. congruence. }
    split; [intros (_ & _ & _ & Hd'); contradiction|]. intros _.
    destruct (_ && _ && _); reflexivity.
Qed.

Lemma filter_refuses_exactly_witness :
  evaluate (filter NR_arm sample_maps_32 ILP32)
           (sample_syscall (NR_arm __NR_execve) 0xbcda0000 ILP32)
  = Some SECCOMP_RET_TRAP.
Proof.
  apply (filter_refuses_exactly ILP32 NR_arm sample_maps_32
           (sample_syscall (NR_arm __NR_execve) 0xbcda0000 ILP32)).
  - split; [discriminate|reflexivity].
  - split; [discriminate|reflexivity].
  - split; [discriminate|reflexivity].
  - split; [discriminate|reflexivity].
  - reflexivity.
  - unfold refused. split; [reflexivity|]. split; [discriminate|].
    split.
    + unfold in_window. vm_compute. intros [_ H]. discriminate H.
    + exists __NR_execve. split; [|reflexivity]. vm_compute. tauto.
Defined.

(** ** Releasing the temporary mapping *)





(** ** Load, when the header is refused *)


